(** * Android binary XML encoder and APK writer of package [apk]

    A shallow embedding of [binary_xml.go] and [writer.go].  Go values are
    modelled as follows.

    - [string] is a Go string: a sequence of bytes (one [ascii] per byte).
    - a [byte], [uint16], [uint32] or [int] is a [Z]; every conversion that
      truncates in Go is written out with [mod].
    - [[]byte] is [list Z].
    - a [*bstring] is an address into a store of [bstring] records, because
      the pool slice, the pool map and the chunks share the entries and
      [Swap] writes through them.
    - a call that may return an error or panic yields an [outcome]. *)

From Stdlib Require Import ZArith Lia Ascii String List.
From stdpp Require Import base option list gmap strings sorting.

Local Open Scope Z_scope.

(** ** Outcomes of Go calls *)

(** [strconv.ErrSyntax] and [strconv.ErrRange]. *)
Inductive numErr := ErrSyntax | ErrRange.

(** The error values that reach [binaryXML]. *)
Inductive error :=
| EOF                                             (* io.EOF *)
| ReadError (msg : string)                        (* any other error of the decoder *)
| NumError (func num : string) (err : numErr)     (* *strconv.NumError *)
| Errorf_attr (line : Z) (local : string) (err : error).
    (* fmt.Errorf("%d: %s: %v", line, a.Name.Local, err) *)

(** The values the code panics with. *)
Inductive panicValue :=
| PanicStringLength (len : Z) (str : string)
    (* "string lengths over 1<<15 not yet supported, got len %d ..." *)
| PanicAttrType                                   (* "unexpected attr type" *)
| PanicIndex.                                     (* runtime: index out of range *)

Inductive outcome (A : Type) :=
| Ret (a : A)
| Fail (e : error)
| Panic (v : panicValue).
Arguments Ret {A} a.
Arguments Fail {A} e.
Arguments Panic {A} v.

Definition returns {A} (o : outcome A) : Prop := exists a, o = Ret a.
Definition panics {A} (o : outcome A) : Prop := exists v, o = Panic v.
Definition fails {A} (o : outcome A) : Prop := exists e, o = Fail e.

(** ** Integer conversions and byte helpers *)

Definition u8 (v : Z) : Z := v mod 256.
Definition u16 (v : Z) : Z := v mod 65536.
Definition u32 (v : Z) : Z := v mod 4294967296.

Definition byteOf (c : ascii) : Z := Z.of_N (N_of_ascii c).
Definition bytesOf (s : string) : list Z := map byteOf (list_ascii_of_string s).

(** [len(str)]: the number of bytes of a Go string. *)
Definition len (s : string) : Z := Z.of_nat (String.length s).

Definition headerXML : Z := 0x0003.
Definition headerStringPool : Z := 0x0001.
Definition headerResourceMap : Z := 0x0180.
Definition headerStartNamespace : Z := 0x0100.
Definition headerEndNamespace : Z := 0x0101.
Definition headerStartElement : Z := 0x0102.
Definition headerEndElement : Z := 0x0103.

(** [appendU16] takes a [uint16], [appendU32] a [uint32]. *)
Definition appendU16 (b : list Z) (v : Z) : list Z :=
  b ++ [u8 v; u8 (Z.shiftr v 8)].

Definition appendU32 (b : list Z) (v : Z) : list Z :=
  b ++ [u8 v; u8 (Z.shiftr v 8); u8 (Z.shiftr v 16); u8 (Z.shiftr v 24)].

Definition appendHeader (b : list Z) (typ : Z) (size : Z) : list Z :=
  let b := appendU16 b (u16 typ) in
  let b := appendU16 b 8 in
  let b := appendU16 b (u16 size) in
  let b := appendU16 b 0 in
  b.

(** Reading a little-endian 32-bit field back, to state what a field holds. *)
Definition readU32 (f : list Z) : Z :=
  match f with
  | [b0; b1; b2; b3] => b0 + 256 * b1 + 65536 * b2 + 16777216 * b3
  | _ => 0
  end.

(** ** Tables *)

Definition androidNS : string := "http://schemas.android.com/apk/res/android".

Definition resourceCodes : gmap string Z :=
  list_to_map
    [ ("versionCode", 0x0101021b); ("versionName", 0x0101021c);
      ("minSdkVersion", 0x0101020c); ("label", 0x01010001);
      ("hasCode", 0x0101000c); ("debuggable", 0x0101000f);
      ("name", 0x01010003); ("configChanges", 0x0101001f);
      ("value", 0x01010024) ]%string.

Definition configChanges : gmap string Z :=
  list_to_map
    [ ("mcc", 0x0001); ("mnc", 0x0002); ("locale", 0x0004);
      ("touchscreen", 0x0008); ("keyboard", 0x0010);
      ("keyboardHidden", 0x0020); ("navigation", 0x0040);
      ("orientation", 0x0080); ("screenLayout", 0x0100);
      ("uiMode", 0x0200); ("screenSize", 0x0400);
      ("smallestScreenSize", 0x0800); ("layoutDirection", 0x2000);
      ("fontScale", 0x40000000) ]%string.

(** Indexing a Go map: the zero value when the key is absent. *)
Definition mapIndex (m : gmap string Z) (k : string) : Z :=
  default 0 (m !! k).

(** ** UTF-8 decoding and UTF-16 encoding *)

Definition RuneError : Z := 0xFFFD.

(** The table [first] of package [utf8] for a leading byte of 0x80 and up
    with its [acceptRanges] entry: sequence length and the bounds of the
    second byte; [None] for a byte that starts no sequence. *)
Definition first (b0 : Z) : option (nat * (Z * Z)) :=
  if b0 <? 0xC2 then None
  else if b0 <=? 0xDF then Some (2%nat, (0x80, 0xBF))
  else if b0 =? 0xE0 then Some (3%nat, (0xA0, 0xBF))
  else if b0 <=? 0xEC then Some (3%nat, (0x80, 0xBF))
  else if b0 =? 0xED then Some (3%nat, (0x80, 0x9F))
  else if b0 <=? 0xEF then Some (3%nat, (0x80, 0xBF))
  else if b0 =? 0xF0 then Some (4%nat, (0x90, 0xBF))
  else if b0 <=? 0xF3 then Some (4%nat, (0x80, 0xBF))
  else if b0 =? 0xF4 then Some (4%nat, (0x80, 0x8F))
  else None.

Definition between (lo hi b : Z) : bool := (lo <=? b) && (b <=? hi).

(** Decoding a string rune by rune, as [[]rune(str)] and [range str] do:
    each step is [utf8.DecodeRuneInString], an invalid or short sequence
    yields [RuneError] and consumes one byte.  Every rune comes with the
    number of bytes it was decoded from. *)
Fixpoint decodeRunes (s : list Z) : list (Z * nat) :=
  match s with
  | [] => []
  | b0 :: t0 =>
    if b0 <? 0x80 then (b0, 1%nat) :: decodeRunes t0 else
    match first b0 with
    | None => (RuneError, 1%nat) :: decodeRunes t0
    | Some (sz, (lo, hi)) =>
      match t0 with
      | [] => (RuneError, 1%nat) :: decodeRunes t0
      | b1 :: t1 =>
        if negb (between lo hi b1) then (RuneError, 1%nat) :: decodeRunes t0
        else if (sz <=? 2)%nat then
          (Z.lor (Z.shiftl (Z.land b0 0x1F) 6) (Z.land b1 0x3F), 2%nat)
            :: decodeRunes t1
        else
          match t1 with
          | [] => (RuneError, 1%nat) :: decodeRunes t0
          | b2 :: t2 =>
            if negb (between 0x80 0xBF b2) then (RuneError, 1%nat) :: decodeRunes t0
            else if (sz <=? 3)%nat then
              (Z.lor (Z.lor (Z.shiftl (Z.land b0 0x0F) 12)
                            (Z.shiftl (Z.land b1 0x3F) 6))
                     (Z.land b2 0x3F), 3%nat) :: decodeRunes t2
            else
              match t2 with
              | [] => (RuneError, 1%nat) :: decodeRunes t0
              | b3 :: t3 =>
                if negb (between 0x80 0xBF b3) then
                  (RuneError, 1%nat) :: decodeRunes t0
                else
                  (Z.lor (Z.lor (Z.lor (Z.shiftl (Z.land b0 0x07) 18)
                                       (Z.shiftl (Z.land b1 0x3F) 12))
                                (Z.shiftl (Z.land b2 0x3F) 6))
                         (Z.land b3 0x3F), 4%nat) :: decodeRunes t3
              end
          end
      end
    end
  end.

(** [[]rune(str)]. *)
Definition runesOf (str : string) : list Z := map fst (decodeRunes (bytesOf str)).

(** One rune of [utf16.Encode]. *)
Definition encodeRune16 (v : Z) : list Z :=
  if (between 0 0xd7ff v || between 0xe000 0xffff v)%bool then [u16 v]
  else if between 0x10000 0x10FFFF v then
    let r := v - 0x10000 in
    [0xd800 + Z.land (Z.shiftr r 10) 0x3ff; 0xdc00 + Z.land r 0x3ff]
  else [RuneError].

Definition utf16Encode (rs : list Z) : list Z := concat (map encodeRune16 rs).

(** The UTF-16 code units of a string. *)
Definition codeUnits (str : string) : list Z := utf16Encode (runesOf str).

(** ** The string pool *)

Record bstring := {
  ind : Z;          (* uint32 *)
  str : string;
  enc : list Z      (* 2-byte length, utf16le, 2-byte zero *)
}.

(** A [*bstring] is the index of a cell of the store.  The pool model owns
    the store: [get] is the only place that allocates a [bstring]. *)
Abbreviation addr := nat (only parsing).

Record binStringPool := {
  heap : list bstring;
  s : list addr;             (* []*bstring *)
  m : gmap string addr       (* map[string]*bstring; a nil map reads as empty *)
}.

Definition newPool : binStringPool := {| heap := []; s := []; m := ∅ |}.

Definition nilBstring : bstring := {| ind := 0; str := ""; enc := [] |}.

(** Reading through a pointer.  The addresses a pool holds come from [get]
    and are allocated (lemma [poolInv_valid] below). *)
Definition deref (h : list bstring) (a : addr) : bstring :=
  default nilBstring (h !! a).

(** The entries of the pool slice, in slice order. *)
Definition entries (p : binStringPool) : list bstring :=
  map (deref (heap p)) (s p).

(** Calls on the pool thread it and may return an error or panic. *)
Definition M (A : Type) : Type := binStringPool -> outcome (A * binStringPool).

Definition ret {A} (a : A) : M A := fun p => Ret (a, p).
Definition fail {A} (e : error) : M A := fun _ => Fail e.
Definition bind {A B} (c : M A) (k : A -> M B) : M B :=
  fun p =>
    match c p with
    | Ret (a, p') => k a p'
    | Fail e => Fail e
    | Panic v => Panic v
    end.

Notation "x <- c ;; k" := (bind c (fun x => k))
  (at level 100, c at next level, right associativity).

(** [str[:n]]. *)
Fixpoint prefix (n : nat) (str : string) : string :=
  match n, str with
  | S n', String c t => String c (prefix n' t)
  | _, _ => EmptyString
  end.

Definition setEnc (h : list bstring) (a : addr) (e : list Z) : list bstring :=
  match h !! a with
  | Some b => <[a := {| ind := ind b; str := str b; enc := e |}]> h
  | None => h
  end.

Definition get (str : string) : M addr := fun p =>
  match m p !! str with
  | Some res => Ret (res, p)
  | None =>
    let res := length (heap p) in
    let b := {| ind := u32 (Z.of_nat (length (s p))); str := str; enc := [] |} in
    let h := heap p ++ [b] in
    let s' := s p ++ [res] in
    let m' := <[str := res]> (m p) in
    if 0 <? Z.shiftr (len str) 16 then
      Panic (PanicStringLength (len str) (prefix 100 str))
    else
      let e := appendU16 [] (u16 (len str)) in
      let e := fold_left appendU16 (utf16Encode (runesOf str)) e in
      let e := appendU16 e 0 in
      Ret (res, {| heap := setEnc h res e; s := s'; m := m' |})
  end.

(** ** Attributes *)

Record Name := { Space : string; Local : string }.
Record Attr := { AttrName : Name; Value : string }.

(** The dynamic type of [binAttr.data]. *)
Inductive attrData :=
| DataInt (v : Z)            (* int *)
| DataBool (v : bool)        (* bool *)
| DataUint32 (v : Z)         (* uint32 *)
| DataString (a : addr).     (* *bstring *)

Record binAttr := {
  attr_ns : addr;
  attr_name : addr;
  attr_data : attrData
}.

(** [strconv.ParseBool]. *)
Definition ParseBool (v : string) : outcome bool :=
  if bool_decide (v ∈ ["1"; "t"; "T"; "true"; "TRUE"; "True"]%string) then Ret true
  else if bool_decide (v ∈ ["0"; "f"; "F"; "false"; "FALSE"; "False"]%string) then Ret false
  else Fail (NumError "ParseBool" v ErrSyntax).

(** The decimal digits of [strconv.Atoi]: the value of a string of digits,
    [None] when a byte is no digit. *)
Fixpoint digitsValue (acc : Z) (ds : list Z) : option Z :=
  match ds with
  | [] => Some acc
  | d :: t => if between 48 57 d then digitsValue (10 * acc + (d - 48)) t else None
  end.

(** [strconv.Atoi] with a 64-bit [int]: an optional sign and at least one
    digit, else a syntax error; a value outside the range of [int] is a
    range error. *)
Definition Atoi (v : string) : outcome Z :=
  let syntax := Fail (NumError "Atoi" v ErrSyntax) in
  let (neg, ds) :=
    match bytesOf v with
    | 45 :: t => (true, t)
    | 43 :: t => (false, t)
    | l => (false, l)
    end in
  match ds with
  | [] => syntax
  | _ =>
    match digitsValue 0 ds with
    | None => syntax
    | Some n =>
      let r := if neg then - n else n in
      if between (- 2 ^ 63) (2 ^ 63 - 1) r then Ret r
      else Fail (NumError "Atoi" v ErrRange)
    end
  end.

(** [strings.Split(v, "|")]. *)
Fixpoint Split (v : string) : list string :=
  match v with
  | EmptyString => [EmptyString]
  | String c t =>
    if Ascii.eqb c "|" then EmptyString :: Split t
    else match Split t with
         | h :: r => String c h :: r
         | [] => [String c EmptyString]
         end
  end.

Definition liftOutcome {A} (o : outcome A) : M A := fun p =>
  match o with
  | Ret a => Ret (a, p)
  | Fail e => Fail e
  | Panic v => Panic v
  end.

Definition getAttr (attr : Attr) : M binAttr :=
  ns <- get (Space (AttrName attr)) ;;
  name <- get (Local (AttrName attr)) ;;
  if negb (String.eqb (Space (AttrName attr)) androidNS) then
    d <- get (Value attr) ;;
    ret {| attr_ns := ns; attr_name := name; attr_data := DataString d |}
  else
    let local := Local (AttrName attr) in
    if (String.eqb local "versionCode" || String.eqb local "minSdkVersion")%bool then
      v <- liftOutcome (Atoi (Value attr)) ;;
      ret {| attr_ns := ns; attr_name := name; attr_data := DataInt v |}
    else if (String.eqb local "hasCode" || String.eqb local "debuggable")%bool then
      v <- liftOutcome (ParseBool (Value attr)) ;;
      ret {| attr_ns := ns; attr_name := name; attr_data := DataBool v |}
    else if String.eqb local "configChanges" then
      let v := fold_left (fun v c => Z.lor v (mapIndex configChanges c))
                         (Split (Value attr)) (u32 0) in
      ret {| attr_ns := ns; attr_name := name; attr_data := DataUint32 v |}
    else
      d <- get (Value attr) ;;
      ret {| attr_ns := ns; attr_name := name; attr_data := DataString d |}.

(** [binAttr.append]: the indices are read through the pointers. *)
Definition binAttr_append (h : list bstring) (a : binAttr) (b : list Z)
  : outcome (list Z) :=
  let b := appendU32 b (ind (deref h (attr_ns a))) in
  let b := appendU32 b (ind (deref h (attr_name a))) in
  let b := appendU32 b 0xffffffff in
  let b := appendU16 b 8 in
  let b := appendU16 b 0 in
  match attr_data a with
  | DataInt v => Ret (appendU32 (b ++ [0x10]) (u32 v))
  | DataBool v => Ret (if v then appendU32 (b ++ [0x12]) 1
                       else appendU32 (b ++ [0x12]) 0)
  | DataUint32 v => Ret (appendU32 (b ++ [0x10]) (u32 v))
  | DataString _ => Panic PanicAttrType
  end.

(** ** Sorting the pool *)

(** Go's [<] on strings: byte-wise, a proper prefix is smaller. *)
Fixpoint strLess (a b : string) : bool :=
  match a, b with
  | _, EmptyString => false
  | EmptyString, String _ _ => true
  | String c a', String d b' =>
    (byteOf c <? byteOf d) || ((byteOf c =? byteOf d) && strLess a' b')
  end.

Definition Len (p : binStringPool) : nat := length (s p).

(** [b.s[i]] panics when [i] is out of range. *)
Definition Less (p : binStringPool) (i j : nat) : outcome bool :=
  match s p !! i, s p !! j with
  | Some ai, Some aj =>
    Ret (strLess (str (deref (heap p) ai)) (str (deref (heap p) aj)))
  | _, _ => Panic PanicIndex
  end.

Definition setInd (h : list bstring) (a : addr) (v : Z) : list bstring :=
  match h !! a with
  | Some b => <[a := {| ind := v; str := str b; enc := enc b |}]> h
  | None => h
  end.

(** Two tuple assignments.  In each the operands are evaluated first and
    the assignments then happen left to right; the second one reads and
    writes the entries through the pointers the first one has moved. *)
Definition Swap (p : binStringPool) (i j : nat) : outcome binStringPool :=
  match s p !! i, s p !! j with
  | Some ai, Some aj =>
    let s' := <[j := ai]> (<[i := aj]> (s p)) in
    match s' !! i, s' !! j with
    | Some pi, Some pj =>
      let vi := ind (deref (heap p) pj) in
      let vj := ind (deref (heap p) pi) in
      let h := setInd (heap p) pi vi in
      let h := setInd h pj vj in
      Ret {| heap := h; s := s'; m := m p |}
    | _, _ => Panic PanicIndex
    end
  | _, _ => Panic PanicIndex
  end.

(** [sort.Sort] is library code that reaches the pool only through [Len],
    [Less] and [Swap].  It is modelled by the insertion sort of package
    [sort] over the whole range:
    [for i := 1; i < n; i++ { for j := i; j > 0 && Less(j, j-1); j-- { Swap(j, j-1) } }]. *)
Fixpoint insertionInner (j : nat) (p : binStringPool) : outcome binStringPool :=
  match j with
  | O => Ret p
  | S j' =>
    match Less p j j' with
    | Ret true =>
      match Swap p j j' with
      | Ret p' => insertionInner j' p'
      | o => o
      end
    | Ret false => Ret p
    | Fail e => Fail e
    | Panic v => Panic v
    end
  end.

(** [k] iterations of the outer loop, starting at [i]. *)
Fixpoint insertionOuter (k i : nat) (p : binStringPool) : outcome binStringPool :=
  match k with
  | O => Ret p
  | S k' =>
    match insertionInner i p with
    | Ret p' => insertionOuter k' (S i) p'
    | o => o
    end
  end.

Definition sortPool (p : binStringPool) : outcome binStringPool :=
  insertionOuter (Len p - 1) 1 p.

(** ** Serializing the pool *)

Definition stringPoolPreamble : Z := 0 + 8 + 4 + 4 + 4 + 4 + 4 + 0.

Definition binStringPool_size (p : binStringPool) : Z :=
  let strLens :=
    fold_left (fun acc e => acc + Z.of_nat (length (enc e))) (entries p) 0 in
  stringPoolPreamble + 4 * Z.of_nat (Len p) + strLens + 2.

Definition binStringPool_append (p : binStringPool) (b : list Z) : list Z :=
  let stringsStart := u32 (stringPoolPreamble + 4 * Z.of_nat (Len p)) in
  let b := appendU16 b (u16 headerStringPool) in
  let b := appendU16 b 0x1c in
  let b := appendU16 b (u16 (binStringPool_size p)) in
  let b := appendU16 b 0 in
  let b := appendU32 b (u32 (Z.of_nat (Len p))) in
  let b := appendU32 b 0 in
  let b := appendU32 b 0 in
  let b := appendU32 b stringsStart in
  let b := appendU32 b 0 in
  let '(b, _) :=
    fold_left (fun '(b, off) e =>
                 (appendU32 b (u32 off), off + Z.of_nat (length (enc e))))
              (entries p) (b, 0) in
  let b := fold_left (fun b e => b ++ enc e) (entries p) b in
  appendU16 b 0.

(** ** Source lines *)

Record lineReader := {
  off : Z;            (* int64 *)
  lines : list Z;     (* []int64 *)
  r : list Z          (* io.Reader: the input not yet read *)
}.

Definition newLineReader (input : list Z) : lineReader :=
  {| off := 0; lines := []; r := input |}.

(** The loop of [Read] over [p[i]], [i] counting up. *)
Fixpoint scanLines (o i : Z) (p : list Z) (ls : list Z) : list Z :=
  match p with
  | [] => ls
  | c :: t => scanLines o (i + 1) t (if c =? 10 then ls ++ [o + i] else ls)
  end.

(** One call of [Read] in which the underlying reader hands over [n] bytes
    (all that is left when fewer than [n] remain). *)
Definition Read (lr : lineReader) (n : nat) : lineReader :=
  let p := take n (r lr) in
  {| off := off lr + Z.of_nat (length p);
     lines := scanLines (off lr) 0 p (lines lr);
     r := drop n (r lr) |}.

Definition Reads (lr : lineReader) (ns : list nat) : lineReader :=
  fold_left Read ns lr.

(** [sort.Search]: [for i < j { h := int(uint(i+j) >> 1); if !f(h) { i = h + 1 } else { j = h } }].
    The loop runs at most [j - i] times, which is the fuel [Search] gives it. *)
Fixpoint searchLoop (fuel : nat) (f : Z -> bool) (i j : Z) : Z :=
  match fuel with
  | O => i
  | S k =>
    if i <? j then
      let h := Z.shiftr (i + j) 1 in
      if negb (f h) then searchLoop k f (h + 1) j else searchLoop k f i h
    else i
  end.

Definition Search (n : Z) (f : Z -> bool) : Z := searchLoop (Z.to_nat n) f 0 n.

Definition line (lr : lineReader) (pos : Z) : Z :=
  Search (Z.of_nat (length (lines lr)))
         (fun i => pos <? nth (Z.to_nat i) (lines lr) 0) + 1.

(** ** The semantic chunks *)

Record binStartNamspace := { sn_line : Z; sn_prefix : addr; sn_url : addr }.
Record binEndNamspace := { en_line : Z; en_prefix : addr; en_url : addr }.
Record binStartElement :=
  { se_line : Z; se_ns : addr; se_name : addr; se_attr : list binAttr }.
Record binEndElement := { ee_line : Z; ee_ns : addr; ee_name : addr }.

Inductive element :=
| ElemStartNamspace (e : binStartNamspace)
| ElemStartElement (e : binStartElement)
| ElemEndElement (e : binEndElement)
| ElemEndNamspace (e : binEndNamspace).

Definition binStartElement_size (b : binStartElement) : Z :=
  8 + 4 + 4 + 4 + 4 + Z.of_nat (length (se_attr b)) * (4 + 4 + 4 + 4 + 4).

Definition binEndElement_size (b : binEndElement) : Z := 8 + 4 + 4 + 4 + 4.

(** ** Tokens *)

Inductive Token :=
| StartElement (name : Name) (attr : list Attr)
| EndElement (name : Name)
| CharData (data : string)
| Comment (data : string)
| ProcInst (target inst : string)
| Directive (data : string).

(** [unicode.IsSpace]. *)
Definition isSpace (c : Z) : bool :=
  (between 0x09 0x0d c || (c =? 0x20) || (c =? 0x85) || (c =? 0xA0)
   || (c =? 0x1680) || between 0x2000 0x200a c || between 0x2028 0x2029 c
   || (c =? 0x202f) || (c =? 0x205f) || (c =? 0x3000))%bool.

(** The number of bytes taken by the leading white space runes. *)
Fixpoint spaceWidth (rs : list (Z * nat)) : nat :=
  match rs with
  | (c, n) :: t => if isSpace c then (n + spaceWidth t)%nat else O
  | [] => O
  end.

Fixpoint dropSpace (rs : list (Z * nat)) : list (Z * nat) :=
  match rs with
  | (c, n) :: t => if isSpace c then dropSpace t else rs
  | [] => []
  end.

(** [strings.TrimSpace]: the runes are those of [decodeRunes]; the encoder
    only sees text the XML decoder has checked to be UTF-8. *)
Definition TrimSpace (v : string) : string :=
  let rs := decodeRunes (bytesOf v) in
  let nl := spaceWidth rs in
  let nr := spaceWidth (rev (dropSpace rs)) in
  substring nl (String.length v - nl - nr) v.

(** ** The encoder *)

(** One call of [d.Token()] that returns a token: the sizes of the [Read]
    calls the decoder makes on the line reader meanwhile, the token, and
    [d.InputOffset()] after the call. *)
Record tokenStep := {
  step_reads : list nat;
  step_tok : Token;
  step_offset : Z
}.

Record encoder := {
  lr : lineReader;
  depth : Z;
  elements : list element;
  namespaceEnds : gmap Z binEndNamspace
}.

(** The loop over [tok.Attr]. *)
Fixpoint attrLoop (ln : Z) (dep : Z) (attrs : list Attr)
    (acc : list element * gmap Z binEndNamspace * list binAttr)
  : M (list element * gmap Z binEndNamspace * list binAttr) :=
  match attrs with
  | [] => ret acc
  | a :: rest =>
    let '(els, ends, attr) := acc in
    if String.eqb (Space (AttrName a)) "xmlns" then
      pre <- get (Local (AttrName a)) ;;
      url <- get (Value a) ;;
      let els := els ++ [ElemStartNamspace
                           {| sn_line := ln; sn_prefix := pre; sn_url := url |}] in
      pre' <- get (Local (AttrName a)) ;;
      url' <- get (Value a) ;;
      let ends := <[dep := {| en_line := ln; en_prefix := pre'; en_url := url' |}]> ends in
      attrLoop ln dep rest (els, ends, attr)
    else
      fun p =>
        match getAttr a p with
        | Ret (ba, p') => attrLoop ln dep rest (els, ends, attr ++ [ba]) p'
        | Fail err => Fail (Errorf_attr ln (Local (AttrName a)) err)
        | Panic v => Panic v
        end
  end.

(** The body of the [switch] for one token. *)
Definition handleToken (ln : Z) (tok : Token) (e : encoder) : M encoder :=
  match tok with
  | StartElement name attrs =>
    acc <- attrLoop ln (depth e) attrs (elements e, namespaceEnds e, []) ;;
    let '(els, ends, attr) := acc in
    ns <- get (Space name) ;;
    nm <- get (Local name) ;;
    ret {| lr := lr e; depth := depth e + 1;
           elements := els ++ [ElemStartElement
             {| se_line := ln; se_ns := ns; se_name := nm; se_attr := attr |}];
           namespaceEnds := ends |}
  | EndElement name =>
    ns <- get (Space name) ;;
    nm <- get (Local name) ;;
    let els := elements e ++ [ElemEndElement
                 {| ee_line := ln; ee_ns := ns; ee_name := nm |}] in
    let dep := depth e - 1 in
    match namespaceEnds e !! dep with
    | Some nsEnd =>
      ret {| lr := lr e; depth := dep; elements := els ++ [ElemEndNamspace nsEnd];
             namespaceEnds := delete dep (namespaceEnds e) |}
    | None =>
      ret {| lr := lr e; depth := dep; elements := els;
             namespaceEnds := namespaceEnds e |}
    end
  | CharData data =>
    let t := TrimSpace data in
    if String.eqb t "" then ret e
    else
      _ <- get (String "009" (t ++ String "010" EmptyString)) ;;
      ret e
  | Comment _ | ProcInst _ _ | Directive _ => ret e
  end.

(** The [for] loop: [pos] is [d.InputOffset()] at the top of the iteration.
    The decoder is library code; a run of it is given by the steps that
    return a token and by the last call, which returns the error [final]
    ([EOF] at the end of the document). *)
Fixpoint tokenLoop (steps : list tokenStep) (final : list nat * error)
    (pos : Z) (e : encoder) : M encoder :=
  match steps with
  | [] =>
    match snd final with
    | EOF => ret {| lr := Reads (lr e) (fst final); depth := depth e;
                    elements := elements e; namespaceEnds := namespaceEnds e |}
    | err => fail err
    end
  | st :: rest =>
    let ln := line (lr e) pos in
    let e := {| lr := Reads (lr e) (step_reads st); depth := depth e;
                elements := elements e; namespaceEnds := namespaceEnds e |} in
    e' <- handleToken ln (step_tok st) e ;;
    tokenLoop rest final (step_offset st) e'
  end.

Definition binaryXML (input : list Z) (steps : list tokenStep)
    (final : list nat * error) : outcome (list Z) :=
  let e := {| lr := newLineReader input; depth := 0; elements := [];
              namespaceEnds := ∅ |} in
  match tokenLoop steps final 0 e newPool with
  | Ret (_, pool) =>
    match sortPool pool with
    | Ret pool =>
      let size := 8 + binStringPool_size pool in
      let b := [] in
      let b := appendHeader b headerXML size in
      let b := binStringPool_append pool b in
      Ret b
    | Fail err => Fail err
    | Panic v => Panic v
    end
  | Fail err => Fail err
  | Panic v => Panic v
  end.

(** ** The APK writer *)

(** [zip.Writer] is library code; what matters here is what has been
    written to the archive: the entries and, after [Close], the central
    directory. *)
Record zipWriter := {
  zip_files : list (string * list Z);
  zip_directory : bool
}.

Record manifestEntry := {
  me_name : string;
  me_sha1 : list Z       (* hash.Hash: the bytes hashed so far *)
}.

Record curEntry := {
  cur_path : string;
  cur_w : option (list Z);
  cur_sha1 : option (list Z)
}.

Record Writer := {
  w : zipWriter;
  manifest : list manifestEntry;
  cur : curEntry
}.

(** [Create] and [Close] have pointer receivers; the writer after the call
    and the results are returned.  [None] is [nil]. *)
Definition Create (wr : Writer) (name : string)
  : Writer * (option (list Z) * option error) := (wr, (None, None)).

Definition Close (wr : Writer) : Writer * option error := (wr, None).

(** [NewWriter] returns a nil [*Writer]. *)
Definition NewWriter (sink : list Z) (key : Z) : option Writer := None.

(** ** Inputs used in the examples *)

Definition mkAttr (space local value : string) : Attr :=
  {| AttrName := {| Space := space; Local := local |}; Value := value |}.

Definition balloon : string := "Balloon世界".

Fixpoint repeatString (n : nat) (c : string) : string :=
  match n with
  | O => EmptyString
  | S k => (c ++ repeatString k c)%string
  end.

(** What a 32-bit size field holds when it is written as the low 16 bits of
    the size followed by two zero bytes. *)
Definition sizeField (size : Z) : list Z :=
  [u8 (u16 size); u8 (Z.shiftr (u16 size) 8); 0; 0].

(** ** Definitions used to state the properties *)

(** The encoding [get] stores for a new string. *)
Definition encOf (x : string) : list Z :=
  appendU16 (fold_left appendU16 (codeUnits x) (appendU16 [] (u16 (len x)))) 0.

Definition minimalManifest : string := "<manifest package='x'/>".

Definition minimalSteps : list tokenStep :=
  [ {| step_reads := [23%nat];
       step_tok := StartElement {| Space := ""; Local := "manifest" |}
                                [mkAttr "" "package" "x"];
       step_offset := 23 |};
    {| step_reads := [];
       step_tok := EndElement {| Space := ""; Local := "manifest" |};
       step_offset := 23 |} ].

(** [true] when [needle] occurs in [hay] as a run of consecutive bytes. *)
Fixpoint hasPrefix (needle hay : list Z) : bool :=
  match needle, hay with
  | [], _ => true
  | n :: ns, h :: hs => (n =? h) && hasPrefix ns hs
  | _ :: _, [] => false
  end.

Fixpoint occurs (needle hay : list Z) : bool :=
  hasPrefix needle hay ||
  match hay with
  | [] => false
  | _ :: t => occurs needle t
  end.

(** The flag table as the specification lists it; any other token is 0. *)
Definition flagBit (c : string) : Z :=
  if String.eqb c "mcc" then 0x0001
  else if String.eqb c "mnc" then 0x0002
  else if String.eqb c "locale" then 0x0004
  else if String.eqb c "touchscreen" then 0x0008
  else if String.eqb c "keyboard" then 0x0010
  else if String.eqb c "keyboardHidden" then 0x0020
  else if String.eqb c "navigation" then 0x0040
  else if String.eqb c "orientation" then 0x0080
  else if String.eqb c "screenLayout" then 0x0100
  else if String.eqb c "uiMode" then 0x0200
  else if String.eqb c "screenSize" then 0x0400
  else if String.eqb c "smallestScreenSize" then 0x0800
  else if String.eqb c "layoutDirection" then 0x2000
  else if String.eqb c "fontScale" then 0x40000000
  else 0.

(** The bitwise OR of the flags of a list of tokens. *)
Definition orFlags (tokens : list string) : Z :=
  foldr (fun c acc => Z.lor (flagBit c) acc) 0 tokens.

(** Joining tokens with a bar, the inverse of [Split]. *)
Fixpoint joinBar (tokens : list string) : string :=
  match tokens with
  | [] => EmptyString
  | [t] => t
  | t :: rest => (t ++ String "|" (joinBar rest))%string
  end.

Fixpoint hasBar (t : string) : bool :=
  match t with
  | EmptyString => false
  | String c t' => Ascii.eqb c "|" || hasBar t'
  end.

Definition trueLits : list string := ["1"; "t"; "T"; "true"; "TRUE"; "True"]%string.
Definition falseLits : list string := ["0"; "f"; "F"; "false"; "FALSE"; "False"]%string.

Definition longValue : string := repeatString (256 * 256) "a".


Definition string32768 : string := repeatString (128 * 256) "a".
Definition string21846 : string := repeatString (6 * 3641) "世".

(** The number of newline bytes of a piece of input. *)
Fixpoint countNewlines (l : list Z) : Z :=
  match l with
  | [] => 0
  | c :: t => (if c =? 10 then 1 else 0) + countNewlines t
  end.

(** The offsets of the newline bytes of [l], which starts at offset [base]. *)
Fixpoint newlineOffsets (base : Z) (l : list Z) : list Z :=
  match l with
  | [] => []
  | c :: t => (if c =? 10 then [base] else []) ++ newlineOffsets (base + 1) t
  end.

(** The number of offsets of [l] that are at most [pos]. *)
Fixpoint countLe (pos : Z) (l : list Z) : Z :=
  match l with
  | [] => 0
  | o :: t => (if o <=? pos then 1 else 0) + countLe pos t
  end.

(** [strLe a b]: [a] is not greater than [b]. *)
Definition strLe (a b : string) : Prop := strLess b a = false.

(** The strings of the pool in slice order. *)
Definition strs (p : binStringPool) : list string := map str (entries p).

Record poolInv (p : binStringPool) : Prop := {
  inv_nodup : NoDup (s p);
  inv_valid : forall a, a ∈ s p -> (a < length (heap p))%nat;
  inv_ind : forall (i : nat) a,
      s p !! i = Some a -> ind (deref (heap p) a) = u32 (Z.of_nat i);
  inv_map : forall a, a ∈ s p -> m p !! str (deref (heap p) a) = Some a
}.

(** The pools the encoder can hold: built from the empty pool by calls of
    [get] that returned. *)
Inductive reachable : binStringPool -> Prop :=
| reach_new : reachable newPool
| reach_get p x a p' : reachable p -> get x p = Ret (a, p') -> reachable p'.

(** Any run of [Swap] calls, as a sorting routine other than the insertion
    sort above would make them. *)
Fixpoint applySwaps (sw : list (nat * nat)) (p : binStringPool)
  : outcome binStringPool :=
  match sw with
  | [] => Ret p
  | (i, j) :: rest =>
    match Swap p i j with
    | Ret p' => applySwaps rest p'
    | o => o
    end
  end.

(** The pool after interning [x]; the pool itself when [get] does not return. *)
Definition interned (x : string) (p : binStringPool) : binStringPool :=
  match get x p with
  | Ret (_, p') => p'
  | _ => p
  end.

(** A pool that holds "manifest", "package", "x" and "android", interned in
    this order. *)
Definition examplePool : binStringPool :=
  interned "android" (interned "x" (interned "package" (interned "manifest" newPool))).

(** A computation on the pool that only changes it by calls of [get]. *)
Definition internsOnly {A} (c : M A) : Prop :=
  forall p a p', reachable p -> c p = Ret (a, p') -> reachable p'.

(** Lexicographic comparison of two lists of numbers, a proper prefix being
    smaller: on bytes this is Go's [<] on strings, on runes the comparison of
    the code point sequences. *)
Fixpoint lexLess (x y : list Z) : bool :=
  match x, y with
  | _, [] => false
  | [], _ :: _ => true
  | c :: x', d :: y' => (c <? d) || ((c =? d) && lexLess x' y')
  end.

(** [utf8.Valid]: no rune of the text is a decoding error. *)
Definition Valid (bs : list Z) : bool :=
  forallb (fun rn => negb ((fst rn =? RuneError) && (snd rn =? 1)%nat))
          (decodeRunes bs).

(** The leading rune of a well-formed text, its value written with
    arithmetic, and the text after it. *)
Inductive leadingRune : list Z -> Z -> list Z -> Prop :=
| lead1 b0 t :
    b0 < 0x80 -> leadingRune (b0 :: t) b0 t
| lead2 b0 b1 t :
    0xC2 <= b0 <= 0xDF -> 0x80 <= b1 <= 0xBF ->
    leadingRune (b0 :: b1 :: t) ((b0 - 0xC0) * 64 + (b1 - 0x80)) t
| lead3 b0 b1 b2 t :
    0xE0 <= b0 <= 0xEF -> 0x80 <= b1 <= 0xBF -> (b0 = 0xE0 -> 0xA0 <= b1) ->
    0x80 <= b2 <= 0xBF ->
    leadingRune (b0 :: b1 :: b2 :: t)
                ((b0 - 0xE0) * 4096 + (b1 - 0x80) * 64 + (b2 - 0x80)) t
| lead4 b0 b1 b2 b3 t :
    0xF0 <= b0 <= 0xF4 -> 0x80 <= b1 <= 0xBF -> (b0 = 0xF0 -> 0x90 <= b1) ->
    0x80 <= b2 <= 0xBF -> 0x80 <= b3 <= 0xBF ->
    leadingRune (b0 :: b1 :: b2 :: b3 :: t)
                ((b0 - 0xF0) * 262144 + (b1 - 0x80) * 4096 + (b2 - 0x80) * 64
                 + (b3 - 0x80)) t.

Definition readU16 (f : list Z) : Z :=
  match f with
  | [b0; b1] => b0 + 256 * b1
  | _ => 0
  end.

Definition isByte (x : Z) : Prop := 0 <= x < 256.

(** Reading a byte sequence as little-endian 16-bit words. *)
Fixpoint readU16s (l : list Z) : list Z :=
  match l with
  | b0 :: b1 :: t => (b0 + 256 * b1) :: readU16s t
  | _ => []
  end.

Definition isU16 (u : Z) : Prop := 0 <= u < 65536.

(** Beyond [poolInv]: the map only knows entries of the slice, under their
    own string, and every entry carries the encoding of its string. *)
Record poolWF (p : binStringPool) : Prop := {
  wf_inv : poolInv p;
  wf_map : forall k a, m p !! k = Some a -> a ∈ s p /\ str (deref (heap p) a) = k;
  wf_enc : forall a, a ∈ s p -> enc (deref (heap p) a) = encOf (str (deref (heap p) a))
}.

(** [p'] holds the entries of [p], possibly in another order and with other
    indices. *)
Record sameEntries (p p' : binStringPool) : Prop := {
  same_s : s p' ≡ₚ s p;
  same_str : forall a, str (deref (heap p') a) = str (deref (heap p) a);
  same_enc : forall a, enc (deref (heap p') a) = enc (deref (heap p) a);
  same_m : m p' = m p
}.

Definition le32 (v : Z) : list Z :=
  [u8 v; u8 (Z.shiftr v 8); u8 (Z.shiftr v 16); u8 (Z.shiftr v 24)].

(** The offsets of the encodings of [es] in their concatenation, the first
    one being at [o]. *)
Fixpoint offsetsFrom (o : Z) (es : list bstring) : list Z :=
  match es with
  | [] => []
  | e :: t => o :: offsetsFrom (o + Z.of_nat (length (enc e))) t
  end.

(** The number of UTF-16 code units of a list of strings. *)
Fixpoint totalUnits (l : list string) : Z :=
  match l with
  | [] => 0
  | x :: t => Z.of_nat (length (codeUnits x)) + totalUnits t
  end.

(** The local names of the Android namespace whose value [getAttr] turns
    into a number. *)
Definition typedNames : list string :=
  ["versionCode"; "minSdkVersion"; "hasCode"; "debuggable"; "configChanges"]%string.

Definition typed (a : Attr) : bool :=
  String.eqb (Space (AttrName a)) androidNS
  && existsb (String.eqb (Local (AttrName a))) typedNames.

(** The twelve bytes that follow the two indices of an attribute. *)
Definition attrRaw : list Z := [255; 255; 255; 255; 8; 0; 0; 0].

Definition isRet {A} (o : outcome A) : bool :=
  match o with Ret _ => true | _ => false end.

(** A string that [get] takes: fewer than 2^16 bytes. *)
Definition shortString (x : string) : bool := len x <? 65536.

(** The attributes on which [getAttr] returns an attribute. *)
Definition getAttrOK (a : Attr) : bool :=
  let local := Local (AttrName a) in
  shortString (Space (AttrName a)) && shortString local
  && (if negb (String.eqb (Space (AttrName a)) androidNS) then shortString (Value a)
      else if (String.eqb local "versionCode" || String.eqb local "minSdkVersion")%bool
           then isRet (Atoi (Value a))
      else if (String.eqb local "hasCode" || String.eqb local "debuggable")%bool
           then isRet (ParseBool (Value a))
      else if String.eqb local "configChanges" then true
      else shortString (Value a)).

(** The attributes that the loop over [tok.Attr] takes. *)
Definition attrOK (a : Attr) : bool :=
  if String.eqb (Space (AttrName a)) "xmlns" then
    shortString (Local (AttrName a)) && shortString (Value a)
  else getAttrOK a.

(** The tokens that the [switch] of [binaryXML] takes. *)
Definition tokenOK (tok : Token) : bool :=
  match tok with
  | StartElement name attrs =>
    forallb attrOK attrs && shortString (Space name) && shortString (Local name)
  | EndElement name => shortString (Space name) && shortString (Local name)
  | CharData data =>
    let t := TrimSpace data in
    if String.eqb t "" then true
    else shortString (String "009" (t ++ String "010" EmptyString))
  | Comment _ | ProcInst _ _ | Directive _ => true
  end.

(** [c] returns on every pool built by [get]. *)
Definition okM {A} (c : M A) : Prop :=
  forall p, reachable p -> exists a p', c p = Ret (a, p') /\ reachable p'.

(** [c] returns on no pool built by [get]. *)
Definition badM {A} (c : M A) : Prop :=
  forall p, reachable p -> forall r, c p <> Ret r.

(** [err] is the error of parsing the value of the attribute [a]: [a] is a
    versionCode or minSdkVersion attribute of the Android namespace and
    [strconv.Atoi] fails with [err] on its value, or a hasCode or debuggable
    attribute and [strconv.ParseBool] fails with [err]. *)
Definition parseError (a : Attr) (err : error) : Prop :=
  Space (AttrName a) = androidNS
  /\ ((Local (AttrName a) ∈ ["versionCode"; "minSdkVersion"]%string
       /\ Atoi (Value a) = Fail err)
      \/ (Local (AttrName a) ∈ ["hasCode"; "debuggable"]%string
          /\ ParseBool (Value a) = Fail err)).

(** [d.InputOffset()] before the token that follows the steps [pre], [pos]
    being the offset before the first of them. *)
Definition offsetAfter (pos : Z) (pre : list tokenStep) : Z :=
  default pos (last (map step_offset pre)).

(** A manifest whose hasCode attribute is no boolean, and the run of the
    decoder on it. *)
Definition failingManifest : string :=
  "<a xmlns:android='http://schemas.android.com/apk/res/android'>"
  ++ String "010" "<b android:hasCode='maybe'/></a>".

Definition failingSteps : list tokenStep :=
  [ {| step_reads := [95%nat];
       step_tok := StartElement {| Space := ""; Local := "a" |}
                                [mkAttr "xmlns" "android" androidNS];
       step_offset := 62 |};
    {| step_reads := []; step_tok := CharData (String "010" ""); step_offset := 63 |};
    {| step_reads := [];
       step_tok := StartElement {| Space := ""; Local := "b" |}
                                [mkAttr androidNS "hasCode" "maybe"];
       step_offset := 91 |} ].

Definition isXmlns (a : Attr) : bool := String.eqb (Space (AttrName a)) "xmlns".

(** The pointer under which the pool holds [x]. *)
Definition ptr (p : binStringPool) (x : string) : nat := default 0%nat (m p !! x).

Definition startNs (ln : Z) (q : binStringPool) (a : Attr) : element :=
  ElemStartNamspace {| sn_line := ln; sn_prefix := ptr q (Local (AttrName a));
                       sn_url := ptr q (Value a) |}.

Definition endNs (ln : Z) (q : binStringPool) (a : Attr) : binEndNamspace :=
  {| en_line := ln; en_prefix := ptr q (Local (AttrName a)); en_url := ptr q (Value a) |}.

(** [c] keeps the strings of the pool under their pointers. *)
Definition monoM {A} (c : M A) : Prop :=
  forall p r p', c p = Ret (r, p') ->
    forall x a, m p !! x = Some a -> m p' !! x = Some a.

(** The nesting depth after the tokens [toks], from depth [k]; [None] when
    an end tag closes more than was opened. *)
Fixpoint nesting (toks : list Token) (k : nat) : option nat :=
  match toks with
  | [] => Some k
  | StartElement _ _ :: t => nesting t (S k)
  | EndElement _ :: t =>
    match k with
    | O => None
    | S k' => nesting t k'
    end
  | _ :: t => nesting t k
  end.

(** A root element with two namespace declarations and an element with one
    of its own inside: the run of the decoder on
    <manifest xmlns:android='...' xmlns:tools='...' package='x'>, newline,
    <b xmlns:c='urn:c'/>, newline, </manifest>. *)
Definition rootName : Name := {| Space := ""; Local := "manifest" |}.

Definition rootAttrs : list Attr :=
  [ mkAttr "xmlns" "android" androidNS;
    mkAttr "xmlns" "tools" "http://schemas.android.com/tools";
    mkAttr "" "package" "x" ].

Definition rootStart : tokenStep :=
  {| step_reads := [161%nat]; step_tok := StartElement rootName rootAttrs;
     step_offset := 128 |}.

Definition rootInner : list tokenStep :=
  [ {| step_reads := []; step_tok := CharData (String "010" ""); step_offset := 129 |};
    {| step_reads := [];
       step_tok := StartElement {| Space := ""; Local := "b" |} [mkAttr "xmlns" "c" "urn:c"];
       step_offset := 149 |};
    {| step_reads := []; step_tok := EndElement {| Space := ""; Local := "b" |};
       step_offset := 149 |};
    {| step_reads := []; step_tok := CharData (String "010" ""); step_offset := 150 |} ].

Definition rootEnd : tokenStep :=
  {| step_reads := []; step_tok := EndElement rootName; step_offset := 161 |}.

Definition rootDoc : string :=
  "<manifest xmlns:android='http://schemas.android.com/apk/res/android' xmlns:tools='http://schemas.android.com/tools' package='x'>"
  ++ String "010" ("<b xmlns:c='urn:c'/>" ++ String "010" "</manifest>").

Definition startEncoder : encoder :=
  {| lr := newLineReader (bytesOf rootDoc); depth := 0; elements := [];
     namespaceEnds := ∅ |}.

(** [n] tab bytes before [x]. *)
Fixpoint tabs (n : nat) (x : string) : string :=
  match n with
  | O => x
  | S k => String "009" (tabs k x)
  end.

(** [x] with every apostrophe replaced by a double quote. *)
Fixpoint dquote (x : string) : string :=
  match x with
  | EmptyString => EmptyString
  | String c t => String (if Ascii.eqb c "'" then "034"%char else c) (dquote t)
  end.

(** The lines joined by newline bytes, none after the last. *)
Fixpoint joinLines (l : list string) : string :=
  match l with
  | [] => EmptyString
  | [x] => x
  | x :: t => x ++ String "010" (joinLines t)
  end.

(** The constant [input] of the test of [binaryXML], line by line; its double
    quotes are written as apostrophes here (it has no apostrophe of its own)
    and put back by [fixtureInput]. *)
Definition fixtureLines : list string :=
  [ "<?xml version='1.0' encoding='utf-8'?>";
    "<!--";
    "Copyright 2014 The Go Authors. All rights reserved.";
    "Use of this source code is governed by a BSD-style";
    "license that can be found in the LICENSE file.";
    "-->";
    "<manifest";
    tabs 1 "xmlns:android='http://schemas.android.com/apk/res/android'";
    tabs 1 "package='com.zentus.balloon'";
    tabs 1 "android:versionCode='1'";
    tabs 1 "android:versionName='1.0'>";
    "";
    tabs 1 "<uses-sdk android:minSdkVersion='9' />";
    tabs 1 "<application android:label='Balloon世界' android:hasCode='false'>";
    tabs 1 "<activity android:name='android.app.NativeActivity'";
    tabs 2 "android:label='Balloon'";
    tabs 2 "android:configChanges='orientation|keyboardHidden'>";
    tabs 2 "<meta-data android:name='android.app.lib_name' android:value='balloon' />";
    tabs 2 "<intent-filter>";
    tabs 3 "here is some text";
    tabs 3 "<action android:name='android.intent.action.MAIN' />";
    tabs 3 "<category android:name='android.intent.category.LAUNCHER' />";
    tabs 2 "</intent-filter>";
    tabs 1 "</activity>";
    tabs 1 "</application>";
    "</manifest>" ]%string.

Definition fixtureInput : list Z := bytesOf (dquote (joinLines fixtureLines)).

(** The line reader once the decoder has read the whole manifest, which its
    buffer does in one call. *)
Definition fixtureReader : lineReader :=
  Reads (newLineReader fixtureInput) [length fixtureInput].

(** The line a chunk holds. *)
Definition elementLine (el : element) : Z :=
  match el with
  | ElemStartNamspace n => sn_line n
  | ElemStartElement n => se_line n
  | ElemEndElement n => ee_line n
  | ElemEndNamspace n => en_line n
  end.

(** The document <a>, newline, <b/>, newline, </a> and the run of the decoder
    on it: the end of the self-closing <b/> is a token of its own, returned
    without reading on. *)
Definition nestedDoc : string :=
  "<a>" ++ String "010" ("<b/>" ++ String "010" "</a>").

Definition nestedSteps : list tokenStep :=
  [ {| step_reads := [13%nat];
       step_tok := StartElement {| Space := ""; Local := "a" |} []; step_offset := 3 |};
    {| step_reads := []; step_tok := CharData (String "010" ""); step_offset := 4 |};
    {| step_reads := [];
       step_tok := StartElement {| Space := ""; Local := "b" |} []; step_offset := 8 |};
    {| step_reads := [];
       step_tok := EndElement {| Space := ""; Local := "b" |}; step_offset := 8 |};
    {| step_reads := []; step_tok := CharData (String "010" ""); step_offset := 9 |};
    {| step_reads := [];
       step_tok := EndElement {| Space := ""; Local := "a" |}; step_offset := 13 |} ].

(** * Properties *)

(** ** Byte helpers *)

Lemma u16_range v : 0 <= u16 v < 65536.
Proof. unfold u16. apply Z.mod_pos_bound. lia. Qed.

Lemma readU32_sizeField size : readU32 (sizeField size) = size mod 65536.
Proof.
  unfold sizeField, readU32, u8.
  pose proof (u16_range size) as H. fold (u16 size).
  rewrite Z.shiftr_div_pow2 by lia. change (2 ^ 8) with 256.
  rewrite (Z.mod_small (u16 size / 256) 256).
  - pose proof (Z.div_mod (u16 size) 256). lia.
  - split; [apply Z.div_pos; lia | apply Z.div_lt_upper_bound; lia].
Qed.

Lemma appendHeader_eq b typ size :
  appendHeader b typ size
  = b ++ [u8 (u16 typ); u8 (Z.shiftr (u16 typ) 8); 8; 0] ++ sizeField size.
Proof.
  unfold appendHeader, appendU16, sizeField. rewrite <- !app_assoc. reflexivity.
Qed.

Lemma fold_offsets_app (es : list bstring) : forall o,
  exists x o',
    length x = (4 * length es)%nat /\
    forall b,
      fold_left (fun '(b, off) e =>
                   (appendU32 b (u32 off), off + Z.of_nat (length (enc e))))
                es (b, o) = (b ++ x, o').
Proof.
  induction es as [|e es IH]; intros o; simpl.
  - exists [], o. split; [done|]. intros b. by rewrite app_nil_r.
  - destruct (IH (o + Z.of_nat (length (enc e)))) as (x & o' & Hl & Hx).
    exists (appendU32 [] (u32 o) ++ x), o'. split; [rewrite length_app; simpl; lia|].
    intros b. rewrite Hx. unfold appendU32. by rewrite <- app_assoc.
Qed.

Lemma fold_encs_app (es : list bstring) : forall b : list Z,
  fold_left (fun b e => b ++ enc e) es b = b ++ concat (map enc es).
Proof.
  induction es as [|e es IH]; intros b; simpl.
  - by rewrite app_nil_r.
  - rewrite IH, <- app_assoc. done.
Qed.

Lemma fold_strLens (es : list bstring) : forall acc,
  fold_left (fun acc e => acc + Z.of_nat (length (enc e))) es acc
  = acc + Z.of_nat (length (concat (map enc es))).
Proof.
  induction es as [|e es IH]; intros acc; simpl.
  - lia.
  - rewrite IH, length_app. lia.
Qed.

(** The serialized pool starts with its header and size field and is as long
    as [size] says. *)
Lemma binStringPool_append_eq p :
  exists rest,
    Z.of_nat (length ([1; 0; 28; 0] ++ sizeField (binStringPool_size p) ++ rest))
    = binStringPool_size p
    /\ forall b,
         binStringPool_append p b
         = b ++ [1; 0; 28; 0] ++ sizeField (binStringPool_size p) ++ rest.
Proof.
  unfold binStringPool_append.
  destruct (fold_offsets_app (entries p) 0) as (x & o' & Hl & Hx).
  eexists. split.
  2:{ intros b. rewrite Hx. rewrite fold_encs_app.
      unfold appendU16, appendU32. rewrite <- !app_assoc. reflexivity. }
  unfold binStringPool_size. rewrite fold_strLens.
  unfold sizeField, stringPoolPreamble, Len, entries in *.
  cbn [app length]. rewrite !length_app. cbn [length].
  rewrite length_map in Hl. lia.
Qed.

Lemma binStringPool_size_pos p : 30 <= binStringPool_size p.
Proof.
  unfold binStringPool_size. rewrite fold_strLens. unfold stringPoolPreamble. lia.
Qed.

(** ** [get] *)

Lemma len_nonneg x : 0 <= len x.
Proof. unfold len. lia. Qed.

Lemma len_check x : (0 <? Z.shiftr (len x) 16) = true <-> 65536 <= len x.
Proof.
  rewrite Z.shiftr_div_pow2 by lia. change (2 ^ 16) with 65536.
  rewrite Z.ltb_lt. pose proof (len_nonneg x).
  split; intros H1.
  - destruct (Z_lt_le_dec (len x) 65536) as [Hlt|]; [|done].
    rewrite Z.div_small in H1 by lia. lia.
  - apply Z.div_str_pos. lia.
Qed.

Lemma get_hit x p a : m p !! x = Some a -> get x p = Ret (a, p).
Proof. intros H. unfold get. by rewrite H. Qed.

Lemma get_miss_long x p :
  m p !! x = None -> 65536 <= len x ->
  get x p = Panic (PanicStringLength (len x) (prefix 100 x)).
Proof.
  intros H Hl. unfold get. rewrite H.
  apply len_check in Hl. by rewrite Hl.
Qed.

Lemma get_miss_short x p :
  m p !! x = None -> len x < 65536 ->
  get x p
  = Ret (length (heap p),
         {| heap := heap p ++ [{| ind := u32 (Z.of_nat (length (s p)));
                                  str := x; enc := encOf x |}];
            s := s p ++ [length (heap p)];
            m := <[x := length (heap p)]> (m p) |}).
Proof.
  intros H Hl. unfold get. rewrite H.
  destruct (0 <? Z.shiftr (len x) 16) eqn:E.
  - apply len_check in E. lia.
  - do 2 f_equal. f_equal. unfold setEnc.
    rewrite lookup_app_r by lia. rewrite Nat.sub_diag. simpl.
    rewrite insert_app_r_alt by lia. rewrite Nat.sub_diag. done.
Qed.

Lemma get_not_fail x p e : get x p <> Fail e.
Proof.
  unfold get. destruct (m p !! x); [done|].
  destruct (0 <? _); done.
Qed.

Lemma get_short x p :
  len x < 65536 ->
  exists a p', get x p = Ret (a, p') /\ m p' !! x = Some a.
Proof.
  intros Hl. destruct (m p !! x) as [a|] eqn:E.
  - exists a, p. by rewrite (get_hit _ _ _ E).
  - rewrite (get_miss_short _ _ E Hl). do 2 eexists. split; [done|].
    simpl. by rewrite lookup_insert_eq.
Qed.

(** ** The shape of the output of [binaryXML] *)

Lemma binaryXML_shape input steps final out :
  binaryXML input steps final = Ret out ->
  exists pool rest,
    out = [3; 0; 8; 0] ++ sizeField (8 + binStringPool_size pool)
          ++ [1; 0; 28; 0] ++ sizeField (binStringPool_size pool) ++ rest
    /\ out = appendHeader [] headerXML (8 + binStringPool_size pool)
             ++ binStringPool_append pool []
    /\ Z.of_nat (length out) = 8 + binStringPool_size pool.
Proof.
  unfold binaryXML. intros H.
  destruct (tokenLoop _ _ _ _ _) as [[e pool0]| |]; try done.
  destruct (sortPool pool0) as [pool| |]; try done.
  injection H as <-. exists pool.
  destruct (binStringPool_append_eq pool) as (rest & Hlen & Hr).
  exists rest. rewrite !Hr, appendHeader_eq. split; [done|]. split; [done|].
  rewrite !length_app in *. simpl in *. lia.
Qed.

(** ** Size fields *)

(** C9: every 32-bit total-size field the encoder writes (file header and
    string pool header) is the size reduced modulo 2^16 in two bytes followed
    by two zero bytes; read back as a 32-bit number the field is the size
    modulo 2^16, which is the size exactly when the size is below 65536. *)
Theorem size_fields_truncated :
  (forall b typ size,
      appendHeader b typ size
      = b ++ [u8 (u16 typ); u8 (Z.shiftr (u16 typ) 8); 8; 0]
          ++ [u8 (size mod 65536); u8 (Z.shiftr (size mod 65536) 8); 0; 0])
  /\ (forall p, exists rest, forall b,
      binStringPool_append p b
      = b ++ [1; 0; 28; 0]
          ++ [u8 (binStringPool_size p mod 65536);
              u8 (Z.shiftr (binStringPool_size p mod 65536) 8); 0; 0] ++ rest)
  /\ (forall input steps final,
      match binaryXML input steps final with
      | Ret out =>
        exists pool rest,
          out = [3; 0; 8; 0] ++ sizeField (8 + binStringPool_size pool)
                ++ [1; 0; 28; 0] ++ sizeField (binStringPool_size pool) ++ rest
          /\ Z.of_nat (length out) = 8 + binStringPool_size pool
      | _ => True
      end)
  /\ (forall size, readU32 (sizeField size) = size mod 65536)
  /\ (forall size, readU32 (sizeField size) = size <-> 0 <= size < 65536)
  /\ readU32 (sizeField 70000) = 4464.
Proof.
  split; [exact appendHeader_eq|].
  split.
  { intros p. destruct (binStringPool_append_eq p) as (rest & _ & H).
    exists rest. exact H. }
  split.
  { intros input steps final.
    destruct (binaryXML input steps final) as [out| |] eqn:E; [|done..].
    destruct (binaryXML_shape _ _ _ _ E) as (pool & rest & H1 & _ & H2).
    by exists pool, rest. }
  split; [exact readU32_sizeField|].
  split; [|reflexivity].
  intros size. rewrite readU32_sizeField. split.
  - intros H. rewrite <- H. apply Z.mod_pos_bound. lia.
  - intros H. apply Z.mod_small. lia.
Qed.

(** ** The output ends with the string pool *)

(** C1 (as the code runs): on the minimal manifest the encoder returns the
    file header followed by the string pool and nothing else; the file size
    field counts header and pool only, and neither the header of a resource
    map chunk (0x0180, header size 8) nor that of a start-element chunk
    (0x0102, header size 16) occurs in the output. *)
Theorem binaryXML_minimal_manifest :
  exists out pool,
    binaryXML (bytesOf minimalManifest) minimalSteps ([0%nat], EOF) = Ret out
    /\ out = appendHeader [] headerXML (8 + binStringPool_size pool)
             ++ binStringPool_append pool []
    /\ map str (entries pool) = [""; "manifest"; "package"; "x"]%string
    /\ Z.of_nat (length out) = 8 + binStringPool_size pool
    /\ out = [3; 0; 8; 0; 102; 0; 0; 0;
              1; 0; 28; 0; 94; 0; 0; 0; 4; 0; 0; 0; 0; 0; 0; 0; 0; 0; 0; 0;
              44; 0; 0; 0; 0; 0; 0; 0;
              0; 0; 0; 0; 4; 0; 0; 0; 24; 0; 0; 0; 42; 0; 0; 0;
              0; 0; 0; 0;
              8; 0; 109; 0; 97; 0; 110; 0; 105; 0; 102; 0; 101; 0; 115; 0;
              116; 0; 0; 0;
              7; 0; 112; 0; 97; 0; 99; 0; 107; 0; 97; 0; 103; 0; 101; 0; 0; 0;
              1; 0; 120; 0; 0; 0;
              0; 0]
    /\ occurs [0x80; 0x01; 0x08; 0x00] out = false
    /\ occurs [0x02; 0x01; 0x10; 0x00] out = false.
Proof.
  eexists _, (match tokenLoop minimalSteps ([0%nat], EOF) 0
                      {| lr := newLineReader (bytesOf minimalManifest); depth := 0;
                         elements := []; namespaceEnds := ∅ |} newPool with
              | Ret (_, p0) => match sortPool p0 with Ret p => p | _ => newPool end
              | _ => newPool
              end).
  split; [vm_compute; reflexivity|].
  repeat split; vm_compute; reflexivity.
Qed.

(** ** The length field of a pool string *)

(** C2 (as the code runs): interning "Balloon世界", which has nine UTF-16
    code units and thirteen UTF-8 bytes, stores the length field 0x000d (the
    byte count), followed by the nine code units and the closing zero. *)
Theorem get_balloon_length_field :
  len balloon = 13
  /\ codeUnits balloon
     = [0x0042; 0x0061; 0x006c; 0x006c; 0x006f; 0x006f; 0x006e; 0x4e16; 0x754c]
  /\ exists a p,
       get balloon newPool = Ret (a, p)
       /\ enc (deref (heap p) a)
          = [0x0d; 0x00; 0x42; 0x00; 0x61; 0x00; 0x6c; 0x00; 0x6c; 0x00;
             0x6f; 0x00; 0x6f; 0x00; 0x6e; 0x00; 0x16; 0x4e; 0x4c; 0x75;
             0x00; 0x00].
Proof.
  split; [reflexivity|]. split; [vm_compute; reflexivity|].
  rewrite get_miss_short by (vm_compute; done).
  do 2 eexists. split; [reflexivity|]. vm_compute. reflexivity.
Qed.

(** ** The writer *)

(** C3 (as the code runs): [Close] returns a nil error and leaves the writer
    as it was: no entry is finalized, no file is added to the archive and no
    central directory is written. *)
Theorem Close_is_stub (wr : Writer) :
  Close wr = (wr, None)
  /\ zip_files (w (fst (Close wr))) = zip_files (w wr)
  /\ zip_directory (w (fst (Close wr))) = zip_directory (w wr)
  /\ manifest (fst (Close wr)) = manifest wr.
Proof. done. Qed.

(** ** Flag attributes *)

Lemma mapIndex_flagBit c : mapIndex configChanges c = flagBit c.
Proof.
  unfold mapIndex, configChanges, flagBit. cbn [list_to_map foldr fst snd uncurry].
  repeat match goal with
         | |- context [ (<[?k := ?x]> ?mm) !! c ] =>
           rewrite (lookup_insert mm k c x);
           destruct (String.eqb_spec c k) as [->|Hne];
           [rewrite decide_True by done; reflexivity
           |rewrite decide_False by congruence; clear Hne]
         end.
  by rewrite lookup_empty.
Qed.

Lemma flagBit_absent c : configChanges !! c = None -> flagBit c = 0.
Proof. intros H. rewrite <- mapIndex_flagBit. unfold mapIndex. by rewrite H. Qed.

Lemma fold_left_lor (f : string -> Z) (l : list string) : forall a,
  fold_left (fun v c => Z.lor v (f c)) l a
  = Z.lor a (foldr (fun c acc => Z.lor (f c) acc) 0 l).
Proof.
  induction l as [|c l IH]; intros a; simpl.
  - by rewrite Z.lor_0_r.
  - rewrite IH. by rewrite Z.lor_assoc.
Qed.

Lemma fold_flags (l : list string) :
  fold_left (fun v c => Z.lor v (mapIndex configChanges c)) l (u32 0) = orFlags l.
Proof.
  rewrite fold_left_lor. change (u32 0) with 0. rewrite Z.lor_0_l.
  unfold orFlags. induction l as [|c l IH]; [done|].
  simpl. by rewrite IH, mapIndex_flagBit.
Qed.

Lemma Split_nonempty v : Split v <> [].
Proof. destruct v as [|c t]; simpl; [done|]. destruct (Ascii.eqb c "|"); [done|]. by destruct (Split t). Qed.

Lemma joinBar_Split v : joinBar (Split v) = v.
Proof.
  induction v as [|c t IH]; [done|]. simpl.
  destruct (Ascii.eqb_spec c "|") as [->|Hc].
  - pose proof (Split_nonempty t). destruct (Split t) as [|h r] eqn:E; [done|].
    cbn [joinBar]. simpl. by rewrite <- IH.
  - destruct (Split t) as [|h r] eqn:E; [by destruct (Split_nonempty t)|].
    destruct r as [|h' r']; simpl in *; by rewrite <- IH.
Qed.

Lemma Split_no_bar v : Forall (fun t => hasBar t = false) (Split v).
Proof.
  induction v as [|c t IH]; simpl; [by repeat constructor|].
  destruct (Ascii.eqb c "|") eqn:E.
  - by constructor.
  - pose proof (Split_nonempty t) as Hn.
    destruct (Split t) as [|h r]; [done|].
    inversion IH; subst. constructor; [|done]. simpl. by rewrite E.
Qed.

Lemma android_short : len androidNS < 65536.
Proof. reflexivity. Qed.

(** C7: for every value of android:configChanges the attribute is encoded as
    the bitwise OR, over the tokens between the bars, of the flag table;
    a token that is not in the table contributes 0 and is no error, and
    "orientation|nonsense" gives exactly 0x00000080. *)
Theorem configChanges_flags (p : binStringPool) (v : string) :
  (exists ns nm p',
      getAttr (mkAttr androidNS "configChanges" v) p
      = Ret ({| attr_ns := ns; attr_name := nm;
                attr_data := DataUint32 (orFlags (Split v)) |}, p'))
  /\ joinBar (Split v) = v
  /\ Forall (fun t => hasBar t = false) (Split v)
  /\ (forall c, configChanges !! c = None -> flagBit c = 0)
  /\ (forall c, mapIndex configChanges c = flagBit c)
  /\ Split "orientation|nonsense" = ["orientation"; "nonsense"]%string
  /\ orFlags (Split "orientation|nonsense") = 0x00000080.
Proof.
  split.
  - unfold getAttr, bind. cbn [mkAttr AttrName Space Local Value].
    destruct (get_short androidNS p android_short) as (ns & p1 & -> & _).
    destruct (get_short "configChanges" p1) as (nm & p2 & -> & _); [reflexivity|].
    change (negb (androidNS =? androidNS)%string) with false. cbn [orb String.eqb Ascii.eqb Bool.eqb].
    exists ns, nm, p2. unfold ret. by rewrite fold_flags.
  - split; [apply joinBar_Split|]. split; [apply Split_no_bar|].
    split; [apply flagBit_absent|]. split; [apply mapIndex_flagBit|].
    split; reflexivity.
Qed.

(** ** Boolean attributes *)

Lemma attrLoop_error ln dep attrs : forall acc p,
  match attrLoop ln dep attrs acc p with
  | Fail e => exists a err, a ∈ attrs /\ e = Errorf_attr ln (Local (AttrName a)) err
  | _ => True
  end.
Proof.
  induction attrs as [|a rest IH]; intros [[els ends] attr] p; [done|].
  cbn [attrLoop]. destruct (String.eqb _ "xmlns").
  - unfold bind.
    repeat match goal with
           | |- context [get ?x ?q] =>
             let E := fresh "E" in
             destruct (get x q) as [[? ?]|e0|] eqn:E;
             [|by destruct (get_not_fail _ _ _ E)|done]
           end.
    match goal with |- context [attrLoop _ _ _ ?acc' ?q] => specialize (IH acc' q) end.
    destruct (attrLoop _ _ _ _ _); [done| |done].
    destruct IH as (a' & err & Hin & ->). exists a', err. split; [|done].
    by apply list_elem_of_further.
  - destruct (getAttr a p) as [[ba p']|err|]; [| |done].
    + specialize (IH (els, ends, attr ++ [ba]) p').
      destruct (attrLoop _ _ _ _ _); [done| |done].
      destruct IH as (a' & err & Hin & ->). exists a', err. split; [|done].
      by apply list_elem_of_further.
    + exists a, err. split; [apply list_elem_of_here|done].
Qed.

(** C5 (counterexample): the value "1" of android:hasCode is not rejected;
    it is classified as the boolean true. *)
Lemma hasCode_accepts_1 :
  ~ ("1"%string ∈ ["true"; "false"]%string)
  /\ ~ fails (getAttr (mkAttr androidNS "hasCode" "1") newPool)
  /\ exists ns nm p',
       getAttr (mkAttr androidNS "hasCode" "1") newPool
       = Ret ({| attr_ns := ns; attr_name := nm; attr_data := DataBool true |}, p').
Proof.
  assert (H : exists ns nm p',
       getAttr (mkAttr androidNS "hasCode" "1") newPool
       = Ret ({| attr_ns := ns; attr_name := nm; attr_data := DataBool true |}, p')).
  { do 3 eexists. vm_compute. reflexivity. }
  split; [rewrite !elem_of_cons, elem_of_nil; intros [|[|[]]]; discriminate|].
  split; [|exact H].
  destruct H as (ns & nm & p' & ->). intros [e He]. discriminate.
Qed.

(** C5 (amended): an attribute hasCode or debuggable of the Android
    namespace is parsed with [strconv.ParseBool]: the literals 1, t, T, true,
    TRUE, True give the boolean true and 0, f, F, false, FALSE, False give
    false, serialized with type tag 0x12 and data 1 or 0; every other value
    makes [getAttr] fail, and the attribute loop of [binaryXML] returns that
    error together with the source line and the local name of the attribute. *)
Theorem bool_attributes (p : binStringPool) (v : string) (ln dep : Z)
    (rest : list Attr) (acc : list element * gmap Z binEndNamspace * list binAttr) :
  Forall (fun local =>
    exists ns nm p',
      getAttr (mkAttr androidNS local v) p
      = (if bool_decide (v ∈ trueLits) then
           Ret ({| attr_ns := ns; attr_name := nm; attr_data := DataBool true |}, p')
         else if bool_decide (v ∈ falseLits) then
           Ret ({| attr_ns := ns; attr_name := nm; attr_data := DataBool false |}, p')
         else Fail (NumError "ParseBool" v ErrSyntax))
      /\ (if bool_decide (v ∈ trueLits ++ falseLits) then True
          else attrLoop ln dep (mkAttr androidNS local v :: rest) acc p
               = Fail (Errorf_attr ln local (NumError "ParseBool" v ErrSyntax))))
    ["hasCode"; "debuggable"]%string
  /\ (forall h ns nm b, exists pre,
        binAttr_append h {| attr_ns := ns; attr_name := nm; attr_data := DataBool true |} b
        = Ret (pre ++ [0x12; 1; 0; 0; 0])
        /\ binAttr_append h {| attr_ns := ns; attr_name := nm; attr_data := DataBool false |} b
           = Ret (pre ++ [0x12; 0; 0; 0; 0]))
  /\ ("true"%string ∈ trueLits /\ "false"%string ∈ falseLits)
  /\ (forall attrs q,
        match attrLoop ln dep attrs acc q with
        | Fail e => exists a err, a ∈ attrs /\ e = Errorf_attr ln (Local (AttrName a)) err
        | _ => True
        end).
Proof.
  split.
  { assert (Hone : forall local, len local < 65536 ->
              (local =? "xmlns")%string = false ->
              ((local =? "versionCode")%string || (local =? "minSdkVersion")%string)%bool = false ->
              ((local =? "hasCode")%string || (local =? "debuggable")%string)%bool = true ->
              exists ns nm p',
      getAttr (mkAttr androidNS local v) p
      = (if bool_decide (v ∈ trueLits) then
           Ret ({| attr_ns := ns; attr_name := nm; attr_data := DataBool true |}, p')
         else if bool_decide (v ∈ falseLits) then
           Ret ({| attr_ns := ns; attr_name := nm; attr_data := DataBool false |}, p')
         else Fail (NumError "ParseBool" v ErrSyntax))
      /\ (if bool_decide (v ∈ trueLits ++ falseLits) then True
          else attrLoop ln dep (mkAttr androidNS local v :: rest) acc p
               = Fail (Errorf_attr ln local (NumError "ParseBool" v ErrSyntax)))).
    { intros local Hl _ H1 H2.
      assert (Hg : exists ns nm p',
        getAttr (mkAttr androidNS local v) p
        = (if bool_decide (v ∈ trueLits) then
           Ret ({| attr_ns := ns; attr_name := nm; attr_data := DataBool true |}, p')
         else if bool_decide (v ∈ falseLits) then
           Ret ({| attr_ns := ns; attr_name := nm; attr_data := DataBool false |}, p')
         else Fail (NumError "ParseBool" v ErrSyntax))).
      { unfold getAttr, bind. cbn [mkAttr AttrName Space Local Value].
        destruct (get_short androidNS p android_short) as (ns & p1 & -> & _).
        destruct (get_short local p1 Hl) as (nm & p2 & -> & _).
        change (negb (androidNS =? androidNS)%string) with false. cbv iota.
        rewrite H1, H2. exists ns, nm, p2.
        unfold ParseBool, liftOutcome, ret. fold trueLits. fold falseLits.
        destruct (bool_decide (v ∈ trueLits)); [done|].
        destruct (bool_decide (v ∈ falseLits)); done. }
      destruct Hg as (ns & nm & p' & Hg). exists ns, nm, p'. split; [exact Hg|].
      destruct (bool_decide (v ∈ trueLits ++ falseLits)) eqn:E; [done|].
      apply bool_decide_eq_false in E. rewrite elem_of_app in E.
      rewrite bool_decide_false in Hg by tauto.
      rewrite bool_decide_false in Hg by tauto.
      destruct acc as [[els ends] attr]. cbn [attrLoop mkAttr AttrName Space Local Value].
      change ((androidNS =? "xmlns")%string) with false. cbv iota.
      cbv beta. by rewrite Hg. }
    repeat constructor; apply Hone; reflexivity. }
  split.
  { intros h ns nm b. eexists. split; unfold binAttr_append; cbn [attr_data];
      unfold appendU32 at 1, u8; rewrite <- app_assoc; reflexivity. }
  split.
  { split; unfold trueLits, falseLits; set_solver. }
  intros attrs q. apply attrLoop_error.
Qed.

(** ** Attributes outside the Android namespace *)




(** ** Long strings *)

Lemma encodeRune16_length r : (length (encodeRune16 r) <= 2)%nat.
Proof. unfold encodeRune16. repeat case_match; simpl; lia. Qed.

Lemma encodeRune16_bmp r : r < 0x10000 -> length (encodeRune16 r) = 1%nat.
Proof.
  intros H. unfold encodeRune16, between. repeat case_match; try done.
  rewrite andb_true_iff, Z.leb_le in *. lia.
Qed.

Lemma utf16Encode_cons r rs : utf16Encode (r :: rs) = encodeRune16 r ++ utf16Encode rs.
Proof. done. Qed.

(** A string has at most as many UTF-16 code units as bytes. *)
Lemma units_le_bytes_aux (n : nat) : forall bs : list Z,
  (length bs <= n)%nat ->
  (length (utf16Encode (map fst (decodeRunes bs))) <= length bs)%nat.
Proof.
  induction n as [|n IH]; intros bs Hn.
  - destruct bs; [simpl; lia|simpl in Hn; lia].
  - destruct bs as [|b0 t0]; [simpl; lia|].
    cbn [decodeRunes].
    repeat case_match; subst; cbn [map fst length] in *;
      rewrite utf16Encode_cons, length_app;
      first
        [ rewrite encodeRune16_bmp by (unfold RuneError; lia);
          match goal with |- context [decodeRunes ?t] =>
            specialize (IH t ltac:(cbn [length]; lia)) end;
          cbn [length] in *; lia
        | match goal with |- context [encodeRune16 ?r] =>
            pose proof (encodeRune16_length r) end;
          match goal with |- context [decodeRunes ?t] =>
            specialize (IH t ltac:(cbn [length]; lia)) end;
          cbn [length] in *; lia ].
Qed.

Lemma length_bytesOf x : length (bytesOf x) = String.length x.
Proof.
  unfold bytesOf. rewrite length_map.
  induction x as [|c t IH]; simpl; [done|]. by rewrite IH.
Qed.

Lemma units_le_bytes x : Z.of_nat (length (codeUnits x)) <= len x.
Proof.
  unfold codeUnits, runesOf, len.
  pose proof (units_le_bytes_aux _ (bytesOf x) (Nat.le_refl _)) as H.
  rewrite length_bytesOf in H. lia.
Qed.

(** C4 (counterexample): a string of 2^15 code units is interned without any
    failure, and a string of 21846 code units (65538 bytes) is rejected; the
    rejection is a panic, not an error value. *)
Lemma get_length_limit_counterexample :
  (2 ^ 15 <= Z.of_nat (length (codeUnits string32768))
   /\ returns (get string32768 newPool)
   /\ ~ fails (get string32768 newPool))
  /\ (Z.of_nat (length (codeUnits string21846)) < 2 ^ 15
      /\ panics (get string21846 newPool)
      /\ ~ fails (get string21846 newPool)).
Proof.
  split.
  - split; [vm_compute; discriminate|].
    split; [|intros [e He]; by destruct (get_not_fail _ _ _ He)].
    rewrite get_miss_short; [by eexists|done|vm_compute; reflexivity].
  - split; [vm_compute; reflexivity|].
    split; [|intros [e He]; by destruct (get_not_fail _ _ _ He)].
    rewrite get_miss_long; [by eexists|done|vm_compute; discriminate].
Qed.

(** C4 (amended): [get] never returns an error value; a string it rejects
    for its length makes it panic, and [binaryXML] passes the panic on.  A
    string that is not yet in the pool and has at least 2^16 UTF-16 code
    units is rejected, and a string shorter than 2^15 bytes, which then has
    fewer than 2^15 code units, is never rejected. *)
Theorem get_length_check (p : binStringPool) (x : string) :
  ~ fails (get x p)
  /\ (m p !! x = None ->
      2 ^ 16 <= Z.of_nat (length (codeUnits x)) ->
      get x p = Panic (PanicStringLength (len x) (prefix 100 x)))
  /\ (len x < 2 ^ 15 ->
      Z.of_nat (length (codeUnits x)) < 2 ^ 15 /\ returns (get x p))
  /\ binaryXML [] [ {| step_reads := []; step_offset := 0;
                       step_tok := EndElement {| Space := ""; Local := longValue |} |} ]
                ([], EOF)
     = Panic (PanicStringLength 65536 (prefix 100 longValue)).
Proof.
  pose proof (units_le_bytes x) as Hu.
  split; [intros [e He]; by destruct (get_not_fail _ _ _ He)|].
  split; [intros Hm H; apply get_miss_long; [done|]; change (2 ^ 16) with 65536 in H; lia|].
  split; [|vm_compute; reflexivity].
  intros H. change (2 ^ 15) with 32768 in *. split; [lia|].
  destruct (get_short x p) as (a & p' & -> & _); [lia|]. by eexists.
Qed.

Lemma get_length_check_witness :
  get longValue newPool = Panic (PanicStringLength (len longValue) (prefix 100 longValue))
  /\ (Z.of_nat (length (codeUnits "manifest")) < 2 ^ 15
      /\ returns (get "manifest" newPool)).
Proof.
  split.
  - apply (proj1 (proj2 (get_length_check newPool longValue))).
    + reflexivity.
    + vm_compute. discriminate.
  - apply (proj1 (proj2 (proj2 (get_length_check newPool "manifest")))).
    reflexivity.
Defined.

(** ** Source lines *)

Lemma scanLines_spec p : forall o i ls,
  scanLines o i p ls = ls ++ newlineOffsets (o + i) p.
Proof.
  induction p as [|c t IH]; intros o i ls; simpl.
  - by rewrite app_nil_r.
  - rewrite IH. rewrite Z.add_assoc. destruct (c =? 10); simpl.
    + by rewrite <- app_assoc.
    + done.
Qed.

Lemma newlineOffsets_app l1 : forall base l2,
  newlineOffsets base (l1 ++ l2)
  = newlineOffsets base l1 ++ newlineOffsets (base + Z.of_nat (length l1)) l2.
Proof.
  induction l1 as [|c t IH]; intros base l2; simpl.
  - by rewrite Z.add_0_r.
  - rewrite IH, <- app_assoc. do 3 f_equal. lia.
Qed.

(** What the line reader holds after any number of reads: the offsets of the
    newlines among the bytes read, and the rest of the input. *)
Lemma Reads_spec input ns :
  exists n : nat,
    (n <= length input)%nat
    /\ off (Reads (newLineReader input) ns) = Z.of_nat n
    /\ lines (Reads (newLineReader input) ns) = newlineOffsets 0 (take n input)
    /\ r (Reads (newLineReader input) ns) = drop n input.
Proof.
  unfold Reads.
  assert (H0 : exists n : nat, (n <= length input)%nat
             /\ off (newLineReader input) = Z.of_nat n
             /\ lines (newLineReader input) = newlineOffsets 0 (take n input)
             /\ r (newLineReader input) = drop n input).
  { exists 0%nat. simpl. split; [lia|]. done. }
  revert H0. generalize (newLineReader input) as rd.
  induction ns as [|k ns IH]; intros rd H0; [exact H0|].
  simpl. apply IH. destruct H0 as (n & Hn & Ho & Hl & Hr).
  exists (n + length (take k (drop n input)))%nat. unfold Read. cbn [off lines r].
  rewrite Hr, Ho, Hl, scanLines_spec.
  assert (Hk : (length (take k (drop n input)) = k `min` (length input - n))%nat).
  { by rewrite length_take, length_drop. }
  assert (Ht : take (length (take k (drop n input))) (drop n input)
               = take k (drop n input)).
  { rewrite length_take. destruct (Nat.min_spec k (length (drop n input))) as [[_ ->]|[Hle ->]].
    - done.
    - by rewrite !take_ge by lia. }
  split; [lia|]. split; [lia|]. split.
  - rewrite Z.add_0_r.
    rewrite <- take_take_drop, Ht, newlineOffsets_app, length_take.
    do 3 f_equal. lia.
  - rewrite drop_drop.
    destruct (decide (k <= length input - n)%nat) as [Hle|Hgt].
    + f_equal. lia.
    + rewrite !drop_ge by lia. done.
Qed.

(** [sort.Search] on a predicate that is false and then true returns the
    first index at which it is true. *)
Lemma searchLoop_spec (f : Z -> bool) (n : Z) :
  (forall a b, 0 <= a <= b -> b < n -> f a = true -> f b = true) ->
  forall fuel i j,
    0 <= i <= j -> j <= n -> j - i <= Z.of_nat fuel ->
    (forall k, 0 <= k < i -> f k = false) ->
    (forall k, j <= k < n -> f k = true) ->
    i <= searchLoop fuel f i j <= j
    /\ (forall k, 0 <= k < searchLoop fuel f i j -> f k = false)
    /\ (forall k, searchLoop fuel f i j <= k < n -> f k = true).
Proof.
  intros Hmono. induction fuel as [|fuel IH]; intros i j Hij Hjn Hfuel Hlo Hhi.
  - simpl. assert (i = j) as -> by lia. repeat split; auto; lia.
  - cbn [searchLoop]. destruct (Z.ltb_spec i j) as [Hlt|Hge].
    2:{ assert (i = j) as -> by lia. repeat split; auto; lia. }
    rewrite Z.shiftr_div_pow2 by lia. change (2 ^ 1) with 2.
    assert (Hh : i <= (i + j) / 2 < j).
    { split; [apply Z.div_le_lower_bound; lia|apply Z.div_lt_upper_bound; lia]. }
    destruct (f ((i + j) / 2)) eqn:Ef; cbn [negb].
    + destruct (IH i ((i + j) / 2)) as (H1 & H2 & H3); try lia; auto.
      { intros k Hk. apply (Hmono ((i + j) / 2)); [lia|lia|done]. }
      repeat split; auto; lia.
    + destruct (IH ((i + j) / 2 + 1) j) as (H1 & H2 & H3); try lia; auto.
      { intros k Hk. destruct (f k) eqn:Ek; [|done].
        rewrite (Hmono k ((i + j) / 2)) in Ef; [done|lia|lia|done]. }
      repeat split; auto; lia.
Qed.

Lemma countLe_app pos l1 l2 : countLe pos (l1 ++ l2) = countLe pos l1 + countLe pos l2.
Proof. induction l1 as [|o t IH]; simpl; [done|]. rewrite IH. lia. Qed.

Lemma countLe_all pos l : Forall (fun o => o <= pos) l -> countLe pos l = Z.of_nat (length l).
Proof.
  induction 1 as [|o t Ho _ IH]; simpl; [done|].
  destruct (Z.leb_spec o pos); lia.
Qed.

Lemma countLe_none pos l : Forall (fun o => pos < o) l -> countLe pos l = 0.
Proof.
  induction 1 as [|o t Ho _ IH]; simpl; [done|].
  destruct (Z.leb_spec o pos); lia.
Qed.

Lemma sorted_lookup {A} (R : relation A) (l : list A) :
  StronglySorted R l ->
  forall (i j : nat) x y, l !! i = Some x -> l !! j = Some y -> (i < j)%nat -> R x y.
Proof.
  induction 1 as [|o t _ IH Ho]; intros i j x y Hi Hj Hlt; [done|].
  destruct j as [|j]; [lia|]. simpl in Hj.
  destruct i as [|i]; simpl in Hi.
  - injection Hi as <-. rewrite Forall_forall in Ho. apply Ho.
    by eapply list_elem_of_lookup_2.
  - eapply IH; eauto. lia.
Qed.

Lemma newlineOffsets_sorted l : forall base,
  StronglySorted Z.lt (newlineOffsets base l)
  /\ Forall (fun o => base <= o) (newlineOffsets base l).
Proof.
  induction l as [|c t IH]; intros base; simpl.
  - split; constructor.
  - destruct (IH (base + 1)) as [Hs Hf].
    assert (Hf' : Forall (fun o => base < o) (newlineOffsets (base + 1) t)).
    { eapply Forall_impl; [exact Hf|]. simpl. intros; lia. }
    destruct (c =? 10); simpl.
    + split; constructor; auto; [lia|].
      eapply Forall_impl; [exact Hf|]. simpl. intros; lia.
    + split; [done|]. eapply Forall_impl; [exact Hf|]. simpl. intros; lia.
Qed.

Lemma countLe_newlineOffsets pos l : forall base,
  countLe pos (newlineOffsets base l)
  = countNewlines (take (Z.to_nat (pos + 1 - base)) l).
Proof.
  induction l as [|c t IH]; intros base.
  - by rewrite take_nil.
  - cbn [newlineOffsets]. rewrite countLe_app, IH.
    destruct (Z.le_gt_cases base pos) as [Hle|Hgt].
    + replace (Z.to_nat (pos + 1 - base)) with (S (Z.to_nat (pos + 1 - (base + 1)))) by lia.
      cbn [take countNewlines]. destruct (c =? 10); simpl; [|done].
      destruct (Z.leb_spec base pos); lia.
    + replace (Z.to_nat (pos + 1 - base)) with 0%nat by lia.
      replace (Z.to_nat (pos + 1 - (base + 1))) with 0%nat by lia.
      cbn [take countNewlines]. destruct (c =? 10); simpl; [|done].
      destruct (Z.leb_spec base pos); lia.
Qed.

Lemma countNewlines_app l1 l2 :
  countNewlines (l1 ++ l2) = countNewlines l1 + countNewlines l2.
Proof. induction l1 as [|c t IH]; simpl; [done|]. rewrite IH. lia. Qed.

(** On a sorted list of offsets [line] is one more than the number of offsets
    that are at most [pos]. *)
Lemma line_countLe rd pos :
  StronglySorted Z.lt (lines rd) -> line rd pos = countLe pos (lines rd) + 1.
Proof.
  intros Hs. unfold line, Search. f_equal.
  set (n := Z.of_nat (length (lines rd))).
  set (f := fun i => pos <? nth (Z.to_nat i) (lines rd) 0).
  assert (Hnth : forall k, 0 <= k < n ->
            lines rd !! Z.to_nat k = Some (nth (Z.to_nat k) (lines rd) 0)).
  { intros k Hk. rewrite nth_lookup.
    destruct (lookup_lt_is_Some_2 (lines rd) (Z.to_nat k)) as [x ->]; [lia|done]. }
  destruct (searchLoop_spec f n) with (fuel := Z.to_nat n) (i := 0) (j := n)
    as (Hr & Hlo & Hhi); try lia.
  { intros a b Hab Hb. unfold f. rewrite !Z.ltb_lt. intros Ha.
    destruct (decide (a = b)) as [->|Hne]; [done|].
    pose proof (sorted_lookup _ _ Hs (Z.to_nat a) (Z.to_nat b) _ _
                  (Hnth a ltac:(lia)) (Hnth b ltac:(lia)) ltac:(lia)). lia. }
  set (res := searchLoop (Z.to_nat n) f 0 n) in *. clearbody res.
  assert (Hn : n = Z.of_nat (length (lines rd))) by done. clearbody n.
  rewrite <- (take_drop (Z.to_nat res) (lines rd)), countLe_app.
  rewrite countLe_all, countLe_none.
  - rewrite length_take, Nat.min_l by lia. lia.
  - apply Forall_lookup. intros i x Hi. rewrite lookup_drop in Hi.
    specialize (Hhi (Z.of_nat (Z.to_nat res + i))).
    pose proof (lookup_lt_Some _ _ _ Hi).
    unfold f in Hhi. rewrite Nat2Z.id, nth_lookup, Hi in Hhi. simpl in Hhi.
    apply Z.ltb_lt, Hhi. lia.
  - apply Forall_lookup. intros i x Hi.
    pose proof (lookup_lt_Some _ _ _ Hi) as Hlen. rewrite length_take in Hlen.
    rewrite lookup_take_lt in Hi by lia.
    specialize (Hlo (Z.of_nat i)).
    unfold f in Hlo. rewrite Nat2Z.id, nth_lookup, Hi in Hlo. simpl in Hlo.
    apply Z.ltb_ge, Hlo. lia.
Qed.

(** After any reads, [line pos] is one plus the number of newline bytes read
    so far at offsets up to and including [pos]. *)
Lemma line_through_pos (input : list Z) (ns : list nat) (pos : Z) :
  line (Reads (newLineReader input) ns) pos
  = countNewlines (take (Z.to_nat (pos + 1))
                        (take (Z.to_nat (off (Reads (newLineReader input) ns))) input)) + 1.
Proof.
  destruct (Reads_spec input ns) as (n & Hn & Ho & Hl & _).
  rewrite Ho, Nat2Z.id.
  rewrite line_countLe; rewrite Hl; [|apply newlineOffsets_sorted].
  rewrite countLe_newlineOffsets. do 3 f_equal. lia.
Qed.

(** C8 (as the code runs): [line] counts the newlines read at offsets up to
    and including the position, so at a position that holds a newline it is
    one more than the number of newlines before the position plus one.  On
    the manifest of the test, of 888 bytes, the decoder stands on the newline
    that follows the tag when it returns the end of each of the self-closing
    tags uses-sdk, meta-data, action and category, at offsets 391, 669, 764
    and 828, and [line] gives 14, 19, 22 and 23 there, where the tags are on
    lines 13, 18, 21 and 22, the lines the expected output of the test holds
    for these end-element chunks; before the text node, at offset 687, it
    gives 20 for 19.  On the document <a>, newline, <b/>, newline, </a> the
    chunks get the lines 1, 2, 3 and 3: the start of <b/> is on line 2 and
    its end on line 3. *)
Theorem line_after_self_closing_tag :
  (forall input ns pos,
      line (Reads (newLineReader input) ns) pos
      = countNewlines (take (Z.to_nat (pos + 1))
                            (take (Z.to_nat (off (Reads (newLineReader input) ns))) input))
        + 1)
  /\ length fixtureInput = 888%nat
  /\ Forall (fun '(pos, got, tagLine) =>
               take 3 (drop (pos - 2) fixtureInput) = bytesOf "/>" ++ [10]
               /\ line fixtureReader (Z.of_nat pos) = got
               /\ countNewlines (take pos fixtureInput) + 1 = tagLine)
            [(391%nat, 14, 13); (669%nat, 19, 18); (764%nat, 22, 21); (828%nat, 23, 22)]
  /\ (fixtureInput !! 687%nat = Some 10
      /\ line fixtureReader 687 = 20
      /\ countNewlines (take 687 fixtureInput) + 1 = 19)
  /\ match tokenLoop nestedSteps ([0%nat], EOF) 0
                     {| lr := newLineReader (bytesOf nestedDoc); depth := 0;
                        elements := []; namespaceEnds := ∅ |} newPool with
     | Ret (e, _) => map elementLine (elements e) = [1; 2; 3; 3]
     | _ => False
     end.
Proof.
  split; [exact line_through_pos|].
  split; [vm_compute; reflexivity|].
  split; [repeat constructor; vm_compute; reflexivity|].
  split; [split_and!; vm_compute; reflexivity|].
  vm_compute. reflexivity.
Qed.

(** ** The order on strings *)

Lemma byteOf_inj c d : byteOf c = byteOf d -> c = d.
Proof.
  unfold byteOf. intros H. apply N2Z.inj in H.
  rewrite <- (ascii_N_embedding c), <- (ascii_N_embedding d). by rewrite H.
Qed.

Lemma strLess_irrefl a : strLess a a = false.
Proof.
  induction a as [|c a IH]; [done|]. simpl. rewrite IH, Z.ltb_irrefl.
  by rewrite andb_false_r.
Qed.

Lemma strLess_asym a : forall b, strLess a b = true -> strLess b a = false.
Proof.
  induction a as [|c a IH]; intros [|d b]; simpl; try done.
  rewrite orb_true_iff, andb_true_iff, orb_false_iff, andb_false_iff.
  rewrite Z.ltb_lt, Z.eqb_eq, Z.ltb_ge, Z.eqb_neq.
  intros [Hlt|[Heq Hl]].
  - split; [lia|left; lia].
  - split; [lia|right; by apply IH].
Qed.

Lemma strLess_total a : forall b, strLess a b = false -> strLess b a = false -> a = b.
Proof.
  induction a as [|c a IH]; intros [|d b]; simpl; try done.
  rewrite !orb_false_iff, !andb_false_iff, !Z.ltb_ge, !Z.eqb_neq.
  intros [H1 H2] [H3 H4].
  assert (Hcd : byteOf c = byteOf d) by lia.
  rewrite (byteOf_inj _ _ Hcd). f_equal. apply IH.
  - destruct H2; [lia|done].
  - destruct H4; [lia|done].
Qed.

Lemma strLe_trans a : forall b c, strLe a b -> strLe b c -> strLe a c.
Proof.
  unfold strLe. induction a as [|x a IH]; intros [|y b] [|z c]; simpl; try done.
  rewrite !orb_false_iff, !andb_false_iff, !Z.ltb_ge, !Z.eqb_neq.
  intros [H1 H2] [H3 H4]. split; [lia|].
  destruct (decide (byteOf z = byteOf x)) as [Hzx|Hzx]; [|by left].
  right. apply (IH b c).
  - destruct H2; [lia|done].
  - destruct H4; [lia|done].
Qed.

Lemma strLe_of_less a b : strLess a b = true -> strLe a b.
Proof. apply strLess_asym. Qed.

Lemma strLess_of_le_ne a b : strLe a b -> a <> b -> strLess a b = true.
Proof.
  unfold strLe. intros H Hne. destruct (strLess a b) eqn:E; [done|].
  by destruct Hne; apply strLess_total.
Qed.

(** ** Writing through pointers *)

Lemma length_setInd h a v : length (setInd h a v) = length h.
Proof. unfold setInd. destruct (h !! a); [by rewrite length_insert|done]. Qed.

Lemma deref_setInd_ne h a v a' : a' <> a -> deref (setInd h a v) a' = deref h a'.
Proof.
  intros Hne. unfold setInd, deref. destruct (h !! a); [|done].
  by rewrite list_lookup_insert_ne.
Qed.

Lemma deref_setInd_eq h a v :
  (a < length h)%nat ->
  deref (setInd h a v) a
  = {| ind := v; str := str (deref h a); enc := enc (deref h a) |}.
Proof.
  intros Hlt. unfold setInd, deref.
  destruct (lookup_lt_is_Some_2 h a Hlt) as [b Hb]. rewrite Hb.
  by rewrite list_lookup_insert_eq.
Qed.

Lemma str_deref_setInd h a v a' : str (deref (setInd h a v) a') = str (deref h a').
Proof.
  destruct (decide (a' = a)) as [->|Hne]; [|by rewrite deref_setInd_ne].
  unfold setInd, deref. destruct (h !! a) as [b|] eqn:E; [|by rewrite E].
  rewrite list_lookup_insert_eq by (by eapply lookup_lt_Some). done.
Qed.

Lemma enc_deref_setInd h a v a' : enc (deref (setInd h a v) a') = enc (deref h a').
Proof.
  destruct (decide (a' = a)) as [->|Hne]; [|by rewrite deref_setInd_ne].
  unfold setInd, deref. destruct (h !! a) as [b|] eqn:E; [|by rewrite E].
  rewrite list_lookup_insert_eq by (by eapply lookup_lt_Some). done.
Qed.

(** ** The invariant of the pool *)

Lemma poolInv_new : poolInv newPool.
Proof. split; simpl; try done; [constructor|intros a H; by apply elem_of_nil in H..]. Qed.

Lemma poolInv_get x p a p' : poolInv p -> get x p = Ret (a, p') -> poolInv p'.
Proof.
  intros [Hnd Hv Hi Hm] Hget.
  destruct (m p !! x) as [a0|] eqn:E.
  { rewrite (get_hit _ _ _ E) in Hget. injection Hget as <- <-. by split. }
  destruct (Z_lt_le_dec (len x) 65536) as [Hl|Hl].
  2:{ by rewrite (get_miss_long _ _ E Hl) in Hget. }
  rewrite (get_miss_short _ _ E Hl) in Hget. injection Hget as <- <-.
  assert (Hder : forall b, b ∈ s p ->
            deref (heap p ++ [{| ind := u32 (Z.of_nat (length (s p)));
                                 str := x; enc := encOf x |}]) b = deref (heap p) b).
  { intros b Hb. unfold deref. by rewrite lookup_app_l by auto. }
  split; cbn [heap s m].
  - apply NoDup_app. split; [done|]. split; [|apply NoDup_singleton].
    intros b Hb Hb'. apply list_elem_of_singleton in Hb'. subst b.
    apply Hv in Hb. lia.
  - intros b Hb. rewrite length_app. simpl.
    apply elem_of_app in Hb as [Hb|Hb]; [apply Hv in Hb; lia|].
    apply list_elem_of_singleton in Hb. lia.
  - intros i b Hb. destruct (decide (i < length (s p))%nat) as [Hlt|Hge].
    + rewrite lookup_app_l in Hb by done.
      rewrite Hder by (by eapply list_elem_of_lookup_2). by apply Hi.
    + rewrite lookup_app_r in Hb by lia.
      destruct (i - length (s p))%nat as [|k] eqn:Ek; [|done].
      injection Hb as <-. unfold deref. rewrite lookup_app_r by lia.
      rewrite Nat.sub_diag. simpl. do 2 f_equal. lia.
  - intros b Hb. apply elem_of_app in Hb as [Hb|Hb].
    + rewrite Hder by done. rewrite lookup_insert_ne; [by apply Hm|].
      intros Heq. specialize (Hm b Hb). rewrite <- Heq in Hm. congruence.
    + apply list_elem_of_singleton in Hb. subst b. unfold deref.
      rewrite lookup_app_r by lia. rewrite Nat.sub_diag. simpl.
      by rewrite lookup_insert_eq.
Qed.

Lemma reachable_inv p : reachable p -> poolInv p.
Proof. induction 1; [apply poolInv_new|by eapply poolInv_get]. Qed.

Lemma poolInv_strs_nodup p : poolInv p -> NoDup (strs p).
Proof.
  intros [Hnd Hv Hi Hm]. unfold strs, entries. rewrite map_map.
  apply NoDup_fmap_2_strong; [|done].
  intros a b Ha Hb Heq. pose proof (Hm a Ha) as H1. pose proof (Hm b Hb) as H2.
  rewrite Heq in H1. congruence.
Qed.

(** ** [Less] and [Swap] on a pool that satisfies the invariant *)

Lemma strs_lookup p (i : nat) x :
  strs p !! i = Some x <->
  exists a, s p !! i = Some a /\ str (deref (heap p) a) = x.
Proof.
  unfold strs, entries. rewrite map_map.
  change (map ?f ?l) with (f <$> l). rewrite list_lookup_fmap.
  destruct (s p !! i) as [a|]; simpl; split.
  - intros [= <-]. by exists a.
  - intros (a' & [= <-] & <-). done.
  - done.
  - by intros (a' & ? & _).
Qed.

Lemma Less_spec p (i j : nat) x y :
  strs p !! i = Some x -> strs p !! j = Some y -> Less p i j = Ret (strLess x y).
Proof.
  rewrite !strs_lookup. intros (ai & Hi & <-) (aj & Hj & <-).
  unfold Less. by rewrite Hi, Hj.
Qed.

Lemma lookup_swap {A} (l : list A) (i j k : nat) x y :
  l !! i = Some x -> l !! j = Some y -> i <> j ->
  <[j := x]> (<[i := y]> l) !! k
  = if decide (k = j) then Some x else if decide (k = i) then Some y else l !! k.
Proof.
  intros Hi Hj Hne.
  pose proof (lookup_lt_Some _ _ _ Hi). pose proof (lookup_lt_Some _ _ _ Hj).
  destruct (decide (k = j)) as [->|Hkj].
  - rewrite list_lookup_insert_eq; [done|by rewrite length_insert].
  - rewrite list_lookup_insert_ne by done.
    destruct (decide (k = i)) as [->|Hki].
    + by rewrite list_lookup_insert_eq.
    + by rewrite list_lookup_insert_ne.
Qed.

Lemma insert_swap_adjacent {A} (l : list A) : forall (k : nat) x y rest,
  length l = k ->
  <[k := x]> (<[S k := y]> (l ++ y :: x :: rest)) = l ++ x :: y :: rest.
Proof.
  induction l as [|z l IH]; intros k x y rest <-; simpl; [done|].
  f_equal. by apply IH.
Qed.

Lemma Swap_spec p (i j : nat) ai aj :
  poolInv p -> s p !! i = Some ai -> s p !! j = Some aj -> i <> j ->
  exists p',
    Swap p i j = Ret p'
    /\ poolInv p'
    /\ strs p' = <[j := str (deref (heap p) ai)]>
                   (<[i := str (deref (heap p) aj)]> (strs p))
    /\ m p' = m p
    /\ s p' ≡ₚ s p
    /\ (forall a, str (deref (heap p') a) = str (deref (heap p) a)).
Proof.
  intros [Hnd Hv Hind Hm] Hi Hj Hne.
  assert (Hlk := fun k => lookup_swap (s p) i j k ai aj Hi Hj Hne).
  assert (Haij : ai <> aj).
  { intros ->. apply Hne. by eapply NoDup_lookup. }
  assert (Hai : ai ∈ s p) by (by eapply list_elem_of_lookup_2).
  assert (Haj : aj ∈ s p) by (by eapply list_elem_of_lookup_2).
  unfold Swap. rewrite Hi, Hj.
  rewrite (Hlk i), (Hlk j).
  destruct (decide (i = j)) as [|_]; [done|]. rewrite !decide_True by done.
  eexists. split; [reflexivity|].
  set (h2 := setInd (setInd (heap p) aj (ind (deref (heap p) ai))) ai
                    (ind (deref (heap p) aj))).
  assert (Hlen : length h2 = length (heap p)).
  { unfold h2. by rewrite !length_setInd. }
  assert (Hstr : forall a, str (deref h2 a) = str (deref (heap p) a)).
  { intros a. unfold h2. by rewrite !str_deref_setInd. }
  assert (Hin : forall a, a ∈ <[j := ai]> (<[i := aj]> (s p)) -> a ∈ s p).
  { intros a Ha. apply list_elem_of_lookup in Ha as [k Hk]. rewrite Hlk in Hk.
    repeat case_decide; simplify_eq; try done. by eapply list_elem_of_lookup_2. }
  assert (Hnd' : NoDup (<[j := ai]> (<[i := aj]> (s p)))).
  { apply NoDup_alt. intros k1 k2 a H1 H2. rewrite Hlk in H1, H2.
    repeat case_decide; simplify_eq; try done;
      solve [ by eapply NoDup_lookup
            | exfalso; eauto using NoDup_lookup ]. }
  split; [split; cbn [heap s m]|].
  - done.
  - intros a Ha. rewrite Hlen. auto.
  - intros k a Hk. rewrite Hlk in Hk. unfold h2.
    repeat case_decide; simplify_eq.
    + rewrite deref_setInd_eq by (rewrite length_setInd; auto). simpl. auto.
    + rewrite deref_setInd_ne by done. rewrite deref_setInd_eq by auto. simpl. auto.
    + assert (a <> ai) by (intros ->; eauto using NoDup_lookup).
      assert (a <> aj) by (intros ->; eauto using NoDup_lookup).
      rewrite !deref_setInd_ne by done. auto.
  - intros a Ha. rewrite Hstr. auto.
  - cbn [heap s m]. split_and!; [|done| |done].
    + unfold strs, entries. cbn [heap s]. rewrite !map_map.
      change (map ?f ?l) with (f <$> l).
      rewrite (list_fmap_ext _ (fun a => str (deref (heap p) a)) _ (fun _ a _ => Hstr a)).
      by rewrite !list_fmap_insert.
    + apply submseteq_length_Permutation; [by apply NoDup_submseteq|].
      by rewrite !length_insert.
Qed.

(** Swapping a position with itself changes nothing. *)
Lemma Swap_same p (i : nat) ai :
  poolInv p -> s p !! i = Some ai -> Swap p i i = Ret p.
Proof.
  intros [Hnd Hv Hind Hm] Hi.
  assert (Hai : (ai < length (heap p))%nat) by (by eapply Hv, list_elem_of_lookup_2).
  unfold Swap. rewrite Hi.
  rewrite !(list_insert_id (s p) i ai Hi), Hi.
  assert (Hid : setInd (heap p) ai (ind (deref (heap p) ai)) = heap p).
  { unfold setInd, deref. destruct (lookup_lt_is_Some_2 _ _ Hai) as [b Hb].
    rewrite Hb. simpl. apply list_insert_id. rewrite Hb. by destruct b. }
  rewrite !Hid. by destruct p.
Qed.

Lemma Swap_ret p (i j : nat) p' :
  poolInv p -> Swap p i j = Ret p' ->
  poolInv p' /\ strs p' ≡ₚ strs p /\ m p' = m p.
Proof.
  intros Hinv H.
  destruct (s p !! i) as [ai|] eqn:Hi; [|by unfold Swap in H; rewrite Hi in H].
  destruct (s p !! j) as [aj|] eqn:Hj; [|by unfold Swap in H; rewrite Hi, Hj in H].
  destruct (decide (i = j)) as [->|Hne].
  - rewrite (Swap_same p j ai Hinv Hi) in H. by injection H as <-.
  - destruct (Swap_spec p i j ai aj Hinv Hi Hj Hne)
      as (p1 & HR & Hinv1 & _ & Hm1 & Hperm & Hstr).
    rewrite HR in H. injection H as <-. split_and!; try done.
    unfold strs, entries. rewrite !map_map. change (map ?f ?l) with (f <$> l).
    rewrite (list_fmap_ext _ (fun a => str (deref (heap p) a)) _ (fun _ a _ => Hstr a)).
    by apply fmap_Permutation.
Qed.

(** ** Insertion sort through [Less] and [Swap] *)

(** The inner loop moves the string at position [j] down into the sorted
    run before it. *)
Lemma insertionInner_spec : forall (j : nat) p A x B C,
  poolInv p ->
  strs p = A ++ x :: B ++ C ->
  length A = j ->
  StronglySorted strLe (A ++ B) ->
  Forall (strLe x) B ->
  exists p' A',
    insertionInner j p = Ret p'
    /\ poolInv p'
    /\ strs p' = A' ++ C
    /\ StronglySorted strLe A'
    /\ A' ≡ₚ A ++ x :: B
    /\ m p' = m p.
Proof.
  induction j as [|j IH]; intros p A x B C Hinv Hstrs Hlen Hsort Hx.
  - apply nil_length_inv in Hlen. subst A. simpl in *.
    exists p, (x :: B). split_and!; try done. by constructor.
  - destruct A as [|y A0 _] using rev_ind; [done|].
    rewrite length_app in Hlen. simpl in Hlen.
    assert (Hl0 : length A0 = j) by lia. clear Hlen.
    rewrite <- app_assoc in Hstrs. simpl in Hstrs.
    assert (Hj1 : strs p !! S j = Some x).
    { rewrite Hstrs, lookup_app_r by lia. by replace (S j - length A0)%nat with 1%nat by lia. }
    assert (Hj0 : strs p !! j = Some y).
    { rewrite Hstrs, lookup_app_r by lia. by replace (j - length A0)%nat with 0%nat by lia. }
    cbn [insertionInner]. rewrite (Less_spec p (S j) j x y Hj1 Hj0).
    destruct (strLess x y) eqn:E.
    + pose proof Hj1 as Hj1'. pose proof Hj0 as Hj0'.
      apply strs_lookup in Hj1' as (a1 & Ha1 & Hx1).
      apply strs_lookup in Hj0' as (a0 & Ha0 & Hy0).
      destruct (Swap_spec p (S j) j a1 a0 Hinv Ha1 Ha0 ltac:(lia))
        as (p1 & -> & Hinv1 & Hstrs1 & Hm1 & _ & _).
      rewrite Hx1, Hy0, Hstrs, (insert_swap_adjacent A0 j x y _ Hl0) in Hstrs1.
      destruct (IH p1 A0 x (y :: B) C Hinv1 Hstrs1 Hl0) as (p' & A' & HR & Hinv' & Hs' & Hso' & Hp' & Hm').
      { by rewrite <- app_assoc in Hsort. }
      { constructor; [by apply strLe_of_less|done]. }
      exists p', A'. split_and!; try done.
      * rewrite Hp', <- app_assoc. simpl. apply Permutation_app_head, perm_swap.
      * congruence.
    + exists p, ((A0 ++ [y]) ++ x :: B). split_and!; try done.
      * by rewrite <- !app_assoc.
      * apply StronglySorted_app in Hsort as (Hab & HsA & HsB).
        apply StronglySorted_app_2; [|done|by constructor].
        intros x1 x2 H1 H2. apply elem_of_cons in H2 as [->|H2]; [|by apply Hab].
        apply (strLe_trans x1 y x); [|exact E].
        apply elem_of_app in H1 as [H1|H1].
        -- apply (StronglySorted_app_1_elem_of _ _ _ _ _ HsA H1). by left.
        -- apply list_elem_of_singleton in H1. subst x1. apply strLess_irrefl.
Qed.

Lemma insertionOuter_spec : forall (k i : nat) p A C,
  poolInv p ->
  strs p = A ++ C ->
  length A = i ->
  length C = k ->
  StronglySorted strLe A ->
  exists p',
    insertionOuter k i p = Ret p'
    /\ poolInv p'
    /\ StronglySorted strLe (strs p')
    /\ strs p' ≡ₚ strs p
    /\ m p' = m p.
Proof.
  induction k as [|k IH]; intros i p A C Hinv Hstrs Hi Hk Hsort.
  - apply nil_length_inv in Hk. subst C. rewrite app_nil_r in Hstrs.
    exists p. simpl. by rewrite Hstrs.
  - destruct C as [|x C]; [done|]. simpl in Hk.
    destruct (insertionInner_spec i p A x [] C Hinv Hstrs Hi)
      as (p1 & A1 & HR & Hinv1 & Hs1 & Hso1 & Hp1 & Hm1).
    { by rewrite app_nil_r. }
    { constructor. }
    cbn [insertionOuter]. rewrite HR.
    destruct (IH (S i) p1 A1 C Hinv1 Hs1) as (p' & HR' & Hinv' & Hso' & Hp' & Hm'); try done.
    { rewrite Hp1, length_app. simpl. lia. }
    { lia. }
    exists p'. split_and!; try done; [|congruence].
    rewrite Hp', Hs1, Hp1, Hstrs, <- app_assoc. done.
Qed.

Lemma length_strs p : length (strs p) = Len p.
Proof. unfold strs, entries, Len. by rewrite !length_map. Qed.

Lemma sortPool_spec p :
  poolInv p ->
  exists p',
    sortPool p = Ret p'
    /\ poolInv p'
    /\ StronglySorted strLe (strs p')
    /\ strs p' ≡ₚ strs p
    /\ m p' = m p.
Proof.
  intros Hinv. unfold sortPool. rewrite <- length_strs.
  destruct (strs p) as [|x C] eqn:E.
  - exists p. simpl. rewrite E. split_and!; try done. constructor.
  - replace (length (x :: C) - 1)%nat with (length C) by (simpl; lia). rewrite <- E.
    apply (insertionOuter_spec _ 1 p [x] C); try done.
    repeat constructor.
Qed.

(** ** The sorted pool *)

Lemma applySwaps_ret sw : forall p q,
  poolInv p -> applySwaps sw p = Ret q ->
  poolInv q /\ strs q ≡ₚ strs p /\ m q = m p.
Proof.
  induction sw as [|[i j] rest IH]; intros p q Hinv H; simpl in H.
  - by injection H as <-.
  - destruct (Swap p i j) as [p1| |] eqn:E; try done.
    destruct (Swap_ret _ _ _ _ Hinv E) as (Hinv1 & Hp1 & Hm1).
    destruct (IH _ _ Hinv1 H) as (Hq & Hpq & Hmq).
    split_and!; [done|by rewrite Hpq|congruence].
Qed.

Lemma get_ret_lookup x p a p' : get x p = Ret (a, p') -> m p' !! x = Some a.
Proof.
  intros H. destruct (m p !! x) as [a0|] eqn:E.
  - rewrite (get_hit _ _ _ E) in H. by injection H as <- <-.
  - destruct (Z_lt_le_dec (len x) 65536) as [Hl|Hl].
    + rewrite (get_miss_short _ _ E Hl) in H. injection H as <- <-.
      simpl. by rewrite lookup_insert_eq.
    + by rewrite (get_miss_long _ _ E Hl) in H.
Qed.

Lemma entries_lookup_ind p (i : nat) e :
  poolInv p -> entries p !! i = Some e -> ind e = u32 (Z.of_nat i).
Proof.
  intros Hinv. unfold entries. change (map ?f ?l) with (f <$> l).
  rewrite list_lookup_fmap. destruct (s p !! i) as [a|] eqn:E; [|done].
  intros [= <-]. by apply (inv_ind _ Hinv).
Qed.

Lemma strs_strict p :
  poolInv p -> StronglySorted strLe (strs p) ->
  forall (i j : nat) x y,
    (i < j)%nat -> entries p !! i = Some x -> entries p !! j = Some y ->
    strLess (str x) (str y) = true.
Proof.
  intros Hinv Hs i j x y Hlt Hi Hj.
  assert (Hi' : strs p !! i = Some (str x)).
  { unfold strs. change (map ?f ?l) with (f <$> l). by rewrite list_lookup_fmap, Hi. }
  assert (Hj' : strs p !! j = Some (str y)).
  { unfold strs. change (map ?f ?l) with (f <$> l). by rewrite list_lookup_fmap, Hj. }
  apply strLess_of_le_ne.
  - by apply (sorted_lookup _ _ Hs i j).
  - intros Heq. rewrite <- Heq in Hj'.
    pose proof (NoDup_lookup _ _ _ _ (poolInv_strs_nodup _ Hinv) Hi' Hj'). lia.
Qed.

(** ** The pool of the encoder *)

Lemma internsOnly_ret {A} (a : A) : internsOnly (ret a).
Proof. intros p a' p' Hp [= <- <-]. done. Qed.

Lemma internsOnly_fail {A} e : internsOnly (@fail A e).
Proof. intros p a p' Hp H. done. Qed.

Lemma internsOnly_get x : internsOnly (get x).
Proof. intros p a p' Hp H. by eapply reach_get. Qed.

Lemma internsOnly_lift {A} (o : outcome A) : internsOnly (liftOutcome o).
Proof. intros p a p' Hp H. destruct o; try done. by injection H as <- <-. Qed.

Lemma internsOnly_bind {A B} (c : M A) (k : A -> M B) :
  internsOnly c -> (forall a, internsOnly (k a)) -> internsOnly (bind c k).
Proof.
  intros Hc Hk p b p' Hp H. unfold bind in H.
  destruct (c p) as [[a p1]| |] eqn:E; try done.
  eapply Hk; [|exact H]. by eapply Hc.
Qed.

Lemma internsOnly_getAttr a : internsOnly (getAttr a).
Proof.
  unfold getAttr.
  repeat first
    [ apply internsOnly_bind; [|intros ?]
    | apply internsOnly_get
    | apply internsOnly_ret
    | apply internsOnly_lift
    | match goal with |- internsOnly (if ?b then _ else _) => destruct b end ].
Qed.

Lemma internsOnly_attrLoop ln dep attrs : forall acc, internsOnly (attrLoop ln dep attrs acc).
Proof.
  induction attrs as [|a rest IH]; intros [[els ends] attr]; cbn [attrLoop].
  - apply internsOnly_ret.
  - destruct (String.eqb _ "xmlns").
    + repeat (apply internsOnly_bind; [apply internsOnly_get|intros ?]). apply IH.
    + intros p b p' Hp H.
      destruct (getAttr a p) as [[ba p1]| |] eqn:E; try done.
      eapply IH; [|exact H]. by eapply internsOnly_getAttr.
Qed.

Lemma internsOnly_handleToken ln tok e : internsOnly (handleToken ln tok e).
Proof.
  destruct tok; cbn [handleToken]; try apply internsOnly_ret.
  - apply internsOnly_bind; [apply internsOnly_attrLoop|intros [[els ends] battr]].
    repeat (apply internsOnly_bind; [apply internsOnly_get|intros ?]).
    apply internsOnly_ret.
  - repeat (apply internsOnly_bind; [apply internsOnly_get|intros ?]).
    destruct (namespaceEnds e !! _); apply internsOnly_ret.
  - destruct (String.eqb _ ""); [apply internsOnly_ret|].
    apply internsOnly_bind; [apply internsOnly_get|intros ?]. apply internsOnly_ret.
Qed.

Lemma internsOnly_tokenLoop steps final : forall pos e,
  internsOnly (tokenLoop steps final pos e).
Proof.
  induction steps as [|st rest IH]; intros pos e; cbn [tokenLoop].
  - destruct (snd final); first [apply internsOnly_ret|apply internsOnly_fail].
  - apply internsOnly_bind; [apply internsOnly_handleToken|intros e']. apply IH.
Qed.

(** The pool [binaryXML] sorts is one built by [get]. *)
Lemma encoder_pool_reachable steps final pos e e' pool :
  tokenLoop steps final pos e newPool = Ret (e', pool) -> reachable pool.
Proof. apply internsOnly_tokenLoop, reach_new. Qed.

(** ** Byte order and code point order *)

Lemma strLess_lexLess a : forall b, strLess a b = lexLess (bytesOf a) (bytesOf b).
Proof.
  induction a as [|c a IH]; intros [|d b]; try done.
  cbn. by rewrite IH.
Qed.

Lemma lor_mul_add a y k :
  0 <= k -> 0 <= y < 2 ^ k -> Z.lor (a * 2 ^ k) y = a * 2 ^ k + y.
Proof.
  intros Hk Hy.
  assert (Hl : Z.land (a * 2 ^ k) y = 0).
  { apply Z.bits_inj'. intros n Hn. rewrite Z.land_spec, Z.bits_0.
    destruct (Z.lt_ge_cases n k) as [Hlt|Hge].
    - by rewrite Z.mul_pow2_bits_low.
    - destruct (Z.eq_dec y 0) as [->|Hy0]; [by rewrite Z.bits_0, andb_false_r|].
      rewrite (Z.bits_above_log2 y n), andb_false_r; [done|lia|].
      apply Z.lt_le_trans with k; [|done]. apply Z.log2_lt_pow2; lia. }
  rewrite <- Z.lxor_lor by done. symmetry. by apply Z.add_nocarry_lxor.
Qed.

Lemma land_low b k : 0 <= k -> Z.land b (2 ^ k - 1) = b mod 2 ^ k.
Proof.
  intros Hk. replace (2 ^ k - 1) with (Z.ones k) by (rewrite Z.ones_equiv; lia).
  by apply Z.land_ones.
Qed.

Lemma land_cont b : 0x80 <= b <= 0xBF -> Z.land b 0x3F = b - 0x80.
Proof.
  intros H. change 0x3F with (2 ^ 6 - 1). rewrite land_low by lia.
  symmetry. apply (Z.mod_unique_pos _ _ 2). - lia. - lia.
Qed.

Lemma land_lead2 b : 0xC0 <= b <= 0xDF -> Z.land b 0x1F = b - 0xC0.
Proof.
  intros H. change 0x1F with (2 ^ 5 - 1). rewrite land_low by lia.
  symmetry. apply (Z.mod_unique_pos _ _ 6). - lia. - lia.
Qed.

Lemma land_lead3 b : 0xE0 <= b <= 0xEF -> Z.land b 0x0F = b - 0xE0.
Proof.
  intros H. change 0x0F with (2 ^ 4 - 1). rewrite land_low by lia.
  symmetry. apply (Z.mod_unique_pos _ _ 14). - lia. - lia.
Qed.

Lemma land_lead4 b : 0xF0 <= b <= 0xF7 -> Z.land b 0x07 = b - 0xF0.
Proof.
  intros H. change 0x07 with (2 ^ 3 - 1). rewrite land_low by lia.
  symmetry. apply (Z.mod_unique_pos _ _ 30). - lia. - lia.
Qed.

Lemma rune2_eq b0 b1 :
  0xC0 <= b0 <= 0xDF -> 0x80 <= b1 <= 0xBF ->
  Z.lor (Z.shiftl (Z.land b0 0x1F) 6) (Z.land b1 0x3F)
  = (b0 - 0xC0) * 64 + (b1 - 0x80).
Proof.
  intros H0 H1. rewrite land_lead2, land_cont by done.
  rewrite Z.shiftl_mul_pow2 by lia. rewrite lor_mul_add by lia. lia.
Qed.

Lemma rune3_eq b0 b1 b2 :
  0xE0 <= b0 <= 0xEF -> 0x80 <= b1 <= 0xBF -> 0x80 <= b2 <= 0xBF ->
  Z.lor (Z.lor (Z.shiftl (Z.land b0 0x0F) 12) (Z.shiftl (Z.land b1 0x3F) 6))
        (Z.land b2 0x3F)
  = (b0 - 0xE0) * 4096 + (b1 - 0x80) * 64 + (b2 - 0x80).
Proof.
  intros H0 H1 H2. rewrite land_lead3, !land_cont by done.
  rewrite !Z.shiftl_mul_pow2 by lia.
  rewrite (lor_mul_add (b0 - 224) _ 12) by lia.
  replace ((b0 - 224) * 2 ^ 12 + (b1 - 128) * 2 ^ 6)
    with (((b0 - 224) * 64 + (b1 - 128)) * 2 ^ 6) by lia.
  rewrite lor_mul_add by lia. lia.
Qed.

Lemma rune4_eq b0 b1 b2 b3 :
  0xF0 <= b0 <= 0xF7 -> 0x80 <= b1 <= 0xBF -> 0x80 <= b2 <= 0xBF ->
  0x80 <= b3 <= 0xBF ->
  Z.lor (Z.lor (Z.lor (Z.shiftl (Z.land b0 0x07) 18)
                      (Z.shiftl (Z.land b1 0x3F) 12))
               (Z.shiftl (Z.land b2 0x3F) 6))
        (Z.land b3 0x3F)
  = (b0 - 0xF0) * 262144 + (b1 - 0x80) * 4096 + (b2 - 0x80) * 64 + (b3 - 0x80).
Proof.
  intros H0 H1 H2 H3. rewrite land_lead4, !land_cont by done.
  rewrite !Z.shiftl_mul_pow2 by lia.
  rewrite (lor_mul_add (b0 - 240) _ 18) by lia.
  replace ((b0 - 240) * 2 ^ 18 + (b1 - 128) * 2 ^ 12)
    with (((b0 - 240) * 64 + (b1 - 128)) * 2 ^ 12) by lia.
  rewrite (lor_mul_add _ _ 12) by lia.
  replace (((b0 - 240) * 64 + (b1 - 128)) * 2 ^ 12 + (b2 - 128) * 2 ^ 6)
    with ((((b0 - 240) * 64 + (b1 - 128)) * 64 + (b2 - 128)) * 2 ^ 6) by lia.
  rewrite lor_mul_add by lia. lia.
Qed.

Lemma between_spec lo hi b : between lo hi b = true <-> lo <= b <= hi.
Proof. unfold between. rewrite andb_true_iff, !Z.leb_le. done. Qed.

Lemma first_spec b0 sz lo hi :
  first b0 = Some (sz, (lo, hi)) ->
  0x80 <= lo /\ hi <= 0xBF
  /\ ((sz = 2%nat /\ 0xC2 <= b0 <= 0xDF)
      \/ (sz = 3%nat /\ 0xE0 <= b0 <= 0xEF /\ (b0 = 0xE0 -> lo = 0xA0))
      \/ (sz = 4%nat /\ 0xF0 <= b0 <= 0xF4 /\ (b0 = 0xF0 -> lo = 0x90))).
Proof.
  unfold first.
  repeat match goal with
         | |- context [?a <? ?b] => destruct (Z.ltb_spec a b)
         | |- context [?a <=? ?b] => destruct (Z.leb_spec a b)
         | |- context [?a =? ?b] => destruct (Z.eqb_spec a b)
         end; intros [= <- <- <-]; lia.
Qed.

Lemma Valid_cons rn bs rest :
  decodeRunes bs = rn :: decodeRunes rest ->
  Valid bs = true ->
  rn <> (RuneError, 1%nat) /\ Valid rest = true.
Proof.
  unfold Valid. intros ->. cbn [forallb]. rewrite andb_true_iff, negb_true_iff.
  intros [Hh Ht]. split; [|done]. intros ->. by vm_compute in Hh.
Qed.

(** A well-formed text that is not empty starts with a rune of one of the
    four shapes. *)
Lemma decode_head b0 t :
  Valid (b0 :: t) = true ->
  exists r rest,
    leadingRune (b0 :: t) r rest
    /\ map fst (decodeRunes (b0 :: t)) = r :: map fst (decodeRunes rest)
    /\ Valid rest = true
    /\ (length rest < length (b0 :: t))%nat.
Proof.
  intros HV.
  assert (Hbad : forall rest, decodeRunes (b0 :: t) = (RuneError, 1%nat) :: decodeRunes rest -> False).
  { intros rest E. by destruct (Valid_cons _ _ _ E HV) as [Hne _]. }
  assert (Hok : forall rn rest, decodeRunes (b0 :: t) = rn :: decodeRunes rest ->
                  Valid rest = true).
  { intros rn rest E. by destruct (Valid_cons _ _ _ E HV) as [_ Hr]. }
  revert Hbad Hok. cbn [decodeRunes].
  destruct (Z.ltb_spec b0 0x80) as [Hlt|Hge]; intros Hbad Hok.
  { exists b0, t. split_and!; [by constructor|done|by eapply Hok|simpl; lia]. }
  destruct (first b0) as [[sz [lo hi]]|] eqn:Ef; [|by destruct (Hbad t)].
  apply first_spec in Ef as (Hlo & Hhi & Hsz).
  destruct t as [|b1 t1]; [by destruct (Hbad [])|].
  destruct (between lo hi b1) eqn:Eb1; cbn [negb] in *; [|by destruct (Hbad (b1 :: t1))].
  apply between_spec in Eb1.
  destruct (sz <=? 2)%nat eqn:E2.
  { apply Nat.leb_le in E2.
    destruct Hsz as [[-> H0]|[[-> _]|[-> _]]]; [|lia|lia].
    eexists _, t1. split_and!; [|by rewrite rune2_eq by lia|by eapply Hok|simpl; lia].
    constructor; lia. }
  apply Nat.leb_gt in E2.
  destruct t1 as [|b2 t2]; [by destruct (Hbad [b1])|].
  destruct (between 0x80 0xBF b2) eqn:Eb2; cbn [negb] in *; [|by destruct (Hbad (b1 :: b2 :: t2))].
  apply between_spec in Eb2.
  destruct (sz <=? 3)%nat eqn:E3.
  { apply Nat.leb_le in E3.
    destruct Hsz as [[-> _]|[[-> [H0 HE0]]|[-> _]]]; [lia| |lia].
    eexists _, t2. split_and!; [|by rewrite rune3_eq by lia|by eapply Hok|simpl; lia].
    constructor; lia. }
  apply Nat.leb_gt in E3.
  destruct t2 as [|b3 t3]; [by destruct (Hbad [b1; b2])|].
  destruct (between 0x80 0xBF b3) eqn:Eb3; cbn [negb] in *; [|by destruct (Hbad (b1 :: b2 :: b3 :: t3))].
  apply between_spec in Eb3.
  destruct Hsz as [[-> _]|[[-> _]|[-> [H0 HF0]]]]; [lia|lia|].
  eexists _, t3. split_and!; [|by rewrite rune4_eq by lia|by eapply Hok|simpl; lia].
  constructor; lia.
Qed.

Lemma lexLess_cons_lt c d x y : c < d -> lexLess (c :: x) (d :: y) = true.
Proof. intros H. simpl. by destruct (Z.ltb_spec c d); [|lia]. Qed.

Lemma lexLess_cons_gt c d x y : d < c -> lexLess (c :: x) (d :: y) = false.
Proof.
  intros H. simpl. destruct (Z.ltb_spec c d); [lia|].
  by destruct (Z.eqb_spec c d); [lia|].
Qed.

Lemma lexLess_cons_eq c x y : lexLess (c :: x) (c :: y) = lexLess x y.
Proof. simpl. by rewrite Z.ltb_irrefl, Z.eqb_refl. Qed.

Ltac lex_step :=
  match goal with
  | |- lexLess (?b :: _) (?c :: _) = lexLess (_ :: _) (_ :: _) =>
    let Hlt := fresh "Hlt" in
    let Heq := fresh "Heq" in
    let Hgt := fresh "Hgt" in
    destruct (Z.lt_trichotomy b c) as [Hlt|[Heq|Hgt]];
    [ rewrite (lexLess_cons_lt b c) by lia; symmetry; apply lexLess_cons_lt; lia
    | first [ exfalso; lia | subst; rewrite (lexLess_cons_eq _ _ _) at 1 ]
    | rewrite (lexLess_cons_gt b c) by lia; symmetry; apply lexLess_cons_gt; lia ]
  end.

(** On well-formed UTF-8 the byte order is the code point order. *)
Lemma lexLess_runes (n : nat) : forall x y,
  (length x + length y <= n)%nat ->
  Valid x = true -> Valid y = true ->
  lexLess x y = lexLess (map fst (decodeRunes x)) (map fst (decodeRunes y)).
Proof.
  induction n as [|n IH]; intros x y Hn Hx Hy.
  - destruct x, y; simpl in Hn; try lia. done.
  - destruct x as [|b0 t], y as [|c0 u]; [done| | |].
    + destruct (decode_head _ _ Hy) as (r & rest & _ & -> & _). done.
    + destruct (decode_head _ _ Hx) as (r & rest & _ & -> & _). done.
    + destruct (decode_head _ _ Hx) as (r & rest & Lx & -> & Hrx & Hlx).
      destruct (decode_head _ _ Hy) as (r' & rest' & Ly & -> & Hry & Hly).
      assert (Hrec : lexLess rest rest'
                     = lexLess (map fst (decodeRunes rest)) (map fst (decodeRunes rest'))).
      { apply IH; [simpl in *; lia|done|done]. }
      clear IH Hx Hy Hn Hlx Hly Hrx Hry.
      inversion Lx; subst; inversion Ly; subst; repeat lex_step;
        by rewrite lexLess_cons_eq.
Qed.

Lemma strLess_codepoints a b :
  Valid (bytesOf a) = true -> Valid (bytesOf b) = true ->
  strLess a b = lexLess (runesOf a) (runesOf b).
Proof.
  intros Ha Hb. rewrite strLess_lexLess. unfold runesOf.
  by apply (lexLess_runes _ _ _ (Nat.le_refl _)).
Qed.

(** ** The sorted pool is strictly increasing *)

(** C6: sorting a pool built by [get] returns a pool whose strings are in
    strictly increasing order: under Go's comparison of strings (byte by
    byte, unsigned) and, for well-formed UTF-8, under the lexicographic
    comparison of their code point sequences; the index stored in every
    entry is its position (as a uint32).
    The strings are those of the pool before, no two of them are equal, and
    interning a string a second time returns the entry it has.  The result
    does not depend on the sorting routine: whatever swaps leave the pool
    sorted give the same order and the same indices. *)
Theorem sortPool_sorted (p : binStringPool) :
  reachable p ->
  exists p',
    sortPool p = Ret p'
    /\ (forall (i j : nat) x y,
          (i < j)%nat -> entries p' !! i = Some x -> entries p' !! j = Some y ->
          strLess (str x) (str y) = true)
    /\ (forall (i j : nat) x y,
          (i < j)%nat -> entries p' !! i = Some x -> entries p' !! j = Some y ->
          Valid (bytesOf (str x)) = true -> Valid (bytesOf (str y)) = true ->
          lexLess (runesOf (str x)) (runesOf (str y)) = true)
    /\ (forall (i : nat) e,
          entries p' !! i = Some e ->
          ind e = u32 (Z.of_nat i)
          /\ (Z.of_nat (Len p') < 2 ^ 32 -> ind e = Z.of_nat i))
    /\ NoDup (strs p')
    /\ strs p' ≡ₚ strs p
    /\ (forall x a p1, get x p = Ret (a, p1) -> get x p1 = Ret (a, p1))
    /\ (forall sw q,
          applySwaps sw p = Ret q ->
          StronglySorted strLe (strs q) ->
          strs q = strs p'
          /\ forall (i : nat) e, entries q !! i = Some e -> ind e = u32 (Z.of_nat i)).
Proof.
  intros Hreach. pose proof (reachable_inv _ Hreach) as Hinv.
  destruct (sortPool_spec p Hinv) as (p' & HR & Hinv' & Hs' & Hp' & Hm').
  exists p'. split_and!; try done.
  - by apply strs_strict.
  - intros i j x y Hlt Hi Hj Hvx Hvy. rewrite <- strLess_codepoints by done.
    by apply (strs_strict p' Hinv' Hs' i j).
  - intros i e He. pose proof (entries_lookup_ind _ _ _ Hinv' He) as Hi.
    split; [done|]. intros Hlen. rewrite Hi. unfold u32. apply Z.mod_small.
    assert (i < Len p')%nat; [|change (2 ^ 32) with 4294967296 in Hlen; lia].
    apply lookup_lt_Some in He. unfold entries in He. by rewrite length_map in He.
  - by apply poolInv_strs_nodup.
  - intros x a p1 H. apply get_hit. by eapply get_ret_lookup.
  - intros sw q Hsw Hsq.
    destruct (applySwaps_ret _ _ _ Hinv Hsw) as (Hq & Hpq & _).
    split; [|intros i e; by apply entries_lookup_ind].
    apply (StronglySorted_unique_strong strLe); try done.
    + intros x1 x2 _ _ H1 H2. by apply strLess_total.
    + by rewrite Hpq, Hp'.
Qed.

Lemma reachable_interned x p : reachable p -> reachable (interned x p).
Proof.
  intros H. unfold interned.
  destruct (get x p) as [[a p']| |] eqn:E; [by eapply reach_get|done|done].
Defined.

Lemma examplePool_reachable : reachable examplePool.
Proof. repeat apply reachable_interned. apply reach_new. Defined.

Lemma sortPool_sorted_witness :
  exists p',
    sortPool examplePool = Ret p'
    /\ (forall (i j : nat) x y,
          (i < j)%nat -> entries p' !! i = Some x -> entries p' !! j = Some y ->
          strLess (str x) (str y) = true)
    /\ (forall (i j : nat) x y,
          (i < j)%nat -> entries p' !! i = Some x -> entries p' !! j = Some y ->
          Valid (bytesOf (str x)) = true -> Valid (bytesOf (str y)) = true ->
          lexLess (runesOf (str x)) (runesOf (str y)) = true)
    /\ (forall (i : nat) e,
          entries p' !! i = Some e ->
          ind e = u32 (Z.of_nat i)
          /\ (Z.of_nat (Len p') < 2 ^ 32 -> ind e = Z.of_nat i))
    /\ NoDup (strs p')
    /\ strs p' ≡ₚ strs examplePool
    /\ (forall x a p1, get x examplePool = Ret (a, p1) -> get x p1 = Ret (a, p1))
    /\ (forall sw q,
          applySwaps sw examplePool = Ret q ->
          StronglySorted strLe (strs q) ->
          strs q = strs p'
          /\ forall (i : nat) e, entries q !! i = Some e -> ind e = u32 (Z.of_nat i)).
Proof. exact (sortPool_sorted examplePool examplePool_reachable). Defined.

(** The example pool before and after sorting. *)
Example examplePool_sorted :
  strs examplePool = ["manifest"; "package"; "x"; "android"]%string
  /\ match sortPool examplePool with
     | Ret p' =>
       map (fun e => (ind e, str e)) (entries p')
       = [(0, "android"); (1, "manifest"); (2, "package"); (3, "x")]%string
     | _ => False
     end.
Proof. split; vm_compute; reflexivity. Qed.

(** * Further properties of the encoder *)

(** ** Little-endian integers *)

Lemma u8_isByte v : isByte (u8 v).
Proof. unfold isByte, u8. apply Z.mod_pos_bound. lia. Qed.

(** X1: [appendU16] and [appendU32] leave the bytes before untouched and add
    two and four bytes, each within 0..255, that read back little-endian as
    the value, for every value of the type. *)
Theorem append_little_endian (b : list Z) (v : Z) :
  (0 <= v < 2 ^ 16 ->
   exists f, appendU16 b v = b ++ f /\ length f = 2%nat
             /\ Forall isByte f /\ readU16 f = v)
  /\ (0 <= v < 2 ^ 32 ->
      exists f, appendU32 b v = b ++ f /\ length f = 4%nat
                /\ Forall isByte f /\ readU32 f = v).
Proof.
  split; intros Hv.
  - eexists. split; [reflexivity|]. split; [done|].
    split; [repeat constructor; apply u8_isByte|].
    unfold readU16, u8. rewrite Z.shiftr_div_pow2 by lia.
    change (2 ^ 8) with 256. change (2 ^ 16) with 65536 in Hv.
    Z.div_mod_to_equations. lia.
  - eexists. split; [reflexivity|]. split; [done|].
    split; [repeat constructor; apply u8_isByte|].
    unfold readU32, u8. rewrite !Z.shiftr_div_pow2 by lia.
    change (2 ^ 8) with 256. change (2 ^ 16) with 65536.
    change (2 ^ 24) with 16777216. change (2 ^ 32) with 4294967296 in Hv.
    Z.div_mod_to_equations. lia.
Qed.

Lemma append_little_endian_witness :
  (exists f, appendU16 [7] 0x0102 = [7] ++ f /\ length f = 2%nat
             /\ Forall isByte f /\ readU16 f = 0x0102)
  /\ (exists f, appendU32 [7] 0x0101021b = [7] ++ f /\ length f = 4%nat
                /\ Forall isByte f /\ readU32 f = 0x0101021b).
Proof.
  split.
  - apply (proj1 (append_little_endian [7] 0x0102)). lia.
  - apply (proj2 (append_little_endian [7] 0x0101021b)). lia.
Defined.

(** ** The stored encoding of a string *)

Lemma fold_appendU16 us : forall b,
  fold_left appendU16 us b
  = b ++ concat (map (fun u => [u8 u; u8 (Z.shiftr u 8)]) us).
Proof.
  induction us as [|u us IH]; intros b; simpl.
  - by rewrite app_nil_r.
  - rewrite IH. unfold appendU16. by rewrite <- app_assoc.
Qed.

Lemma readU16s_word u rest :
  isU16 u -> readU16s ([u8 u; u8 (Z.shiftr u 8)] ++ rest) = u :: readU16s rest.
Proof.
  intros Hu. cbn [app readU16s]. f_equal. unfold u8, isU16 in *.
  rewrite Z.shiftr_div_pow2 by lia. change (2 ^ 8) with 256.
  Z.div_mod_to_equations. lia.
Qed.

Lemma encodeRune16_isU16 v : Forall isU16 (encodeRune16 v).
Proof.
  unfold encodeRune16, isU16.
  destruct (_ || _)%bool; [repeat constructor; apply u16_range|].
  destruct (between _ _ v); [|repeat constructor; unfold RuneError; lia].
  change 0x3ff with (2 ^ 10 - 1). rewrite !land_low by lia.
  change (2 ^ 10) with 1024.
  repeat constructor; Z.div_mod_to_equations; lia.
Qed.

Lemma codeUnits_isU16 x : Forall isU16 (codeUnits x).
Proof.
  unfold codeUnits, utf16Encode. apply Forall_concat, Forall_forall.
  intros l Hl. apply list_elem_of_fmap in Hl as (v & -> & _).
  apply encodeRune16_isU16.
Qed.

Lemma encOf_eq x :
  encOf x
  = [u8 (u16 (len x)); u8 (Z.shiftr (u16 (len x)) 8)]
    ++ concat (map (fun u => [u8 u; u8 (Z.shiftr u 8)]) (codeUnits x))
    ++ [0; 0].
Proof.
  unfold encOf. rewrite fold_appendU16. unfold appendU16.
  rewrite <- !app_assoc. reflexivity.
Qed.

Lemma length_words (us : list Z) :
  length (concat (map (fun u => [u8 u; u8 (Z.shiftr u 8)]) us)) = (2 * length us)%nat.
Proof. induction us as [|u us IH]; simpl in *; lia. Qed.

Lemma length_encOf x : length (encOf x) = (2 * length (codeUnits x) + 4)%nat.
Proof. rewrite encOf_eq, !length_app, length_words. simpl. lia. Qed.

Lemma readU16s_encOf x : readU16s (encOf x) = u16 (len x) :: codeUnits x ++ [0].
Proof.
  rewrite encOf_eq. rewrite readU16s_word by apply u16_range. f_equal.
  pose proof (codeUnits_isU16 x) as Hu.
  induction Hu as [|u us Hu _ IH]; [done|].
  cbn [map concat]. rewrite <- app_assoc. rewrite readU16s_word by done.
  by rewrite IH.
Qed.

(** X2: the encoding stored for a string is a sequence of bytes of even
    length [2 * units + 4]; read back as little-endian 16-bit words it is
    the 16-bit truncation of the byte length, then the UTF-16 code units of
    the string, none of them truncated, then a zero. *)
Theorem encOf_words (x : string) :
  readU16s (encOf x) = u16 (len x) :: codeUnits x ++ [0]
  /\ length (encOf x) = (2 * length (codeUnits x) + 4)%nat
  /\ Forall isByte (encOf x)
  /\ Forall isU16 (codeUnits x).
Proof.
  split_and!.
  - apply readU16s_encOf.
  - apply length_encOf.
  - rewrite encOf_eq. repeat apply Forall_app_2.
    + repeat constructor; apply u8_isByte.
    + apply Forall_concat, Forall_forall. intros l Hl.
      apply list_elem_of_fmap in Hl as (u & -> & _).
      repeat constructor; apply u8_isByte.
    + repeat constructor; unfold isByte; lia.
  - apply codeUnits_isU16.
Qed.

Lemma bytesOf_isByte x : Forall isByte (bytesOf x).
Proof.
  unfold bytesOf. apply Forall_forall. intros c Hc.
  apply list_elem_of_fmap in Hc as (a & -> & _).
  unfold isByte, byteOf. pose proof (N_ascii_bounded a). lia.
Qed.

Lemma codeUnits_ascii bs :
  Forall (fun c => 0 <= c < 128) bs ->
  utf16Encode (map fst (decodeRunes bs)) = bs.
Proof.
  induction 1 as [|c bs Hc _ IH]; [done|].
  cbn [decodeRunes]. destruct (Z.ltb_spec c 0x80); [|lia].
  cbn [map fst]. rewrite utf16Encode_cons, IH.
  unfold encodeRune16, between.
  destruct (Z.leb_spec 0 c); [|lia]. destruct (Z.leb_spec c 0xd7ff); [|lia].
  cbn [andb orb]. unfold u16. rewrite Z.mod_small by lia. done.
Qed.

(** X3: for a string of ASCII bytes the code units are the bytes, so the
    length field written by [get] is the number of UTF-16 code units when
    the string is shorter than 2^16 bytes. *)
Theorem encOf_ascii (x : string) :
  Forall (fun c => c < 128) (bytesOf x) ->
  len x < 65536 ->
  codeUnits x = bytesOf x
  /\ readU16s (encOf x) = Z.of_nat (length (codeUnits x)) :: codeUnits x ++ [0].
Proof.
  intros Hascii Hlen.
  assert (Hu : codeUnits x = bytesOf x).
  { unfold codeUnits, runesOf. apply codeUnits_ascii.
    pose proof (bytesOf_isByte x) as Hb. rewrite Forall_forall in *.
    intros c Hc. specialize (Hb c Hc). specialize (Hascii c Hc).
    unfold isByte in Hb. lia. }
  split; [done|].
  rewrite readU16s_encOf. f_equal.
  rewrite Hu, length_bytesOf. unfold u16. rewrite Z.mod_small; [done|].
  pose proof (len_nonneg x). unfold len in *. lia.
Qed.

Lemma encOf_ascii_witness :
  codeUnits "manifest" = bytesOf "manifest"
  /\ readU16s (encOf "manifest")
     = Z.of_nat (length (codeUnits "manifest")) :: codeUnits "manifest" ++ [0].
Proof.
  apply (encOf_ascii "manifest").
  - repeat constructor.
  - reflexivity.
Defined.

(** ** What the pool holds *)

Lemma poolWF_new : poolWF newPool.
Proof.
  split; [apply poolInv_new| |]; simpl.
  - intros k a H. by rewrite lookup_empty in H.
  - intros a H. by apply elem_of_nil in H.
Qed.

Lemma get_miss_entries x p b :
  b ∈ s p -> poolInv p ->
  deref (heap p ++ [{| ind := u32 (Z.of_nat (length (s p))); str := x; enc := encOf x |}]) b
  = deref (heap p) b.
Proof.
  intros Hb Hinv. unfold deref. rewrite lookup_app_l; [done|].
  by apply (inv_valid _ Hinv).
Qed.

Lemma get_miss_new x p :
  deref (heap p ++ [{| ind := u32 (Z.of_nat (length (s p))); str := x; enc := encOf x |}])
        (length (heap p))
  = {| ind := u32 (Z.of_nat (length (s p))); str := x; enc := encOf x |}.
Proof. unfold deref. rewrite lookup_app_r by lia. by rewrite Nat.sub_diag. Qed.

Lemma poolWF_get x p a p' : poolWF p -> get x p = Ret (a, p') -> poolWF p'.
Proof.
  intros [Hinv Hmap Henc] Hget.
  assert (Hinv' : poolInv p') by (by eapply poolInv_get).
  destruct (m p !! x) as [a0|] eqn:E.
  { rewrite (get_hit _ _ _ E) in Hget. injection Hget as <- <-. by split. }
  destruct (Z_lt_le_dec (len x) 65536) as [Hl|Hl].
  2:{ by rewrite (get_miss_long _ _ E Hl) in Hget. }
  rewrite (get_miss_short _ _ E Hl) in Hget. injection Hget as <- <-.
  split; [done| |]; cbn [heap s m].
  - intros k b Hk. destruct (decide (k = x)) as [->|Hne].
    + rewrite lookup_insert_eq in Hk. injection Hk as <-.
      split; [apply elem_of_app; right; by apply list_elem_of_singleton|].
      by rewrite get_miss_new.
    + rewrite lookup_insert_ne in Hk by done.
      destruct (Hmap _ _ Hk) as [Hb Hs]. split; [apply elem_of_app; by left|].
      by rewrite get_miss_entries.
  - intros b Hb. apply elem_of_app in Hb as [Hb|Hb].
    + rewrite get_miss_entries by done. by apply Henc.
    + apply list_elem_of_singleton in Hb. subst b. by rewrite get_miss_new.
Qed.

Lemma reachable_wf p : reachable p -> poolWF p.
Proof. induction 1; [apply poolWF_new|by eapply poolWF_get]. Qed.

Lemma sameEntries_refl p : sameEntries p p.
Proof. by split. Qed.

Lemma sameEntries_trans p1 p2 p3 :
  sameEntries p1 p2 -> sameEntries p2 p3 -> sameEntries p1 p3.
Proof.
  intros [H1 H2 H3 H4] [G1 G2 G3 G4]. split.
  - by rewrite G1.
  - intros a. by rewrite G2.
  - intros a. by rewrite G3.
  - congruence.
Qed.

Lemma Swap_enc p (i j : nat) p' a :
  Swap p i j = Ret p' -> enc (deref (heap p') a) = enc (deref (heap p) a).
Proof.
  unfold Swap. repeat case_match; try done.
  intros [= <-]. cbn [heap]. by rewrite !enc_deref_setInd.
Qed.

Lemma Swap_sameEntries p (i j : nat) p' :
  poolInv p -> Swap p i j = Ret p' -> sameEntries p p'.
Proof.
  intros Hinv H.
  destruct (s p !! i) as [ai|] eqn:Hi; [|by unfold Swap in H; rewrite Hi in H].
  destruct (s p !! j) as [aj|] eqn:Hj; [|by unfold Swap in H; rewrite Hi, Hj in H].
  destruct (decide (i = j)) as [->|Hne].
  - rewrite (Swap_same p j ai Hinv Hi) in H. injection H as <-. apply sameEntries_refl.
  - destruct (Swap_spec p i j ai aj Hinv Hi Hj Hne)
      as (p1 & HR & _ & _ & Hm1 & Hperm & Hstr).
    rewrite HR in H. injection H as <-. split; try done.
    intros a. by eapply Swap_enc.
Qed.

Lemma poolWF_same p p' : poolWF p -> poolInv p' -> sameEntries p p' -> poolWF p'.
Proof.
  intros [Hinv Hmap Henc] Hinv' [Hs Hstr Hen Hm]. split; [done| |].
  - intros k a Hk. rewrite Hm in Hk. destruct (Hmap _ _ Hk) as [Ha Hk'].
    split; [by rewrite Hs|by rewrite Hstr].
  - intros a Ha. rewrite Hs in Ha. rewrite Hen, Hstr. by apply Henc.
Qed.

Lemma insertionInner_same : forall (j : nat) p p',
  poolInv p -> insertionInner j p = Ret p' -> poolInv p' /\ sameEntries p p'.
Proof.
  induction j as [|j IH]; intros p p' Hinv H; cbn [insertionInner] in H.
  - injection H as <-. split; [done|apply sameEntries_refl].
  - destruct (Less p (S j) j) as [[|]| |]; try done.
    + destruct (Swap p (S j) j) as [p1| |] eqn:E; try done.
      destruct (Swap_ret _ _ _ _ Hinv E) as (Hinv1 & _).
      destruct (IH _ _ Hinv1 H) as [Hinv' Hsame]. split; [done|].
      eapply sameEntries_trans; [|exact Hsame]. by eapply Swap_sameEntries.
    + injection H as <-. split; [done|apply sameEntries_refl].
Qed.

Lemma insertionOuter_same : forall (k i : nat) p p',
  poolInv p -> insertionOuter k i p = Ret p' -> poolInv p' /\ sameEntries p p'.
Proof.
  induction k as [|k IH]; intros i p p' Hinv H; cbn [insertionOuter] in H.
  - injection H as <-. split; [done|apply sameEntries_refl].
  - destruct (insertionInner i p) as [p1| |] eqn:E; try done.
    destruct (insertionInner_same _ _ _ Hinv E) as [Hinv1 Hs1].
    destruct (IH _ _ _ Hinv1 H) as [Hinv' Hs']. split; [done|].
    by eapply sameEntries_trans.
Qed.

Lemma sortPool_same p p' :
  poolInv p -> sortPool p = Ret p' -> poolInv p' /\ sameEntries p p'.
Proof. apply insertionOuter_same. Qed.

(** X4: on a pool built by [get], the pointer [get x] returns designates an
    entry of the slice whose string is [x], whose encoding is that of [x]
    and whose index is its position; asking again returns the same pointer
    and changes nothing. *)
Theorem get_returns_entry (p : binStringPool) (x : string) (a : nat)
    (p' : binStringPool) :
  reachable p ->
  get x p = Ret (a, p') ->
  str (deref (heap p') a) = x
  /\ enc (deref (heap p') a) = encOf x
  /\ (exists i : nat, s p' !! i = Some a
                      /\ ind (deref (heap p') a) = u32 (Z.of_nat i))
  /\ get x p' = Ret (a, p').
Proof.
  intros Hr Hget.
  pose proof (reachable_wf _ (reach_get _ _ _ _ Hr Hget)) as [Hinv Hmap Henc].
  pose proof (get_ret_lookup _ _ _ _ Hget) as Hm.
  destruct (Hmap _ _ Hm) as [Ha Hs].
  split_and!; [done|by rewrite Henc, Hs| |by apply get_hit].
  apply list_elem_of_lookup in Ha as [i Hi]. exists i.
  split; [done|]. by apply (inv_ind _ Hinv).
Qed.

Lemma get_returns_entry_witness :
  str (deref (heap examplePool) 2%nat) = "x"%string
  /\ enc (deref (heap examplePool) 2%nat) = encOf "x"
  /\ (exists i : nat, s examplePool !! i = Some 2%nat
                      /\ ind (deref (heap examplePool) 2%nat) = u32 (Z.of_nat i))
  /\ get "x" examplePool = Ret (2%nat, examplePool).
Proof.
  apply (get_returns_entry examplePool "x" 2%nat examplePool).
  - apply examplePool_reachable.
  - vm_compute. reflexivity.
Defined.



(** X6: sorting keeps every pointer handed out before valid: after the
    sort, a string interned before is still found under the same pointer,
    and the index read through that pointer is the position of the string
    in the sorted slice. *)
Theorem sort_keeps_references (p : binStringPool) :
  reachable p ->
  exists p',
    sortPool p = Ret p'
    /\ forall x a,
         m p !! x = Some a ->
         get x p' = Ret (a, p')
         /\ exists i : nat,
              strs p' !! i = Some x
              /\ s p' !! i = Some a
              /\ ind (deref (heap p') a) = u32 (Z.of_nat i).
Proof.
  intros Hr. pose proof (reachable_wf _ Hr) as [Hinv Hmap Henc].
  destruct (sortPool_spec p Hinv) as (p' & HR & Hinv' & _ & _ & Hm').
  destruct (sortPool_same _ _ Hinv HR) as [_ [Hs Hstr _ _]].
  exists p'. split; [done|]. intros x a Hx.
  split; [apply get_hit; by rewrite Hm'|].
  destruct (Hmap _ _ Hx) as [Ha Hsx]. rewrite <- Hs in Ha.
  apply list_elem_of_lookup in Ha as [i Hi]. exists i. split_and!.
  - apply strs_lookup. exists a. split; [done|]. by rewrite Hstr.
  - done.
  - by apply (inv_ind _ Hinv').
Qed.

Lemma sort_keeps_references_witness :
  exists p',
    sortPool examplePool = Ret p'
    /\ forall x a,
         m examplePool !! x = Some a ->
         get x p' = Ret (a, p')
         /\ exists i : nat,
              strs p' !! i = Some x
              /\ s p' !! i = Some a
              /\ ind (deref (heap p') a) = u32 (Z.of_nat i).
Proof. exact (sort_keeps_references examplePool examplePool_reachable). Defined.

(** ** The sort interface *)

Lemma strLess_trans a b c :
  strLess a b = true -> strLess b c = true -> strLess a c = true.
Proof.
  intros Hab Hbc. destruct (strLess a c) eqn:E; [done|].
  assert (Hca : strLess c a = false).
  { apply (strLe_trans a b c); by apply strLe_of_less. }
  pose proof (strLess_total _ _ E Hca) as ->.
  by rewrite (strLess_asym _ _ Hab) in Hbc.
Qed.

Lemma Less_range p (i j : nat) :
  ((i < Len p)%nat /\ (j < Len p)%nat -> exists b, Less p i j = Ret b)
  /\ (~ ((i < Len p)%nat /\ (j < Len p)%nat) -> Less p i j = Panic PanicIndex).
Proof.
  unfold Less, Len. split.
  - intros [Hi Hj].
    destruct (lookup_lt_is_Some_2 _ _ Hi) as [ai ->].
    destruct (lookup_lt_is_Some_2 _ _ Hj) as [aj ->]. by eexists.
  - intros Hn. destruct (s p !! i) as [ai|] eqn:Ei; [|done].
    destruct (s p !! j) as [aj|] eqn:Ej; [|done].
    apply lookup_lt_Some in Ei, Ej. tauto.
Qed.

(** X7: [Less] panics exactly when an index is out of range.  On a pool
    built by [get] it is a strict total order on the positions: never true
    of a position and itself, true in exactly one direction for two
    different positions, and transitive. *)
Theorem Less_strict_total (p : binStringPool) :
  reachable p ->
  (forall i j : nat,
      ((i < Len p)%nat /\ (j < Len p)%nat -> exists b, Less p i j = Ret b)
      /\ (~ ((i < Len p)%nat /\ (j < Len p)%nat) -> Less p i j = Panic PanicIndex))
  /\ (forall i : nat, (i < Len p)%nat -> Less p i i = Ret false)
  /\ (forall i j : nat,
        (i < Len p)%nat -> (j < Len p)%nat -> i <> j ->
        (Less p i j = Ret true /\ Less p j i = Ret false)
        \/ (Less p i j = Ret false /\ Less p j i = Ret true))
  /\ (forall i j k : nat,
        Less p i j = Ret true -> Less p j k = Ret true -> Less p i k = Ret true).
Proof.
  intros Hr. pose proof (reachable_inv _ Hr) as Hinv.
  pose proof (poolInv_strs_nodup _ Hinv) as Hnd.
  assert (Hget : forall i : nat, (i < Len p)%nat -> exists x, strs p !! i = Some x).
  { intros i Hi. apply lookup_lt_is_Some_2. by rewrite length_strs. }
  split_and!.
  - intros i j. apply Less_range.
  - intros i Hi. destruct (Hget i Hi) as [x Hx].
    rewrite (Less_spec _ _ _ _ _ Hx Hx). by rewrite strLess_irrefl.
  - intros i j Hi Hj Hne.
    destruct (Hget i Hi) as [x Hx]. destruct (Hget j Hj) as [y Hy].
    rewrite (Less_spec _ _ _ _ _ Hx Hy), (Less_spec _ _ _ _ _ Hy Hx).
    assert (Hxy : x <> y).
    { intros ->. apply Hne. by eapply NoDup_lookup. }
    destruct (strLess x y) eqn:E.
    + left. by rewrite (strLess_asym _ _ E).
    + right. split; [done|]. f_equal. apply strLess_of_le_ne; [exact E|done].
  - intros i j k Hij Hjk.
    unfold Less in *.
    destruct (s p !! i) as [ai|]; [|done]. destruct (s p !! j) as [aj|]; [|done].
    destruct (s p !! k) as [ak|]; [|done].
    injection Hij as Hij. injection Hjk as Hjk. f_equal.
    by eapply strLess_trans.
Qed.

Lemma Less_strict_total_witness :
  (forall i j : nat,
      ((i < Len examplePool)%nat /\ (j < Len examplePool)%nat ->
       exists b, Less examplePool i j = Ret b)
      /\ (~ ((i < Len examplePool)%nat /\ (j < Len examplePool)%nat) ->
          Less examplePool i j = Panic PanicIndex))
  /\ (forall i : nat, (i < Len examplePool)%nat -> Less examplePool i i = Ret false)
  /\ (forall i j : nat,
        (i < Len examplePool)%nat -> (j < Len examplePool)%nat -> i <> j ->
        (Less examplePool i j = Ret true /\ Less examplePool j i = Ret false)
        \/ (Less examplePool i j = Ret false /\ Less examplePool j i = Ret true))
  /\ (forall i j k : nat,
        Less examplePool i j = Ret true -> Less examplePool j k = Ret true ->
        Less examplePool i k = Ret true).
Proof. exact (Less_strict_total examplePool examplePool_reachable). Defined.

Lemma insertionInner_sorted p (j : nat) :
  StronglySorted strLe (strs p) -> (j < Len p)%nat -> insertionInner j p = Ret p.
Proof.
  intros Hs Hj. destruct j as [|j]; [done|]. cbn [insertionInner].
  rewrite <- length_strs in Hj.
  destruct (lookup_lt_is_Some_2 (strs p) (S j) Hj) as [x Hx].
  destruct (lookup_lt_is_Some_2 (strs p) j ltac:(lia)) as [y Hy].
  rewrite (Less_spec _ _ _ _ _ Hx Hy).
  by rewrite (sorted_lookup _ _ Hs j (S j) y x Hy Hx ltac:(lia)).
Qed.

Lemma insertionOuter_sorted p : forall (k i : nat),
  StronglySorted strLe (strs p) -> (i + k <= Len p)%nat -> insertionOuter k i p = Ret p.
Proof.
  induction k as [|k IH]; intros i Hs Hk; [done|].
  cbn [insertionOuter]. rewrite insertionInner_sorted by (done || lia).
  apply IH; [done|lia].
Qed.

(** X8: sorting a pool a second time changes nothing: the pool [sortPool]
    returns is returned as it is by another [sortPool]. *)
Theorem sortPool_idempotent (p : binStringPool) :
  reachable p ->
  exists p', sortPool p = Ret p' /\ sortPool p' = Ret p'.
Proof.
  intros Hr. pose proof (reachable_inv _ Hr) as Hinv.
  destruct (sortPool_spec p Hinv) as (p' & HR & _ & Hs & _).
  exists p'. split; [done|]. unfold sortPool.
  destruct (Len p') as [|n] eqn:E; [done|].
  apply insertionOuter_sorted; [done|lia].
Qed.

Lemma sortPool_idempotent_witness :
  exists p', sortPool examplePool = Ret p' /\ sortPool p' = Ret p'.
Proof. exact (sortPool_idempotent examplePool examplePool_reachable). Defined.

(** X9: on a pool built by [get], [Swap i j] with both indices in range
    returns a pool in which the strings at [i] and [j] have changed places,
    every other position holds the string it held, and every entry's index
    is again its position; with an index out of range it panics. *)
Theorem Swap_exchanges (p : binStringPool) (i j : nat) :
  reachable p ->
  ((i < Len p)%nat -> (j < Len p)%nat ->
   exists p',
     Swap p i j = Ret p'
     /\ strs p' !! i = strs p !! j
     /\ strs p' !! j = strs p !! i
     /\ (forall k : nat, k <> i -> k <> j -> strs p' !! k = strs p !! k)
     /\ (forall (k : nat) e, entries p' !! k = Some e -> ind e = u32 (Z.of_nat k)))
  /\ (~ ((i < Len p)%nat /\ (j < Len p)%nat) -> Swap p i j = Panic PanicIndex).
Proof.
  intros Hr. pose proof (reachable_inv _ Hr) as Hinv. split.
  - intros Hi Hj. unfold Len in *.
    destruct (lookup_lt_is_Some_2 _ _ Hi) as [ai Hai].
    destruct (lookup_lt_is_Some_2 _ _ Hj) as [aj Haj].
    destruct (decide (i = j)) as [->|Hne].
    + exists p. rewrite (Swap_same _ _ _ Hinv Hai). split_and!; try done.
      intros k e. by apply entries_lookup_ind.
    + destruct (Swap_spec p i j ai aj Hinv Hai Haj Hne)
        as (p' & HR & Hinv' & Hstrs & _).
      exists p'. split; [done|].
      assert (Hxi : strs p !! i = Some (str (deref (heap p) ai))).
      { apply strs_lookup. by exists ai. }
      assert (Hxj : strs p !! j = Some (str (deref (heap p) aj))).
      { apply strs_lookup. by exists aj. }
      assert (Hlk := fun k => lookup_swap (strs p) i j k _ _ Hxi Hxj Hne).
      rewrite Hstrs. split_and!.
      * rewrite Hlk. rewrite decide_False by done. by rewrite decide_True.
      * rewrite Hlk. by rewrite decide_True.
      * intros k Hki Hkj. rewrite Hlk. by rewrite !decide_False.
      * intros k e. by apply entries_lookup_ind.
  - intros Hn. unfold Swap, Len in *.
    destruct (s p !! i) as [ai|] eqn:Ei; [|done].
    destruct (s p !! j) as [aj|] eqn:Ej; [|done].
    apply lookup_lt_Some in Ei, Ej. tauto.
Qed.

Lemma Swap_exchanges_witness :
  exists p',
    Swap examplePool 0 3 = Ret p'
    /\ strs p' !! 0%nat = strs examplePool !! 3%nat
    /\ strs p' !! 3%nat = strs examplePool !! 0%nat
    /\ (forall k : nat, k <> 0%nat -> k <> 3%nat -> strs p' !! k = strs examplePool !! k)
    /\ (forall (k : nat) e, entries p' !! k = Some e -> ind e = u32 (Z.of_nat k)).
Proof.
  apply (proj1 (Swap_exchanges examplePool 0 3 examplePool_reachable)).
  - vm_compute. lia.
  - vm_compute. lia.
Defined.

(** ** The layout of the serialized pool *)

Lemma u32_range v : 0 <= u32 v < 2 ^ 32.
Proof. unfold u32. apply Z.mod_pos_bound. lia. Qed.

Lemma readU32_le32 v : 0 <= v < 2 ^ 32 -> readU32 (le32 v) = v.
Proof.
  intros Hv. unfold readU32, le32, u8. rewrite !Z.shiftr_div_pow2 by lia.
  change (2 ^ 8) with 256. change (2 ^ 16) with 65536.
  change (2 ^ 24) with 16777216. change (2 ^ 32) with 4294967296 in Hv.
  Z.div_mod_to_equations. lia.
Qed.

Lemma fold_offsets_eq (es : list bstring) : forall b o,
  fst (fold_left (fun '(b, off) e =>
                    (appendU32 b (u32 off), off + Z.of_nat (length (enc e))))
                 es (b, o))
  = b ++ concat (map (fun o => le32 (u32 o)) (offsetsFrom o es)).
Proof.
  induction es as [|e es IH]; intros b o; simpl.
  - by rewrite app_nil_r.
  - rewrite IH. unfold appendU32, le32. by rewrite <- app_assoc.
Qed.

(** The chunk as a concatenation: header, offset table, encodings, pad. *)
Lemma binStringPool_append_layout p b :
  binStringPool_append p b
  = b ++ ([1; 0; 28; 0] ++ sizeField (binStringPool_size p)
          ++ le32 (u32 (Z.of_nat (Len p))) ++ le32 0 ++ le32 0
          ++ le32 (u32 (stringPoolPreamble + 4 * Z.of_nat (Len p))) ++ le32 0)
      ++ concat (map (fun o => le32 (u32 o)) (offsetsFrom 0 (entries p)))
      ++ concat (map enc (entries p))
      ++ [0; 0].
Proof.
  unfold binStringPool_append.
  match goal with |- context [fold_left ?f (entries p) (?b0, 0)] =>
    pose proof (fold_offsets_eq (entries p) b0 0) as Hf;
    destruct (fold_left f (entries p) (b0, 0)) as [b1 o1] end.
  simpl in Hf. subst b1. rewrite fold_encs_app.
  unfold appendU16, appendU32, le32, sizeField. rewrite <- !app_assoc. reflexivity.
Qed.

Lemma length_le32_table (os : list Z) :
  length (concat (map (fun o => le32 (u32 o)) os)) = (4 * length os)%nat.
Proof. induction os as [|o os IH]; simpl in *; lia. Qed.

Lemma length_offsetsFrom es : forall o, length (offsetsFrom o es) = length es.
Proof. induction es as [|e es IH]; intros o; simpl; [done|]. by rewrite IH. Qed.

Lemma drop_le32_table (os : list Z) : forall i : nat,
  drop (4 * i) (concat (map (fun o => le32 (u32 o)) os))
  = concat (map (fun o => le32 (u32 o)) (drop i os)).
Proof.
  induction os as [|o os IH]; intros i.
  - rewrite drop_nil. cbn [map concat]. by rewrite drop_nil.
  - destruct i as [|i]; [done|].
    replace (4 * S i)%nat with (S (S (S (S (4 * i))))) by lia.
    cbn [map concat le32 app drop]. apply IH.
Qed.

(** The [i]-th offset is the length of the encodings before the [i]-th. *)
Lemma offsetsFrom_lookup es : forall o (i : nat) e,
  es !! i = Some e ->
  offsetsFrom o es !! i
  = Some (o + Z.of_nat (length (concat (map enc (take i es))))).
Proof.
  induction es as [|e0 es IH]; intros o i e Hi; [done|].
  destruct i as [|i]; simpl.
  - f_equal. lia.
  - simpl in Hi. rewrite (IH _ _ _ Hi). f_equal. rewrite length_app. lia.
Qed.

Lemma drop_encs (es : list bstring) (i : nat) e :
  es !! i = Some e ->
  drop (length (concat (map enc (take i es)))) (concat (map enc es))
  = enc e ++ concat (map enc (drop (S i) es)).
Proof.
  intros Hi. rewrite <- (take_drop_middle _ _ _ Hi) at 2.
  rewrite map_app, concat_app. rewrite drop_app_length. done.
Qed.

(** X10: the serialized pool can be read back.  When its size is below 2^32
    the chunk is as long as [size] says, the count field holds the number
    of strings and the strings-start field 28 + 4 * count; the offset table
    entry of every string, added to strings-start, is where the chunk holds
    the encoding of that string; the first offset is 0 and the chunk ends
    with two zero bytes. *)
Theorem pool_chunk_layout (p : binStringPool) :
  binStringPool_size p < 2 ^ 32 ->
  (forall b, binStringPool_append p b = b ++ binStringPool_append p [])
  /\ Z.of_nat (length (binStringPool_append p [])) = binStringPool_size p
  /\ readU32 (take 4 (drop 8 (binStringPool_append p []))) = Z.of_nat (Len p)
  /\ readU32 (take 4 (drop 20 (binStringPool_append p [])))
     = 28 + 4 * Z.of_nat (Len p)
  /\ (forall (i : nat) e,
        entries p !! i = Some e ->
        (i = 0%nat ->
         readU32 (take 4 (drop (28 + 4 * i) (binStringPool_append p []))) = 0)
        /\ take (length (enc e))
                (drop (Z.to_nat
                         (readU32 (take 4 (drop 20 (binStringPool_append p [])))
                          + readU32 (take 4 (drop (28 + 4 * i)
                                                  (binStringPool_append p [])))))
                      (binStringPool_append p []))
           = enc e)
  /\ drop (length (binStringPool_append p []) - 2) (binStringPool_append p []) = [0; 0].
Proof.
  intros Hsize.
  pose proof (binStringPool_append_layout p []) as Hl. rewrite app_nil_l in Hl.
  set (hd := [1; 0; 28; 0] ++ sizeField (binStringPool_size p)
             ++ le32 (u32 (Z.of_nat (Len p))) ++ le32 0 ++ le32 0
             ++ le32 (u32 (stringPoolPreamble + 4 * Z.of_nat (Len p))) ++ le32 0) in Hl.
  set (tb := concat (map (fun o => le32 (u32 o)) (offsetsFrom 0 (entries p)))) in Hl.
  set (dt := concat (map enc (entries p))) in Hl.
  assert (Hhd : length hd = 28%nat) by done.
  assert (Htb : length tb = (4 * Len p)%nat).
  { unfold tb. rewrite length_le32_table, length_offsetsFrom. unfold entries, Len.
    by rewrite length_map. }
  assert (Hsz : binStringPool_size p = 28 + 4 * Z.of_nat (Len p) + Z.of_nat (length dt) + 2).
  { unfold binStringPool_size. rewrite fold_strLens. unfold stringPoolPreamble. fold dt. lia. }
  change (2 ^ 32) with 4294967296 in Hsize.
  assert (Hstart : readU32 (take 4 (drop 20 (binStringPool_append p [])))
                   = 28 + 4 * Z.of_nat (Len p)).
  { rewrite Hl. unfold hd, sizeField, le32. cbn [app drop take].
    change [?a; ?b; ?c; ?d] with (le32 (u32 (stringPoolPreamble + 4 * Z.of_nat (Len p)))).
    unfold stringPoolPreamble. cbn [Z.add].
    rewrite readU32_le32 by apply u32_range.
    unfold u32. apply Z.mod_small. lia. }
  split_and!.
  - intros b. by rewrite binStringPool_append_layout, Hl.
  - rewrite Hl, !length_app, Hhd, Htb, Hsz. simpl. lia.
  - rewrite Hl. unfold hd, sizeField, le32. cbn [app drop take].
    change [?a; ?b; ?c; ?d] with (le32 (u32 (Z.of_nat (Len p)))).
    rewrite readU32_le32 by apply u32_range.
    unfold u32. apply Z.mod_small. lia.
  - exact Hstart.
  - intros i e Hi.
    assert (HiN : (i < Len p)%nat).
    { apply lookup_lt_Some in Hi. unfold entries in Hi. by rewrite length_map in Hi. }
    pose proof (offsetsFrom_lookup (entries p) 0 i e Hi) as Ho.
    set (o := 0 + Z.of_nat (length (concat (map enc (take i (entries p)))))) in Ho.
    assert (Hod : 0 <= o /\ Z.to_nat o = length (concat (map enc (take i (entries p))))) by (unfold o; lia).
    assert (Hole : (Z.to_nat o + length (enc e) <= length dt)%nat).
    { destruct Hod as [_ ->]. unfold dt.
      rewrite <- (take_drop_middle _ _ _ Hi) at 2.
      rewrite map_app, concat_app, length_app. cbn [map concat].
      rewrite length_app. lia. }
    assert (Hread : readU32 (take 4 (drop (28 + 4 * i) (binStringPool_append p []))) = o).
    { rewrite Hl. rewrite drop_app_ge by lia. rewrite Hhd.
      replace (28 + 4 * i - 28)%nat with (4 * i)%nat by lia.
      rewrite drop_app_le by lia. unfold tb. rewrite drop_le32_table.
      rewrite (drop_S _ _ _ Ho). cbn [map concat]. rewrite <- !app_assoc.
      cbn [le32 app take]. rewrite take_0. change [?a; ?b; ?c; ?d] with (le32 (u32 o)).
      rewrite readU32_le32 by apply u32_range.
      unfold u32. apply Z.mod_small. lia. }
    split.
    + intros ->. rewrite Hread. unfold o. rewrite take_0. done.
    + rewrite Hstart, Hread, Hl.
      replace (Z.to_nat (28 + 4 * Z.of_nat (Len p) + o))
        with (length hd + (length tb + Z.to_nat o))%nat by lia.
      rewrite <- drop_drop, drop_app_length.
      rewrite <- drop_drop, drop_app_length.
      rewrite drop_app_le by lia.
      destruct Hod as [_ ->]. unfold dt. rewrite (drop_encs _ _ _ Hi).
      rewrite <- !app_assoc. by rewrite take_app_length.
  - rewrite Hl.
    replace (hd ++ tb ++ dt ++ [0; 0]) with ((hd ++ tb ++ dt) ++ [0; 0])
      by (by rewrite <- !app_assoc).
    rewrite length_app. cbn [length].
    replace (length (hd ++ tb ++ dt) + 2 - 2)%nat with (length (hd ++ tb ++ dt)) by lia.
    by rewrite drop_app_length.
Qed.

Lemma pool_chunk_layout_witness :
  (forall b, binStringPool_append examplePool b = b ++ binStringPool_append examplePool [])
  /\ Z.of_nat (length (binStringPool_append examplePool [])) = binStringPool_size examplePool
  /\ readU32 (take 4 (drop 8 (binStringPool_append examplePool []))) = Z.of_nat (Len examplePool)
  /\ readU32 (take 4 (drop 20 (binStringPool_append examplePool [])))
     = 28 + 4 * Z.of_nat (Len examplePool)
  /\ (forall (i : nat) e,
        entries examplePool !! i = Some e ->
        (i = 0%nat ->
         readU32 (take 4 (drop (28 + 4 * i) (binStringPool_append examplePool []))) = 0)
        /\ take (length (enc e))
                (drop (Z.to_nat
                         (readU32 (take 4 (drop 20 (binStringPool_append examplePool [])))
                          + readU32 (take 4 (drop (28 + 4 * i)
                                                  (binStringPool_append examplePool [])))))
                      (binStringPool_append examplePool []))
           = enc e)
  /\ drop (length (binStringPool_append examplePool []) - 2)
          (binStringPool_append examplePool []) = [0; 0].
Proof.
  apply (pool_chunk_layout examplePool). vm_compute. reflexivity.
Defined.

(** ** The size of the pool chunk *)

Lemma totalUnits_perm l1 l2 : l1 ≡ₚ l2 -> totalUnits l1 = totalUnits l2.
Proof. induction 1; simpl; lia. Qed.

Lemma totalUnits_nonneg l : 0 <= totalUnits l.
Proof. induction l; simpl; lia. Qed.

Lemma encs_length_wf p :
  poolWF p ->
  Z.of_nat (length (concat (map enc (entries p))))
  = 4 * Z.of_nat (Len p) + 2 * totalUnits (strs p).
Proof.
  intros [_ _ Henc]. unfold strs, entries, Len.
  assert (H : forall a, a ∈ s p -> enc (deref (heap p) a) = encOf (str (deref (heap p) a)))
    by exact Henc.
  clear Henc. revert H. generalize (s p) as l.
  induction l as [|a l IH]; intros H; [simpl; lia|].
  cbn [map concat totalUnits length]. rewrite length_app.
  rewrite (H a) by (by left). rewrite length_encOf.
  specialize (IH (fun b Hb => H b (list_elem_of_further _ _ _ Hb))).
  lia.
Qed.

Lemma size_wf p :
  poolWF p ->
  binStringPool_size p = 30 + 8 * Z.of_nat (Len p) + 2 * totalUnits (strs p).
Proof.
  intros Hwf. unfold binStringPool_size. rewrite fold_strLens, (encs_length_wf _ Hwf).
  unfold stringPoolPreamble. lia.
Qed.

(** X11: for a pool built by [get] and sorted, the size of the chunk is
    30 + 8 * count + 2 * (code units of all strings), the same before and
    after sorting.  It is always even, and a multiple of 4 exactly when the
    total number of code units is odd: the two zero bytes at the end do not
    align the chunk by themselves. *)
Theorem pool_size_formula (p : binStringPool) :
  reachable p ->
  exists p',
    sortPool p = Ret p'
    /\ binStringPool_size p'
       = 30 + 8 * Z.of_nat (Len p) + 2 * totalUnits (strs p)
    /\ binStringPool_size p' = binStringPool_size p
    /\ binStringPool_size p' mod 2 = 0
    /\ (binStringPool_size p' mod 4 = 0 <-> totalUnits (strs p) mod 2 = 1).
Proof.
  intros Hr. pose proof (reachable_wf _ Hr) as Hwf.
  pose proof (wf_inv _ Hwf) as Hinv.
  destruct (sortPool_spec p Hinv) as (p' & HR & Hinv' & _ & Hperm & _).
  destruct (sortPool_same _ _ Hinv HR) as [_ Hsame].
  pose proof (poolWF_same _ _ Hwf Hinv' Hsame) as Hwf'.
  assert (HL : Len p' = Len p).
  { rewrite <- !length_strs. by rewrite Hperm. }
  assert (Hsz : binStringPool_size p'
                = 30 + 8 * Z.of_nat (Len p) + 2 * totalUnits (strs p)).
  { rewrite (size_wf _ Hwf'), HL, (totalUnits_perm _ _ Hperm). done. }
  exists p'. split_and!; try done.
  - by rewrite Hsz, (size_wf _ Hwf).
  - rewrite Hsz. Z.div_mod_to_equations. lia.
  - rewrite Hsz. Z.div_mod_to_equations. lia.
Qed.

Lemma pool_size_formula_witness :
  exists p',
    sortPool examplePool = Ret p'
    /\ binStringPool_size p'
       = 30 + 8 * Z.of_nat (Len examplePool) + 2 * totalUnits (strs examplePool)
    /\ binStringPool_size p' = binStringPool_size examplePool
    /\ binStringPool_size p' mod 2 = 0
    /\ (binStringPool_size p' mod 4 = 0 <-> totalUnits (strs examplePool) mod 2 = 1).
Proof. exact (pool_size_formula examplePool examplePool_reachable). Defined.

(** ** Serializing attributes *)

Lemma appendU32_le32 b v : appendU32 b v = b ++ le32 v.
Proof. reflexivity. Qed.

Lemma get_mono x y p a b p' :
  m p !! x = Some a -> get y p = Ret (b, p') -> m p' !! x = Some a.
Proof.
  intros Hx. unfold get. destruct (m p !! y) eqn:Hy.
  - intros [= _ <-]. done.
  - case_match; [done|]. intros [= _ <-]. simpl.
    rewrite lookup_insert_ne; [done|]. intros ->. congruence.
Qed.

Lemma getAttr_ret attr p ba p' :
  getAttr attr p = Ret (ba, p') ->
  m p' !! Space (AttrName attr) = Some (attr_ns ba)
  /\ m p' !! Local (AttrName attr) = Some (attr_name ba)
  /\ (reachable p -> reachable p')
  /\ (if typed attr then
        match attr_data ba with DataString _ => False | _ => True end
      else
        match attr_data ba with
        | DataString d => m p' !! Value attr = Some d
        | _ => False
        end).
Proof.
  unfold getAttr, bind, typed.
  destruct (get _ p) as [[ns p1]| |] eqn:E1; [|done|done].
  destruct (get _ p1) as [[nm p2]| |] eqn:E2; [|done|done].
  pose proof (get_ret_lookup _ _ _ _ E1) as H1.
  pose proof (get_mono _ _ _ _ _ _ H1 E2) as H1'.
  pose proof (get_ret_lookup _ _ _ _ E2) as H2.
  destruct (String.eqb_spec (Space (AttrName attr)) androidNS) as [Hs|Hs];
    cbn [negb andb].
  2:{ destruct (get _ p2) as [[d p3]| |] eqn:E3; [|done|done].
      intros [= <- <-]. cbn [attr_ns attr_name attr_data]. split_and!.
      - by apply (get_mono _ _ _ _ _ _ H1' E3).
      - by apply (get_mono _ _ _ _ _ _ H2 E3).
      - intros Hr. by repeat (eapply reach_get; [|eassumption]).
      - by apply (get_ret_lookup _ _ _ _ E3). }
  unfold typedNames. cbn [existsb].
  destruct (String.eqb (Local (AttrName attr)) "versionCode"); cbn [orb].
  { unfold liftOutcome, ret. destruct (Atoi _); [|done|done].
    intros [= <- <-]. cbn [attr_ns attr_name attr_data]. split_and!; try done.
    intros Hr. by repeat (eapply reach_get; [|eassumption]). }
  destruct (String.eqb (Local (AttrName attr)) "minSdkVersion"); cbn [orb].
  { unfold liftOutcome, ret. destruct (Atoi _); [|done|done].
    intros [= <- <-]. cbn [attr_ns attr_name attr_data]. split_and!; try done.
    intros Hr. by repeat (eapply reach_get; [|eassumption]). }
  destruct (String.eqb (Local (AttrName attr)) "hasCode"); cbn [orb].
  { unfold liftOutcome, ret. destruct (ParseBool _); [|done|done].
    intros [= <- <-]. cbn [attr_ns attr_name attr_data]. split_and!; try done.
    intros Hr. by repeat (eapply reach_get; [|eassumption]). }
  destruct (String.eqb (Local (AttrName attr)) "debuggable"); cbn [orb].
  { unfold liftOutcome, ret. destruct (ParseBool _); [|done|done].
    intros [= <- <-]. cbn [attr_ns attr_name attr_data]. split_and!; try done.
    intros Hr. by repeat (eapply reach_get; [|eassumption]). }
  destruct (String.eqb (Local (AttrName attr)) "configChanges"); cbn [orb].
  { unfold ret. intros [= <- <-]. cbn [attr_ns attr_name attr_data].
    split_and!; try done.
    intros Hr. by repeat (eapply reach_get; [|eassumption]). }
  destruct (get _ p2) as [[d p3]| |] eqn:E3; [|done|done].
  unfold ret. intros [= <- <-]. cbn [attr_ns attr_name attr_data]. split_and!.
  - by apply (get_mono _ _ _ _ _ _ H1' E3).
  - by apply (get_mono _ _ _ _ _ _ H2 E3).
  - intros Hr. by repeat (eapply reach_get; [|eassumption]).
  - by apply (get_ret_lookup _ _ _ _ E3).
Qed.

(** X12: [binAttr.append] adds 21 bytes to the buffer for an int, bool or
    uint32 value (the two indices read through the pointers, ff ff ff ff,
    08 00, 00 00, a one-byte type tag 0x10 or 0x12 and the value, all little
    endian), one more than the 20 bytes per attribute that
    [binStartElement.size] counts; for a string value it panics. *)
Theorem binAttr_append_layout (h : list bstring) (ns nm : nat) (b : list Z) :
  let idx := le32 (ind (deref h ns)) ++ le32 (ind (deref h nm)) in
  let mk d := {| attr_ns := ns; attr_name := nm; attr_data := d |} in
  (forall v, binAttr_append h (mk (DataInt v)) b
             = Ret (b ++ idx ++ attrRaw ++ [16] ++ le32 (u32 v)))
  /\ (forall v, binAttr_append h (mk (DataUint32 v)) b
                = Ret (b ++ idx ++ attrRaw ++ [16] ++ le32 (u32 v)))
  /\ (forall v : bool, binAttr_append h (mk (DataBool v)) b
                = Ret (b ++ idx ++ attrRaw ++ [18] ++ le32 (if v then 1 else 0)))
  /\ (forall d, binAttr_append h (mk (DataString d)) b = Panic PanicAttrType)
  /\ (forall d, match binAttr_append h (mk d) b with
                | Ret out => length out = (length b + 21)%nat
                | Fail _ => False
                | Panic _ => exists r, d = DataString r
                end)
  /\ (forall ln a l,
         binStartElement_size {| se_line := ln; se_ns := ns; se_name := nm;
                                 se_attr := a :: l |}
         = binStartElement_size {| se_line := ln; se_ns := ns; se_name := nm;
                                   se_attr := l |} + 20).
Proof.
  intros idx mk. subst idx mk. unfold binAttr_append, appendU32, appendU16, attrRaw, le32.
  cbn [attr_ns attr_name attr_data].
  split_and!.
  - intros v. f_equal. rewrite <- !app_assoc. reflexivity.
  - intros v. f_equal. rewrite <- !app_assoc. reflexivity.
  - intros [|]; f_equal; rewrite <- !app_assoc; reflexivity.
  - done.
  - intros d. destruct d as [v|[|]|v|d]; cbn [attr_data];
      [rewrite ?length_app; simpl; lia..|by eexists].
  - intros ln a l. unfold binStartElement_size. cbn [se_attr length]. lia.
Qed.

(** X13: the attribute that [getAttr] returns can be written by
    [binAttr.append] exactly when it is one of the five typed attributes of
    the Android namespace; for every other attribute (any other namespace,
    any other name) [getAttr] stores a string reference, and
    [binAttr.append] panics on it whatever the buffer. *)
Theorem getAttr_append (attr : Attr) (p p' : binStringPool) (ba : binAttr) :
  getAttr attr p = Ret (ba, p') ->
  if typed attr then
    forall h b, exists out, binAttr_append h ba b = Ret out
  else
    (exists d, attr_data ba = DataString d /\ m p' !! Value attr = Some d)
    /\ forall h b, binAttr_append h ba b = Panic PanicAttrType.
Proof.
  intros H. destruct (getAttr_ret _ _ _ _ H) as (_ & _ & _ & Hd).
  destruct (typed attr).
  - intros h b. unfold binAttr_append.
    destruct (attr_data ba); [by eexists..|done].
  - destruct (attr_data ba) as [| | |d] eqn:E; try done. split.
    + by exists d.
    + intros h b. unfold binAttr_append. by rewrite E.
Qed.

Lemma getAttr_append_witness :
  (exists d, attr_data {| attr_ns := 0%nat; attr_name := 1%nat;
                          attr_data := DataString 2%nat |} = DataString d
             /\ m (interned "x" (interned "package" (interned "" newPool)))
                  !! Value (mkAttr "" "package" "x") = Some d)
  /\ forall h b,
       binAttr_append h {| attr_ns := 0%nat; attr_name := 1%nat;
                           attr_data := DataString 2%nat |} b
       = Panic PanicAttrType.
Proof.
  apply (getAttr_append (mkAttr "" "package" "x") newPool
           (interned "x" (interned "package" (interned "" newPool)))).
  vm_compute. reflexivity.
Defined.



(** ** The line reader *)

Lemma Read_Read lr a b : Read (Read lr a) b = Read lr (a + b).
Proof.
  unfold Read. cbn [off lines r]. rewrite !scanLines_spec, !Z.add_0_r.
  rewrite <- (take_take_drop (r lr) a b), newlineOffsets_app, length_app.
  rewrite drop_drop, <- app_assoc. f_equal. lia.
Qed.

Lemma Read_0 lr : Read lr 0 = lr.
Proof.
  destruct lr as [o ls rest]. unfold Read. cbn [off lines r].
  rewrite take_0, drop_0. simpl. f_equal. lia.
Qed.

Lemma Reads_Read lr ns : Reads lr ns = Read lr (sum_list ns).
Proof.
  unfold Reads. revert lr. induction ns as [|n ns IH]; intros lr; simpl.
  - by rewrite Read_0.
  - by rewrite IH, Read_Read.
Qed.

Lemma elem_of_newlineOffsets l : forall base o,
  o ∈ newlineOffsets base l
  <-> base <= o /\ l !! Z.to_nat (o - base) = Some 10.
Proof.
  induction l as [|c t IH]; intros base o; cbn [newlineOffsets].
  - rewrite elem_of_nil, lookup_nil. split; [done|]. by intros [_ ?].
  - rewrite elem_of_app, IH. destruct (Z.eqb_spec c 10) as [->|Hc].
    + rewrite list_elem_of_singleton. split.
      * intros [->|[Hb Hl]].
        -- split; [lia|]. by rewrite Z.sub_diag.
        -- split; [lia|].
           replace (Z.to_nat (o - base)) with (S (Z.to_nat (o - (base + 1)))) by lia.
           done.
      * intros [Hb Hl]. destruct (decide (o = base)) as [->|Hne]; [by left|].
        right. split; [lia|].
        replace (Z.to_nat (o - base)) with (S (Z.to_nat (o - (base + 1)))) in Hl by lia.
        done.
    + rewrite elem_of_nil. split.
      * intros [[]|[Hb Hl]]. split; [lia|].
        replace (Z.to_nat (o - base)) with (S (Z.to_nat (o - (base + 1)))) by lia.
        done.
      * intros [Hb Hl]. right.
        destruct (decide (o = base)) as [->|Hne].
        { rewrite Z.sub_diag in Hl. simpl in Hl. congruence. }
        split; [lia|].
        replace (Z.to_nat (o - base)) with (S (Z.to_nat (o - (base + 1)))) in Hl by lia.
        done.
Qed.

Lemma countLe_mono l pos pos' : pos <= pos' -> countLe pos l <= countLe pos' l.
Proof.
  intros H. induction l as [|o t IH]; simpl; [lia|].
  destruct (Z.leb_spec o pos), (Z.leb_spec o pos'); lia.
Qed.

Lemma countLe_bounds l pos : 0 <= countLe pos l <= Z.of_nat (length l).
Proof.
  induction l as [|o t IH]; simpl; [lia|].
  destruct (Z.leb_spec o pos); lia.
Qed.

(** X15: the state of the line reader does not depend on how the
    underlying reader cuts the input into reads: two reads in a row leave
    the state of one read of the sum, and any series of reads that of one
    read of the total. *)
Theorem Read_chunking (lr : lineReader) (a b : nat) (ns : list nat) :
  Read (Read lr a) b = Read lr (a + b)
  /\ Reads lr ns = Read lr (sum_list ns).
Proof. split; [apply Read_Read|apply Reads_Read]. Qed.

(** X16: after any reads of an input, [off] is the number of bytes
    consumed, and [lines] holds, in strictly increasing order, exactly the
    offsets below [off] at which the input has a newline byte. *)
Theorem Read_records_newlines (input : list Z) (ns : list nat) :
  let rd := Reads (newLineReader input) ns in
  off rd = Z.of_nat (Nat.min (sum_list ns) (length input))
  /\ r rd = drop (sum_list ns) input
  /\ StronglySorted Z.lt (lines rd)
  /\ forall o, o ∈ lines rd <-> 0 <= o < off rd /\ input !! Z.to_nat o = Some 10.
Proof.
  intros rd. subst rd. rewrite Reads_Read. unfold Read, newLineReader.
  cbn [off lines r]. rewrite scanLines_spec, length_take. simpl.
  split_and!; try done.
  - apply newlineOffsets_sorted.
  - intros o. rewrite elem_of_newlineOffsets, Z.sub_0_r. split.
    + intros [Ho Hl]. pose proof (lookup_lt_Some _ _ _ Hl) as Hlt.
      rewrite length_take in Hlt.
      rewrite lookup_take_lt in Hl by lia. split; [lia|done].
    + intros [Ho Hl]. split; [lia|]. rewrite lookup_take_lt by lia. done.
Qed.

(** X17: [line] is monotone in the position and stays between 1 and one
    more than the number of newlines recorded; reading further never makes
    the line of a position smaller. *)
Theorem line_monotone (input : list Z) (ns ns' : list nat) (pos pos' : Z) :
  pos <= pos' ->
  let rd := Reads (newLineReader input) ns in
  line rd pos <= line rd pos'
  /\ 1 <= line rd pos <= Z.of_nat (length (lines rd)) + 1
  /\ line rd pos <= line (Reads (newLineReader input) (ns ++ ns')) pos.
Proof.
  intros Hp rd. subst rd.
  assert (Hs : forall l, StronglySorted Z.lt (lines (Reads (newLineReader input) l))).
  { intros l. destruct (Reads_spec input l) as (n & _ & _ & -> & _).
    apply newlineOffsets_sorted. }
  rewrite !line_countLe by apply Hs.
  pose proof (countLe_mono (lines (Reads (newLineReader input) ns)) _ _ Hp).
  pose proof (countLe_bounds (lines (Reads (newLineReader input) ns)) pos).
  split_and!; try lia.
  unfold Reads. rewrite fold_left_app. fold (Reads (newLineReader input) ns).
  fold (Reads (Reads (newLineReader input) ns) ns').
  rewrite (Reads_Read _ ns'). unfold Read at 1. cbn [lines].
  rewrite scanLines_spec, countLe_app.
  pose proof (countLe_bounds
    (newlineOffsets (off (Reads (newLineReader input) ns) + 0)
       (take (sum_list ns') (r (Reads (newLineReader input) ns)))) pos).
  lia.
Qed.

Lemma line_monotone_witness :
  let rd := Reads (newLineReader (bytesOf ("<a>" ++ String "010" "<b/></a>"))) [4%nat] in
  line rd 2 <= line rd 7
  /\ 1 <= line rd 2 <= Z.of_nat (length (lines rd)) + 1
  /\ line rd 2
     <= line (Reads (newLineReader (bytesOf ("<a>" ++ String "010" "<b/></a>")))
                    ([4%nat] ++ [8%nat])) 2.
Proof.
  apply (line_monotone (bytesOf ("<a>" ++ String "010" "<b/></a>")) [4%nat] [8%nat] 2 7).
  lia.
Defined.

(** ** When the encoder returns *)

Lemma reachable_short p : reachable p -> forall x a, m p !! x = Some a -> shortString x = true.
Proof.
  induction 1 as [|p y b p' Hr IH Hg]; intros x a Hx.
  - unfold newPool in Hx. cbn [m] in Hx. by rewrite lookup_empty in Hx.
  - unfold get in Hg. destruct (m p !! y) eqn:Hy.
    + injection Hg as _ <-. by eapply IH.
    + destruct (0 <? Z.shiftr (len y) 16) eqn:Hc; [done|].
      injection Hg as _ <-. simpl in Hx.
      destruct (decide (x = y)) as [->|Hne].
      * unfold shortString. apply Z.ltb_lt.
        destruct (Z_lt_le_dec (len y) 65536) as [|Hge]; [done|].
        apply len_check in Hge. congruence.
      * rewrite lookup_insert_ne in Hx by done. by eapply IH.
Qed.

Lemma okM_ret {A} (a : A) : okM (ret a).
Proof. intros p Hr. by exists a, p. Qed.

Lemma okM_get x : shortString x = true -> okM (get x).
Proof.
  intros Hx p Hr. apply Z.ltb_lt in Hx.
  destruct (get_short x p Hx) as (a & p' & Hg & _).
  exists a, p'. split; [done|]. by eapply reach_get.
Qed.

Lemma okM_lift {A} (o : outcome A) : isRet o = true -> okM (liftOutcome o).
Proof. destruct o; [|done..]. intros _ p Hr. by exists a, p. Qed.

Lemma okM_bind {A B} (c : M A) (k : A -> M B) :
  okM c -> (forall a, okM (k a)) -> okM (bind c k).
Proof.
  intros Hc Hk p Hr. destruct (Hc p Hr) as (a & p1 & E & Hr1).
  unfold bind. rewrite E. by apply Hk.
Qed.

Lemma badM_get x : shortString x = false -> badM (get x).
Proof.
  intros Hx p Hr r. destruct (m p !! x) as [a|] eqn:Hm.
  - rewrite (reachable_short p Hr x a Hm) in Hx. done.
  - apply Z.ltb_ge in Hx. by rewrite (get_miss_long x p Hm Hx).
Qed.

Lemma badM_lift {A} (o : outcome A) : isRet o = false -> badM (liftOutcome o).
Proof. destruct o; [done|..]; intros _ p Hr r; done. Qed.

Lemma badM_bind_l {A B} (c : M A) (k : A -> M B) : badM c -> badM (bind c k).
Proof.
  intros Hc p Hr r. unfold bind. destruct (c p) as [[a p1]| |] eqn:E; [|done..].
  by destruct (Hc p Hr (a, p1)).
Qed.

Lemma badM_bind_r {A B} (c : M A) (k : A -> M B) :
  internsOnly c -> (forall a, badM (k a)) -> badM (bind c k).
Proof.
  intros Hc Hk p Hr r. unfold bind. destruct (c p) as [[a p1]| |] eqn:E; [|done..].
  apply Hk. by eapply Hc.
Qed.

Ltac ok_step :=
  first [ apply okM_ret
        | apply okM_get; assumption
        | apply okM_lift; assumption
        | apply okM_bind; [|intros ?] ].

Ltac bad_get :=
  match goal with
  | H : shortString ?x = false |- badM (bind (get ?x) _) =>
    apply badM_bind_l, badM_get, H
  | |- badM (bind (get _) _) =>
    apply badM_bind_r; [apply internsOnly_get|intros ?]
  end.

Lemma getAttr_ok a : getAttrOK a = true -> okM (getAttr a).
Proof.
  unfold getAttrOK, getAttr.
  rewrite !andb_true_iff. intros [[H1 H2] H3].
  repeat (ok_step; try assumption).
  destruct (negb _); [by repeat ok_step|].
  destruct (_ || _)%bool; [by repeat ok_step|].
  destruct (_ || _)%bool; [by repeat ok_step|].
  destruct (String.eqb _ "configChanges"); by repeat ok_step.
Qed.

Lemma getAttr_bad a : getAttrOK a = false -> badM (getAttr a).
Proof.
  unfold getAttrOK, getAttr.
  destruct (shortString (Space (AttrName a))) eqn:H1; cbn [andb]; intros H;
    bad_get.
  destruct (shortString (Local (AttrName a))) eqn:H2; cbn [andb] in H;
    bad_get.
  destruct (negb _); [bad_get|].
  destruct (_ || _)%bool; [by apply badM_bind_l, badM_lift|].
  destruct (_ || _)%bool; [by apply badM_bind_l, badM_lift|].
  destruct (String.eqb _ "configChanges"); [done|]. bad_get.
Qed.

Lemma attrLoop_ok ln dep attrs :
  forallb attrOK attrs = true -> forall acc, okM (attrLoop ln dep attrs acc).
Proof.
  induction attrs as [|a rest IH]; intros H acc; cbn [attrLoop].
  - apply okM_ret.
  - cbn [forallb] in H. apply andb_true_iff in H as [Ha Hrest].
    destruct acc as [[els ends] battr]. unfold attrOK in Ha.
    destruct (String.eqb (Space (AttrName a)) "xmlns").
    + apply andb_true_iff in Ha as [H1 H2].
      repeat (ok_step; try assumption). by apply IH.
    + intros p Hr. destruct (getAttr_ok a Ha p Hr) as (ba & p1 & -> & Hr1).
      by apply IH.
Qed.

Lemma attrLoop_bad ln dep attrs :
  forallb attrOK attrs = false -> forall acc, badM (attrLoop ln dep attrs acc).
Proof.
  induction attrs as [|a rest IH]; intros H acc; cbn [attrLoop]; [done|].
  cbn [forallb] in H. destruct acc as [[els ends] battr]. unfold attrOK in H.
  destruct (String.eqb (Space (AttrName a)) "xmlns").
  - destruct (shortString (Local (AttrName a))) eqn:H1; cbn [andb] in H; bad_get.
    destruct (shortString (Value a)) eqn:H2; cbn [andb] in H; bad_get.
    do 2 bad_get. by apply IH.
  - intros p Hr r. destruct (getAttr a p) as [[ba p1]| |] eqn:E; [|done..].
    destruct (getAttrOK a) eqn:Ha; cbn [andb] in H.
    + apply IH; [done|]. by eapply internsOnly_getAttr.
    + by destruct (getAttr_bad a Ha p Hr (ba, p1)).
Qed.

Lemma handleToken_ok ln tok e : tokenOK tok = true -> okM (handleToken ln tok e).
Proof.
  destruct tok; cbn [tokenOK handleToken]; intros H; try apply okM_ret.
  - apply andb_true_iff in H as [H H2]. apply andb_true_iff in H as [H0 H1].
    apply okM_bind; [by apply attrLoop_ok|intros [[els ends] battr]].
    by repeat ok_step.
  - apply andb_true_iff in H as [H1 H2].
    apply okM_bind; [by apply okM_get|intros ns].
    apply okM_bind; [by apply okM_get|intros nm]. cbv zeta.
    destruct (namespaceEnds e !! (depth e - 1)); apply okM_ret.
  - destruct (String.eqb _ ""); by repeat ok_step.
Qed.

Lemma handleToken_bad ln tok e : tokenOK tok = false -> badM (handleToken ln tok e).
Proof.
  destruct tok; cbn [tokenOK handleToken]; intros H; try done.
  - destruct (forallb attrOK attr) eqn:H0; cbn [andb] in H.
    2:{ by apply badM_bind_l, attrLoop_bad. }
    apply badM_bind_r; [apply internsOnly_attrLoop|intros [[els ends] battr]].
    destruct (shortString (Space name)) eqn:H1; cbn [andb] in H; bad_get.
    bad_get.
  - destruct (shortString (Space name)) eqn:H1; cbn [andb] in H; bad_get.
    bad_get.
  - destruct (String.eqb _ ""); [done|]. bad_get.
Qed.

Lemma tokenLoop_ok steps final :
  forallb tokenOK (map step_tok steps) = true ->
  forall pos e p, reachable p ->
    match snd final with
    | EOF => exists e' p', tokenLoop steps final pos e p = Ret (e', p') /\ reachable p'
    | err => tokenLoop steps final pos e p = Fail err
    end.
Proof.
  induction steps as [|st rest IH]; intros H pos e p Hr; cbn [tokenLoop].
  - destruct (snd final); try done. by eexists _, p.
  - cbn [map forallb] in H. apply andb_true_iff in H as [Ht Hrest].
    unfold bind.
    edestruct (handleToken_ok (line (lr e) pos) (step_tok st)) as (e1 & p1 & -> & Hr1);
      [done|exact Hr|].
    by apply IH.
Qed.

Lemma tokenLoop_bad steps final :
  forallb tokenOK (map step_tok steps) = false ->
  forall pos e, badM (tokenLoop steps final pos e).
Proof.
  induction steps as [|st rest IH]; intros H pos e; cbn [tokenLoop]; [done|].
  cbn [map forallb] in H. destruct (tokenOK (step_tok st)) eqn:Ht; cbn [andb] in H.
  - apply badM_bind_r; [apply internsOnly_handleToken|intros e1]. by apply IH.
  - by apply badM_bind_l, handleToken_bad.
Qed.

(** X18: [binaryXML] returns a document exactly when the decoder ends with
    [io.EOF] and every token is one the encoder takes: every string to
    intern is shorter than 2^16 bytes, and the value of every versionCode or
    minSdkVersion (hasCode or debuggable) attribute of the Android namespace
    is accepted by [strconv.Atoi] ([strconv.ParseBool]).  On such tokens, any
    other last error of the decoder is returned as it is. *)
Theorem binaryXML_returns_iff (input : list Z) (steps : list tokenStep)
    (final : list nat * error) :
  ((exists out, binaryXML input steps final = Ret out)
   <-> forallb tokenOK (map step_tok steps) = true /\ snd final = EOF)
  /\ (forallb tokenOK (map step_tok steps) = true ->
      snd final <> EOF ->
      binaryXML input steps final = Fail (snd final)).
Proof.
  unfold binaryXML.
  set (e0 := {| lr := newLineReader input; depth := 0; elements := [];
                namespaceEnds := ∅ |}).
  split; [split|].
  - intros [out H].
    destruct (tokenLoop steps final 0 e0 newPool) as [[e1 p1]| |] eqn:E; [|done..].
    destruct (forallb tokenOK (map step_tok steps)) eqn:Hok.
    + split; [done|].
      pose proof (tokenLoop_ok steps final Hok 0 e0 newPool reach_new) as Hl.
      destruct (snd final); [done|congruence..].
    + by destruct (tokenLoop_bad steps final Hok 0 e0 newPool reach_new (e1, p1)).
  - intros [Hok Hf].
    pose proof (tokenLoop_ok steps final Hok 0 e0 newPool reach_new) as Hl.
    rewrite Hf in Hl. destruct Hl as (e1 & p1 & -> & Hr1).
    destruct (sortPool_spec p1 (reachable_inv _ Hr1)) as (p2 & -> & _).
    by eexists.
  - intros Hok Hf.
    pose proof (tokenLoop_ok steps final Hok 0 e0 newPool reach_new) as Hl.
    destruct (snd final); [done|by rewrite Hl..].
Qed.

Lemma binaryXML_returns_iff_witness :
  binaryXML (bytesOf "<manifest package='x'>") (take 1 minimalSteps)
            ([0%nat], ReadError "XML syntax error on line 1: unexpected EOF")
  = Fail (ReadError "XML syntax error on line 1: unexpected EOF").
Proof.
  apply (proj2 (binaryXML_returns_iff (bytesOf "<manifest package='x'>")
                  (take 1 minimalSteps)
                  ([0%nat], ReadError "XML syntax error on line 1: unexpected EOF"))).
  - vm_compute. reflexivity.
  - discriminate.
Defined.

(** ** The errors of the encoder *)

Lemma getAttr_fail a p err : getAttr a p = Fail err -> parseError a err.
Proof.
  unfold getAttr, bind, parseError.
  destruct (get _ p) as [[ns p1]| |] eqn:E1; [|by destruct (get_not_fail _ _ _ E1)|done].
  destruct (get _ p1) as [[nm p2]| |] eqn:E2; [|by destruct (get_not_fail _ _ _ E2)|done].
  destruct (String.eqb_spec (Space (AttrName a)) androidNS) as [Hs|_]; cbn [negb].
  2:{ destruct (get _ p2) as [[d p3]| |] eqn:E3; [done| |done].
      by destruct (get_not_fail _ _ _ E3). }
  intros H. split; [done|]. revert H.
  destruct (String.eqb_spec (Local (AttrName a)) "versionCode") as [->|_]; cbn [orb].
  { unfold liftOutcome. destruct (Atoi _) eqn:E; [done| |done].
    intros [= <-]. left. split; [by left|done]. }
  destruct (String.eqb_spec (Local (AttrName a)) "minSdkVersion") as [->|_]; cbn [orb].
  { unfold liftOutcome. destruct (Atoi _) eqn:E; [done| |done].
    intros [= <-]. left. split; [by right; left|done]. }
  destruct (String.eqb_spec (Local (AttrName a)) "hasCode") as [->|_]; cbn [orb].
  { unfold liftOutcome. destruct (ParseBool _) eqn:E; [done| |done].
    intros [= <-]. right. split; [by left|done]. }
  destruct (String.eqb_spec (Local (AttrName a)) "debuggable") as [->|_]; cbn [orb].
  { unfold liftOutcome. destruct (ParseBool _) eqn:E; [done| |done].
    intros [= <-]. right. split; [by right; left|done]. }
  destruct (String.eqb (Local (AttrName a)) "configChanges"); [done|].
  destruct (get _ p2) as [[d p3]| |] eqn:E3; [done| |done].
  by destruct (get_not_fail _ _ _ E3).
Qed.

Lemma attrLoop_fail ln dep attrs : forall acc p e,
  attrLoop ln dep attrs acc p = Fail e ->
  exists a err, a ∈ attrs /\ parseError a err
                /\ e = Errorf_attr ln (Local (AttrName a)) err.
Proof.
  induction attrs as [|a rest IH]; intros [[els ends] battr] p e; cbn [attrLoop]; [done|].
  destruct (String.eqb (Space (AttrName a)) "xmlns").
  - unfold bind.
    destruct (get _ p) as [[a1 p1]| |] eqn:E1; [|by destruct (get_not_fail _ _ _ E1)|done].
    destruct (get _ p1) as [[a2 p2]| |] eqn:E2; [|by destruct (get_not_fail _ _ _ E2)|done].
    destruct (get _ p2) as [[a3 p3]| |] eqn:E3; [|by destruct (get_not_fail _ _ _ E3)|done].
    destruct (get _ p3) as [[a4 p4]| |] eqn:E4; [|by destruct (get_not_fail _ _ _ E4)|done].
    intros H. destruct (IH _ _ _ H) as (b & err & Hb & Hp & ->).
    exists b, err. split; [by right|done].
  - destruct (getAttr a p) as [[ba p1]|err|] eqn:E; [| |done].
    + intros H. destruct (IH _ _ _ H) as (b & err & Hb & Hp & ->).
      exists b, err. split; [by right|done].
    + intros [= <-]. exists a, err. split; [by left|].
      split; [by eapply getAttr_fail|done].
Qed.

Lemma handleToken_fail ln tok e p err :
  handleToken ln tok e p = Fail err ->
  exists name attrs a err',
    tok = StartElement name attrs /\ a ∈ attrs /\ parseError a err'
    /\ err = Errorf_attr ln (Local (AttrName a)) err'.
Proof.
  destruct tok; cbn [handleToken]; unfold bind, ret; try done.
  - destruct (attrLoop _ _ _ _ p) as [[[[els ends] battr] p1]| |] eqn:E; [| |done].
    + destruct (get _ p1) as [[a1 p2]| |] eqn:E1; [|by destruct (get_not_fail _ _ _ E1)|done].
      destruct (get _ p2) as [[a2 p3]| |] eqn:E2; [|by destruct (get_not_fail _ _ _ E2)|done].
      done.
    + intros [= <-]. destruct (attrLoop_fail _ _ _ _ _ _ E) as (a & err' & Ha & Hp & ->).
      by exists name, attr, a, err'.
  - destruct (get _ p) as [[a1 p2]| |] eqn:E1; [|by destruct (get_not_fail _ _ _ E1)|done].
    destruct (get _ p2) as [[a2 p3]| |] eqn:E2; [|by destruct (get_not_fail _ _ _ E2)|done].
    by destruct (namespaceEnds e !! _).
  - destruct (String.eqb _ ""); [done|].
    destruct (get _ p) as [[a1 p2]| |] eqn:E1; [done|by destruct (get_not_fail _ _ _ E1)|done].
Qed.

Lemma handleToken_lr ln tok e p e' p' :
  handleToken ln tok e p = Ret (e', p') -> lr e' = lr e.
Proof.
  destruct tok; cbn [handleToken]; unfold bind, ret.
  - destruct (attrLoop _ _ _ _ p) as [[[[els ends] battr] p1]| |]; [|done..].
    destruct (get _ p1) as [[a1 p2]| |]; [|done..].
    destruct (get _ p2) as [[a2 p3]| |]; [|done..].
    by intros [= <- _].
  - destruct (get _ p) as [[a1 p2]| |]; [|done..].
    destruct (get _ p2) as [[a2 p3]| |]; [|done..].
    destruct (namespaceEnds e !! _); by intros [= <- _].
  - destruct (String.eqb _ ""); [by intros [= <- _]|].
    destruct (get _ p) as [[a1 p2]| |]; [|done..]. by intros [= <- _].
  - by intros [= <- _].
  - by intros [= <- _].
  - by intros [= <- _].
Qed.

Lemma tokenLoop_fail steps final : forall pos e p err,
  tokenLoop steps final pos e p = Fail err ->
  (err = snd final /\ err <> EOF)
  \/ exists pre st post name attrs a err',
       steps = pre ++ st :: post
       /\ step_tok st = StartElement name attrs
       /\ a ∈ attrs /\ parseError a err'
       /\ err = Errorf_attr
                  (line (Reads (lr e) (concat (map step_reads pre)))
                        (offsetAfter pos pre))
                  (Local (AttrName a)) err'.
Proof.
  induction steps as [|st rest IH]; intros pos e p err; cbn [tokenLoop].
  - destruct (snd final) eqn:Ef; [done|..]; intros [= <-]; by left.
  - unfold bind.
    destruct (handleToken _ _ _ p) as [[e1 p1]|err1|] eqn:E; [| |done].
    + intros H. apply handleToken_lr in E. cbn [lr] in E.
      destruct (IH _ _ _ _ H) as [?|(pre & st' & post & name & attrs & a & err' & -> & Ht & Ha & Hp & ->)];
        [by left|].
      right. exists (st :: pre), st', post, name, attrs, a, err'.
      split_and!; try done. do 2 f_equal.
      * rewrite E. cbn [map concat]. unfold Reads. by rewrite fold_left_app.
      * unfold offsetAfter. cbn [map]. rewrite last_cons.
        by destruct (last (map step_offset pre)).
    + intros [= <-]. right.
      destruct (handleToken_fail _ _ _ _ _ E) as (name & attrs & a & err' & Ht & Ha & Hp & ->).
      by exists [], st, rest, name, attrs, a, err'.
Qed.

(** X19: an error of [binaryXML] is either the last error of the decoder,
    which is not [io.EOF], or the error of [strconv.Atoi] or
    [strconv.ParseBool] on the value of a typed attribute of a start tag,
    wrapped with the local name of the attribute and with the line that
    [line] gives, among the bytes read before the tag was decoded, for the
    offset at which the decoder stood before the tag.  Sorting and writing
    the pool never return an error. *)
Theorem binaryXML_errors (input : list Z) (steps : list tokenStep)
    (final : list nat * error) (err : error) :
  binaryXML input steps final = Fail err ->
  (err = snd final /\ err <> EOF)
  \/ exists pre st post name attrs a err',
       steps = pre ++ st :: post
       /\ step_tok st = StartElement name attrs
       /\ a ∈ attrs /\ parseError a err'
       /\ err = Errorf_attr
                  (line (Reads (newLineReader input) (concat (map step_reads pre)))
                        (offsetAfter 0 pre))
                  (Local (AttrName a)) err'.
Proof.
  unfold binaryXML.
  destruct (tokenLoop steps final 0 _ newPool) as [[e1 p1]|err1|] eqn:E; [| |done].
  - pose proof (encoder_pool_reachable _ _ _ _ _ _ E) as Hr.
    destruct (sortPool_spec p1 (reachable_inv _ Hr)) as (p2 & -> & _). done.
  - intros [= <-]. apply tokenLoop_fail in E. exact E.
Qed.

Lemma binaryXML_errors_witness :
  (Errorf_attr 2 "hasCode" (NumError "ParseBool" "maybe" ErrSyntax) = ReadError ""
   /\ Errorf_attr 2 "hasCode" (NumError "ParseBool" "maybe" ErrSyntax) <> EOF)
  \/ exists pre st post name attrs a err',
       failingSteps = pre ++ st :: post
       /\ step_tok st = StartElement name attrs
       /\ a ∈ attrs /\ parseError a err'
       /\ Errorf_attr 2 "hasCode" (NumError "ParseBool" "maybe" ErrSyntax)
          = Errorf_attr
              (line (Reads (newLineReader (bytesOf failingManifest))
                           (concat (map step_reads pre)))
                    (offsetAfter 0 pre))
              (Local (AttrName a)) err'.
Proof.
  apply (binaryXML_errors (bytesOf failingManifest) failingSteps
           ([0%nat], ReadError "")).
  vm_compute. reflexivity.
Defined.

(** ** Namespace chunks *)

Lemma monoM_ret {A} (a : A) : monoM (ret a).
Proof. intros p r p' [= _ <-]. done. Qed.

Lemma monoM_get x : monoM (get x).
Proof. intros p r p' H y a Hy. by eapply get_mono. Qed.

Lemma monoM_lift {A} (o : outcome A) : monoM (liftOutcome o).
Proof. intros p r p'. destruct o; [|done..]. by intros [= _ <-]. Qed.

Lemma monoM_bind {A B} (c : M A) (k : A -> M B) :
  monoM c -> (forall a, monoM (k a)) -> monoM (bind c k).
Proof.
  intros Hc Hk p r p'. unfold bind. destruct (c p) as [[a p1]| |] eqn:E; [|done..].
  intros H x b Hx. eapply Hk; [exact H|]. by eapply Hc.
Qed.

Lemma monoM_getAttr a : monoM (getAttr a).
Proof.
  unfold getAttr.
  repeat first
    [ apply monoM_bind; [|intros ?]
    | apply monoM_get
    | apply monoM_ret
    | apply monoM_lift
    | match goal with |- monoM (if ?b then _ else _) => destruct b end ].
Qed.

Lemma monoM_attrLoop ln dep attrs : forall acc, monoM (attrLoop ln dep attrs acc).
Proof.
  induction attrs as [|a rest IH]; intros [[els ends] battr]; cbn [attrLoop].
  - apply monoM_ret.
  - destruct (String.eqb _ "xmlns").
    + repeat (apply monoM_bind; [apply monoM_get|intros ?]). apply IH.
    + intros p r p' H x b Hx.
      destruct (getAttr a p) as [[ba p1]| |] eqn:E; [|done..].
      eapply IH; [exact H|]. by eapply monoM_getAttr.
Qed.

Lemma ptr_lookup p q x a :
  (forall y b, m p !! y = Some b -> m q !! y = Some b) ->
  m p !! x = Some a -> ptr q x = a.
Proof. intros Hq Hx. unfold ptr. by rewrite (Hq _ _ Hx). Qed.

Lemma attrLoop_spec ln dep attrs : forall els ends battr p els' ends' battr' p',
  attrLoop ln dep attrs (els, ends, battr) p = Ret ((els', ends', battr'), p') ->
  forall q, (forall x a, m p' !! x = Some a -> m q !! x = Some a) ->
    els' = els ++ map (startNs ln q) (List.filter isXmlns attrs)
    /\ ends' = match last (List.filter isXmlns attrs) with
               | Some a => <[dep := endNs ln q a]> ends
               | None => ends
               end
    /\ (exists news,
          battr' = battr ++ news
          /\ Forall2 (fun a ba => attr_ns ba = ptr q (Space (AttrName a))
                                  /\ attr_name ba = ptr q (Local (AttrName a)))
                     (List.filter (fun a => negb (isXmlns a)) attrs) news).
Proof.
  induction attrs as [|a rest IH]; intros els ends battr p els' ends' battr' p';
    cbn [attrLoop List.filter].
  - intros [= <- <- <- <-] q Hq. cbn [map last]. rewrite app_nil_r.
    split_and!; try done. exists []. by rewrite app_nil_r.
  - change (String.eqb (Space (AttrName a)) "xmlns") with (isXmlns a).
    destruct (isXmlns a); cbn [negb].
    + unfold bind.
      destruct (get _ p) as [[pre p1]| |] eqn:E1; [|done..].
      destruct (get _ p1) as [[url p2]| |] eqn:E2; [|done..].
      destruct (get _ p2) as [[pre' p3]| |] eqn:E3; [|done..].
      destruct (get _ p3) as [[url' p4]| |] eqn:E4; [|done..].
      intros H q Hq.
      pose proof (monoM_attrLoop _ _ _ _ _ _ _ H) as Hm.
      assert (Hq4 : forall x b, m p4 !! x = Some b -> m q !! x = Some b)
        by (intros x b Hx; by apply Hq, Hm).
      assert (Hq3 : forall x b, m p3 !! x = Some b -> m q !! x = Some b)
        by (intros x b Hx; by eapply Hq4, get_mono).
      assert (Hq2 : forall x b, m p2 !! x = Some b -> m q !! x = Some b)
        by (intros x b Hx; by eapply Hq3, get_mono).
      assert (Hq1 : forall x b, m p1 !! x = Some b -> m q !! x = Some b)
        by (intros x b Hx; by eapply Hq2, get_mono).
      destruct (IH _ _ _ _ _ _ _ _ H q Hq) as (-> & -> & Hb).
      split_and!; [| |done].
      * rewrite <- app_assoc. cbn [map app]. do 2 f_equal. unfold startNs.
        rewrite (ptr_lookup _ _ _ _ Hq1 (get_ret_lookup _ _ _ _ E1)).
        by rewrite (ptr_lookup _ _ _ _ Hq2 (get_ret_lookup _ _ _ _ E2)).
      * rewrite last_cons. destruct (last (List.filter isXmlns rest)).
        -- by rewrite insert_insert_eq.
        -- unfold endNs.
           rewrite (ptr_lookup _ _ _ _ Hq3 (get_ret_lookup _ _ _ _ E3)).
           by rewrite (ptr_lookup _ _ _ _ Hq4 (get_ret_lookup _ _ _ _ E4)).
    + destruct (getAttr a p) as [[ba p1]| |] eqn:E; [|done..].
      intros H q Hq.
      pose proof (monoM_attrLoop _ _ _ _ _ _ _ H) as Hm.
      assert (Hq1 : forall x b, m p1 !! x = Some b -> m q !! x = Some b)
        by (intros x b Hx; by apply Hq, Hm).
      destruct (IH _ _ _ _ _ _ _ _ H q Hq) as (-> & -> & news & -> & Hb).
      split_and!; try done.
      exists (ba :: news). rewrite <- app_assoc. split; [done|].
      constructor; [|done].
      destruct (getAttr_ret _ _ _ _ E) as (Hns & Hnm & _).
      by rewrite (ptr_lookup _ _ _ _ Hq1 Hns), (ptr_lookup _ _ _ _ Hq1 Hnm).
Qed.

Lemma monoM_handleToken ln tok e : monoM (handleToken ln tok e).
Proof.
  destruct tok; cbn [handleToken]; try apply monoM_ret.
  - apply monoM_bind; [apply monoM_attrLoop|intros [[els ends] battr]].
    repeat (apply monoM_bind; [apply monoM_get|intros ?]). apply monoM_ret.
  - repeat (apply monoM_bind; [apply monoM_get|intros ?]). cbv zeta.
    destruct (namespaceEnds e !! _); apply monoM_ret.
  - destruct (String.eqb _ ""); [apply monoM_ret|].
    apply monoM_bind; [apply monoM_get|intros ?]. apply monoM_ret.
Qed.

Lemma monoM_tokenLoop steps final : forall pos e, monoM (tokenLoop steps final pos e).
Proof.
  induction steps as [|st rest IH]; intros pos e; cbn [tokenLoop].
  - destruct (snd final); try apply monoM_ret; by intros p r p'.
  - apply monoM_bind; [apply monoM_handleToken|intros e']. apply IH.
Qed.

(** What a start tag does to the encoder, the pointers being read in any
    later pool [q]. *)
Lemma start_spec ln name attrs e p e1 p1 :
  handleToken ln (StartElement name attrs) e p = Ret (e1, p1) ->
  forall q, (forall x a, m p1 !! x = Some a -> m q !! x = Some a) ->
    depth e1 = depth e + 1
    /\ lr e1 = lr e
    /\ namespaceEnds e1
       = match last (List.filter isXmlns attrs) with
         | Some a => <[depth e := endNs ln q a]> (namespaceEnds e)
         | None => namespaceEnds e
         end
    /\ exists battr,
         elements e1
         = elements e ++ map (startNs ln q) (List.filter isXmlns attrs)
           ++ [ElemStartElement {| se_line := ln; se_ns := ptr q (Space name);
                                   se_name := ptr q (Local name); se_attr := battr |}]
         /\ Forall2 (fun a ba => attr_ns ba = ptr q (Space (AttrName a))
                                 /\ attr_name ba = ptr q (Local (AttrName a)))
                    (List.filter (fun a => negb (isXmlns a)) attrs) battr.
Proof.
  cbn [handleToken]. unfold bind, ret. intros H q Hq.
  destruct (attrLoop _ _ _ _ p) as [[[[els ends] battr] q1]| |] eqn:EA; [|done..].
  destruct (get _ q1) as [[ns q2]| |] eqn:E1; [|done..].
  destruct (get _ q2) as [[nm q3]| |] eqn:E2; [|done..].
  injection H as <- <-.
  assert (Hq2 : forall x b, m q2 !! x = Some b -> m q !! x = Some b)
    by (intros x b Hx; by eapply Hq, get_mono).
  assert (Hq1 : forall x b, m q1 !! x = Some b -> m q !! x = Some b)
    by (intros x b Hx; by eapply Hq2, get_mono).
  destruct (attrLoop_spec _ _ _ _ _ _ _ _ _ _ _ EA q Hq1)
    as (-> & -> & news & Hb & HF).
  cbn [app] in Hb. subst news. cbn [depth lr namespaceEnds elements].
  split_and!; try done. exists battr. split; [|done].
  rewrite <- (ptr_lookup _ _ _ _ Hq2 (get_ret_lookup _ _ _ _ E1)).
  rewrite <- (ptr_lookup _ _ _ _ Hq (get_ret_lookup _ _ _ _ E2)).
  by rewrite <- app_assoc.
Qed.

(** What an end tag does to the encoder. *)
Lemma end_spec ln name e p e2 p2 :
  handleToken ln (EndElement name) e p = Ret (e2, p2) ->
  depth e2 = depth e - 1
  /\ lr e2 = lr e
  /\ namespaceEnds e2 = delete (depth e - 1) (namespaceEnds e)
  /\ elements e2
     = elements e
       ++ [ElemEndElement {| ee_line := ln; ee_ns := ptr p2 (Space name);
                             ee_name := ptr p2 (Local name) |}]
       ++ match namespaceEnds e !! (depth e - 1) with
          | Some n => [ElemEndNamspace n]
          | None => []
          end.
Proof.
  cbn [handleToken]. unfold bind, ret. intros H.
  destruct (get _ p) as [[ns q1]| |] eqn:E1; [|done..].
  destruct (get _ q1) as [[nm q2]| |] eqn:E2; [|done..].
  assert (Hp2 : p2 = q2) by (destruct (namespaceEnds e !! _); by injection H as _ <-).
  subst q2.
  pose proof (get_ret_lookup _ _ _ _ E2) as Hnm.
  pose proof (get_mono _ _ _ _ _ _ (get_ret_lookup _ _ _ _ E1) E2) as Hns.
  unfold ptr. rewrite Hns, Hnm. cbn [default].
  destruct (namespaceEnds e !! (depth e - 1)) eqn:E; injection H as <-;
    cbn [depth lr namespaceEnds elements]; split_and!; try done;
    first [by rewrite <- app_assoc | by rewrite delete_id | by rewrite app_nil_r].
Qed.

(** What any token does to the depth and to the pending namespace ends. *)
Lemma handleToken_step ln tok e p e' p' :
  handleToken ln tok e p = Ret (e', p') ->
  (exists new, elements e' = elements e ++ new)
  /\ match tok with
     | StartElement _ _ =>
       depth e' = depth e + 1
       /\ forall key, key <> depth e -> namespaceEnds e' !! key = namespaceEnds e !! key
     | EndElement _ =>
       depth e' = depth e - 1
       /\ forall key, key <> depth e - 1 ->
                      namespaceEnds e' !! key = namespaceEnds e !! key
     | _ => depth e' = depth e /\ namespaceEnds e' = namespaceEnds e
            /\ elements e' = elements e
     end.
Proof.
  destruct tok.
  - intros H. destruct (start_spec _ _ _ _ _ _ _ H p' (fun _ _ Hx => Hx))
      as (Hd & _ & Hn & battr & He & _).
    split; [by eexists|]. split; [done|]. intros key Hk. rewrite Hn.
    destruct (last _); [by rewrite lookup_insert_ne|done].
  - intros H. destruct (end_spec _ _ _ _ _ _ H) as (Hd & _ & Hn & He).
    split; [by eexists|]. split; [done|]. intros key Hk. rewrite Hn.
    by rewrite lookup_delete_ne.
  - cbn [handleToken]. unfold bind, ret. destruct (String.eqb _ "").
    + intros [= <- _]. split; [exists []; by rewrite app_nil_r|done].
    + destruct (get _ p) as [[a q]| |]; [|done..]. intros [= <- _].
      split; [exists []; by rewrite app_nil_r|done].
  - intros [= <- _]. split; [exists []; by rewrite app_nil_r|done].
  - intros [= <- _]. split; [exists []; by rewrite app_nil_r|done].
  - intros [= <- _]. split; [exists []; by rewrite app_nil_r|done].
Qed.

Lemma offsetAfter_snoc pos pre st : offsetAfter pos (pre ++ [st]) = step_offset st.
Proof. unfold offsetAfter. rewrite map_app. cbn [map]. by rewrite last_snoc. Qed.

Lemma offsetAfter_cons pos st pre :
  offsetAfter pos (st :: pre) = offsetAfter (step_offset st) pre.
Proof.
  unfold offsetAfter. cbn [map]. rewrite last_cons.
  by destruct (last (map step_offset pre)).
Qed.

(** The loop on [pre ++ post] is the loop on [post], from the state in which
    the loop on [pre] would stop. *)
Lemma tokenLoop_app pre post final : forall pos e p,
  tokenLoop (pre ++ post) final pos e p
  = match tokenLoop pre ([], EOF) pos e p with
    | Ret (e1, p1) => tokenLoop post final (offsetAfter pos pre) e1 p1
    | Fail err => Fail err
    | Panic v => Panic v
    end.
Proof.
  induction pre as [|st pre IH]; intros pos e p.
  - cbn [app tokenLoop snd fst]. unfold ret, Reads. cbn [fold_left].
    by destruct e.
  - cbn [app tokenLoop]. unfold bind.
    destruct (handleToken _ _ _ p) as [[e1 p1]| |]; [|done..].
    by rewrite IH, offsetAfter_cons.
Qed.

Lemma tokenLoop_lr steps : forall pos e p e' p',
  tokenLoop steps ([], EOF) pos e p = Ret (e', p') ->
  lr e' = Reads (lr e) (concat (map step_reads steps)).
Proof.
  induction steps as [|st rest IH]; intros pos e p e' p'; cbn [tokenLoop snd fst].
  - by intros [= <- _].
  - unfold bind. destruct (handleToken _ _ _ p) as [[e1 p1]| |] eqn:E; [|done..].
    intros H. apply IH in H. apply handleToken_lr in E. cbn [lr] in E.
    rewrite H, E. cbn [map concat]. unfold Reads. by rewrite fold_left_app.
Qed.

(** Tokens that never close more than they open leave the pending namespace
    ends below the depth at which they start as they are. *)
Lemma nested_run base steps : forall k k' pos e p e' p',
  nesting (map step_tok steps) k = Some k' ->
  depth e = base + Z.of_nat k ->
  tokenLoop steps ([], EOF) pos e p = Ret (e', p') ->
  depth e' = base + Z.of_nat k'
  /\ (forall key, key < base -> namespaceEnds e' !! key = namespaceEnds e !! key)
  /\ exists mid, elements e' = elements e ++ mid.
Proof.
  induction steps as [|st rest IH]; intros k k' pos e p e' p'; cbn [map nesting tokenLoop snd fst].
  - intros [= <-] Hd [= <- _]. cbn [depth namespaceEnds elements].
    split_and!; try done. exists []. by rewrite app_nil_r.
  - intros Hn Hd. unfold bind.
    destruct (handleToken _ _ _ p) as [[e1 p1]| |] eqn:E; [|done..].
    intros H. apply handleToken_step in E as [[new Hnew] E].
    cbn [depth namespaceEnds elements] in Hnew, E.
    destruct (step_tok st) eqn:Ht.
    + destruct E as [Hd1 Hk1].
      destruct (IH (S k) k' (step_offset st) e1 p1 e' p' Hn ltac:(lia) H) as (Hd' & Hk' & mid & Hm).
      split_and!; [done| |].
      * intros key Hkey. rewrite Hk' by done. apply Hk1. lia.
      * exists (new ++ mid). by rewrite Hm, Hnew, app_assoc.
    + destruct k as [|k0]; [done|]. destruct E as [Hd1 Hk1].
      destruct (IH k0 k' (step_offset st) e1 p1 e' p' Hn ltac:(lia) H) as (Hd' & Hk' & mid & Hm).
      split_and!; [done| |].
      * intros key Hkey. rewrite Hk' by done. apply Hk1. lia.
      * exists (new ++ mid). by rewrite Hm, Hnew, app_assoc.
    + destruct E as (Hd1 & Hk1 & _).
      destruct (IH k k' (step_offset st) e1 p1 e' p' Hn ltac:(lia) H) as (Hd' & Hk' & mid & Hm).
      split_and!; [done| |].
      * intros key Hkey. rewrite Hk' by done. by rewrite Hk1.
      * exists (new ++ mid). by rewrite Hm, Hnew, app_assoc.
    + destruct E as (Hd1 & Hk1 & _).
      destruct (IH k k' (step_offset st) e1 p1 e' p' Hn ltac:(lia) H) as (Hd' & Hk' & mid & Hm).
      split_and!; [done| |].
      * intros key Hkey. rewrite Hk' by done. by rewrite Hk1.
      * exists (new ++ mid). by rewrite Hm, Hnew, app_assoc.
    + destruct E as (Hd1 & Hk1 & _).
      destruct (IH k k' (step_offset st) e1 p1 e' p' Hn ltac:(lia) H) as (Hd' & Hk' & mid & Hm).
      split_and!; [done| |].
      * intros key Hkey. rewrite Hk' by done. by rewrite Hk1.
      * exists (new ++ mid). by rewrite Hm, Hnew, app_assoc.
    + destruct E as (Hd1 & Hk1 & _).
      destruct (IH k k' (step_offset st) e1 p1 e' p' Hn ltac:(lia) H) as (Hd' & Hk' & mid & Hm).
      split_and!; [done| |].
      * intros key Hkey. rewrite Hk' by done. by rewrite Hk1.
      * exists (new ++ mid). by rewrite Hm, Hnew, app_assoc.
Qed.

(** X20: in any document and at any depth, for a start tag, its content
    (tokens that open and close elements in pairs) and its end tag, all of
    them tokens the encoder takes: the start tag appends one start-namespace
    chunk for each xmlns attribute, in order, and then the start-element
    chunk with the other attributes; the content appends its chunks after
    them; the end tag appends the end-element chunk and then at most one
    end-namespace chunk: that of the last xmlns attribute of the start tag,
    with the line of the start tag, whatever the number of xmlns attributes.
    The depth is restored, no end of a namespace stays pending at that
    depth, those pending below it are kept, and the loop goes on with the
    tokens that follow. *)
Theorem namespace_chunks (st en : tokenStep) (inner : list tokenStep)
    (name name' : Name) (attrs : list Attr)
    (pos : Z) (e : encoder) (p : binStringPool) :
  reachable p ->
  step_tok st = StartElement name attrs ->
  step_tok en = EndElement name' ->
  nesting (map step_tok inner) 0 = Some 0%nat ->
  forallb tokenOK (map step_tok (st :: inner ++ [en])) = true ->
  let ln := line (lr e) pos in
  let ln' := line (Reads (lr e) (concat (map step_reads (st :: inner))))
                  (offsetAfter pos (st :: inner)) in
  exists e2 p2 battr mid,
    tokenLoop (st :: inner ++ [en]) ([], EOF) pos e p = Ret (e2, p2)
    /\ (forall post final,
          tokenLoop (st :: inner ++ en :: post) final pos e p
          = tokenLoop post final (step_offset en) e2 p2)
    /\ depth e2 = depth e
    /\ elements e2
       = elements e ++ map (startNs ln p2) (List.filter isXmlns attrs)
         ++ [ElemStartElement {| se_line := ln; se_ns := ptr p2 (Space name);
                                 se_name := ptr p2 (Local name); se_attr := battr |}]
         ++ mid
         ++ [ElemEndElement {| ee_line := ln'; ee_ns := ptr p2 (Space name');
                               ee_name := ptr p2 (Local name') |}]
         ++ match last (List.filter isXmlns attrs) with
            | Some a => [ElemEndNamspace (endNs ln p2 a)]
            | None => match namespaceEnds e !! depth e with
                      | Some n => [ElemEndNamspace n]
                      | None => []
                      end
            end
    /\ Forall2 (fun a ba => attr_ns ba = ptr p2 (Space (AttrName a))
                            /\ attr_name ba = ptr p2 (Local (AttrName a)))
               (List.filter (fun a => negb (isXmlns a)) attrs) battr
    /\ namespaceEnds e2 !! depth e = None
    /\ (forall key, key < depth e -> namespaceEnds e2 !! key = namespaceEnds e !! key).
Proof.
  intros Hr Hst Hen Hbal Hok ln ln'.
  pose proof (tokenLoop_ok _ ([], EOF) Hok pos e p Hr) as Hrun. cbn [snd] in Hrun.
  destruct Hrun as (e2 & p2 & Hrun & _).
  exists e2, p2.
  assert (Hcont : forall post final,
            tokenLoop (st :: inner ++ en :: post) final pos e p
            = tokenLoop post final (step_offset en) e2 p2).
  { intros post final.
    replace (st :: inner ++ en :: post) with ((st :: inner ++ [en]) ++ post)
      by (cbn [app]; by rewrite <- app_assoc).
    rewrite tokenLoop_app, Hrun. f_equal.
    by rewrite app_comm_cons, offsetAfter_snoc. }
  pose proof Hrun as Hall.
  rewrite app_comm_cons, tokenLoop_app in Hall.
  destruct (tokenLoop (st :: inner) ([], EOF) pos e p) as [[e1' p1']| |] eqn:Ein; [|done..].
  pose proof (tokenLoop_lr _ _ _ _ _ _ Ein) as Hlr.
  cbn [tokenLoop snd fst] in Hall. unfold bind, ret in Hall.
  rewrite Hen in Hall.
  destruct (handleToken _ (EndElement name') _ p1') as [[e2' p2']| |] eqn:Eend; [|done..].
  injection Hall as <- <-.
  pose proof (monoM_handleToken _ _ _ _ _ _ Eend) as Hm2.
  destruct (end_spec _ _ _ _ _ _ Eend) as (Hd2 & _ & Hn2 & He2).
  cbn [depth lr namespaceEnds elements] in Hd2, Hn2, He2.
  cbn [tokenLoop snd fst] in Ein. unfold bind in Ein. rewrite Hst in Ein.
  destruct (handleToken _ (StartElement name attrs) _ p) as [[e1 p1]| |] eqn:Estart; [|done..].
  pose proof (monoM_tokenLoop _ _ _ _ _ _ _ Ein) as Hm1.
  destruct (start_spec _ _ _ _ _ _ _ Estart p2' (fun x a Hx => Hm2 _ _ (Hm1 _ _ Hx)))
    as (Hd1 & _ & Hn1 & battr & He1 & HF).
  cbn [depth lr namespaceEnds elements] in Hd1, Hn1, He1.
  destruct (nested_run (depth e + 1) inner 0%nat 0%nat (step_offset st) e1 p1 e1' p1'
              Hbal ltac:(lia) Ein)
    as (Hdi & Hki & mid & Hmid).
  replace (depth e1' - 1) with (depth e) in * by lia.
  assert (Hpend : namespaceEnds e1' !! depth e
                  = match last (List.filter isXmlns attrs) with
                    | Some a => Some (endNs ln p2' a)
                    | None => namespaceEnds e !! depth e
                    end).
  { rewrite Hki by lia. rewrite Hn1. destruct (last _); [|done].
    by rewrite lookup_insert_eq. }
  exists battr, mid. cbn [depth elements namespaceEnds].
  split_and!; try done.
  - rewrite He2, Hmid, He1, Hpend.
    replace (line (lr e1') (offsetAfter pos (st :: inner))) with ln'
      by (subst ln'; by rewrite Hlr).
    rewrite <- !app_assoc. do 4 f_equal.
    by destruct (last (List.filter isXmlns attrs)).
  - rewrite Hn2. by rewrite lookup_delete_eq.
  - intros key Hkey. rewrite Hn2, lookup_delete_ne by lia.
    rewrite Hki by lia. rewrite Hn1.
    destruct (last _); [rewrite lookup_insert_ne by lia|]; done.
Qed.

Lemma namespace_chunks_witness :
  let ln := line (lr startEncoder) 0 in
  let ln' := line (Reads (lr startEncoder) (concat (map step_reads (rootStart :: rootInner))))
                  (offsetAfter 0 (rootStart :: rootInner)) in
  exists e2 p2 battr mid,
    tokenLoop (rootStart :: rootInner ++ [rootEnd]) ([], EOF) 0 startEncoder newPool
    = Ret (e2, p2)
    /\ (forall post final,
          tokenLoop (rootStart :: rootInner ++ rootEnd :: post) final 0 startEncoder newPool
          = tokenLoop post final (step_offset rootEnd) e2 p2)
    /\ depth e2 = depth startEncoder
    /\ elements e2
       = elements startEncoder ++ map (startNs ln p2) (List.filter isXmlns rootAttrs)
         ++ [ElemStartElement {| se_line := ln; se_ns := ptr p2 (Space rootName);
                                 se_name := ptr p2 (Local rootName); se_attr := battr |}]
         ++ mid
         ++ [ElemEndElement {| ee_line := ln'; ee_ns := ptr p2 (Space rootName);
                               ee_name := ptr p2 (Local rootName) |}]
         ++ match last (List.filter isXmlns rootAttrs) with
            | Some a => [ElemEndNamspace (endNs ln p2 a)]
            | None => match namespaceEnds startEncoder !! depth startEncoder with
                      | Some n => [ElemEndNamspace n]
                      | None => []
                      end
            end
    /\ Forall2 (fun a ba => attr_ns ba = ptr p2 (Space (AttrName a))
                            /\ attr_name ba = ptr p2 (Local (AttrName a)))
               (List.filter (fun a => negb (isXmlns a)) rootAttrs) battr
    /\ namespaceEnds e2 !! depth startEncoder = None
    /\ (forall key, key < depth startEncoder ->
                    namespaceEnds e2 !! key = namespaceEnds startEncoder !! key).
Proof.
  apply (namespace_chunks rootStart rootEnd rootInner rootName rootName rootAttrs
           0 startEncoder newPool).
  - apply reach_new.
  - reflexivity.
  - reflexivity.
  - reflexivity.
  - vm_compute. reflexivity.
Defined.

(** ** The chunk depends on the strings only *)

Lemma encs_wf p : poolWF p -> map enc (entries p) = map encOf (strs p).
Proof.
  intros [_ _ Henc]. unfold strs, entries. rewrite !map_map.
  apply map_ext_in. intros a Ha. apply Henc. by apply list_elem_of_In.
Qed.

Lemma offsetsFrom_encs es1 : forall es2 o,
  map enc es1 = map enc es2 -> offsetsFrom o es1 = offsetsFrom o es2.
Proof.
  induction es1 as [|e1 es1 IH]; intros [|e2 es2] o; simpl; try done.
  intros [= He Hes]. rewrite He. f_equal. by apply IH.
Qed.

Lemma append_encs p q b :
  map enc (entries p) = map enc (entries q) ->
  binStringPool_append p b = binStringPool_append q b.
Proof.
  intros H.
  assert (HL : Len p = Len q).
  { unfold Len. apply (f_equal length) in H. unfold entries in H.
    by rewrite !length_map in H. }
  assert (Hs : binStringPool_size p = binStringPool_size q).
  { unfold binStringPool_size. by rewrite !fold_strLens, H, HL. }
  rewrite !binStringPool_append_layout, Hs, HL, H.
  by rewrite (offsetsFrom_encs _ _ _ H).
Qed.

(** X21: the pool chunk depends only on which strings were interned, not on
    the order of the calls of [get] nor on how often a string was asked for:
    two pools built by [get] that hold the same strings are sorted into the
    same sequence and serialized to the same bytes. *)
Theorem pool_chunk_canonical (p q : binStringPool) :
  reachable p -> reachable q ->
  strs p ≡ₚ strs q ->
  exists p' q',
    sortPool p = Ret p' /\ sortPool q = Ret q'
    /\ strs p' = strs q'
    /\ binStringPool_size p' = binStringPool_size q'
    /\ forall b, binStringPool_append p' b = binStringPool_append q' b.
Proof.
  intros Hp Hq Hperm.
  pose proof (reachable_wf _ Hp) as Hwp. pose proof (reachable_wf _ Hq) as Hwq.
  destruct (sortPool_spec p (wf_inv _ Hwp)) as (p' & HRp & Hip & Hsp & Hpp & _).
  destruct (sortPool_spec q (wf_inv _ Hwq)) as (q' & HRq & Hiq & Hsq & Hpq & _).
  destruct (sortPool_same _ _ (wf_inv _ Hwp) HRp) as [_ Hsamep].
  destruct (sortPool_same _ _ (wf_inv _ Hwq) HRq) as [_ Hsameq].
  pose proof (poolWF_same _ _ Hwp Hip Hsamep) as Hwp'.
  pose proof (poolWF_same _ _ Hwq Hiq Hsameq) as Hwq'.
  assert (Heq : strs p' = strs q').
  { apply (StronglySorted_unique_strong strLe); try done.
    - intros x y _ _ H1 H2. unfold strLe in H1, H2. by apply strLess_total.
    - by rewrite Hpp, Hperm, Hpq. }
  assert (Henc : map enc (entries p') = map enc (entries q'))
    by (by rewrite !encs_wf, Heq).
  exists p', q'. split_and!; try done.
  - unfold binStringPool_size. rewrite !fold_strLens, Henc.
    by rewrite <- !length_strs, Heq.
  - intros b. by apply append_encs.
Qed.

Lemma pool_chunk_canonical_witness :
  exists p' q',
    sortPool (interned "b" (interned "a" newPool)) = Ret p'
    /\ sortPool (interned "a" (interned "b" (interned "a" (interned "b" newPool)))) = Ret q'
    /\ strs p' = strs q'
    /\ binStringPool_size p' = binStringPool_size q'
    /\ forall b, binStringPool_append p' b = binStringPool_append q' b.
Proof.
  apply (pool_chunk_canonical
           (interned "b" (interned "a" newPool))
           (interned "a" (interned "b" (interned "a" (interned "b" newPool))))).
  - repeat apply reachable_interned. apply reach_new.
  - repeat apply reachable_interned. apply reach_new.
  - vm_compute. apply perm_swap.
Defined.

(** ** Integer attributes *)

(** X22: a versionCode or minSdkVersion attribute of the Android namespace
    whose value [strconv.Atoi] accepts is stored as that 64-bit integer and
    written with type tag 0x10 and the value reduced modulo 2^32: negative
    values and values of 2^32 and more are accepted and wrap around. *)
Theorem int_attributes (p : binStringPool) (local v : string) (n : Z) :
  local ∈ ["versionCode"; "minSdkVersion"]%string ->
  Atoi v = Ret n ->
  - 2 ^ 63 <= n < 2 ^ 63
  /\ exists ns nm p',
       getAttr (mkAttr androidNS local v) p
       = Ret ({| attr_ns := ns; attr_name := nm; attr_data := DataInt n |}, p')
       /\ forall h b,
            binAttr_append h {| attr_ns := ns; attr_name := nm; attr_data := DataInt n |} b
            = Ret (b ++ le32 (ind (deref h ns)) ++ le32 (ind (deref h nm))
                     ++ attrRaw ++ [16] ++ le32 (n mod 2 ^ 32)).
Proof.
  intros Hl Ha. split.
  - unfold Atoi in Ha. repeat case_match; try done; injection Ha as <-;
      match goal with H : between _ _ _ = true |- _ => apply between_spec in H end; lia.
  - unfold getAttr, bind. cbn [mkAttr AttrName Space Local Value].
    destruct (get_short androidNS p android_short) as (ns & p1 & -> & _).
    assert (Hs : len local < 65536).
    { rewrite !elem_of_cons, elem_of_nil in Hl. by destruct Hl as [->|[->|[]]]. }
    destruct (get_short local p1 Hs) as (nm & p2 & -> & _).
    change (negb (androidNS =? androidNS)%string) with false. cbv iota.
    assert (Ht : ((local =? "versionCode")%string || (local =? "minSdkVersion")%string)%bool = true).
    { rewrite !elem_of_cons, elem_of_nil in Hl. by destruct Hl as [->|[->|[]]]. }
    rewrite Ht, Ha. unfold liftOutcome, ret.
    exists ns, nm, p2. split; [done|]. intros h b.
    unfold binAttr_append, appendU32, appendU16, attrRaw, le32, u32.
    cbn [attr_ns attr_name attr_data]. f_equal. rewrite <- !app_assoc. reflexivity.
Qed.

Lemma int_attributes_witness :
  - 2 ^ 63 <= 4294967297 < 2 ^ 63
  /\ exists ns nm p',
       getAttr (mkAttr androidNS "versionCode" "4294967297") newPool
       = Ret ({| attr_ns := ns; attr_name := nm; attr_data := DataInt 4294967297 |}, p')
       /\ forall h b,
            binAttr_append h {| attr_ns := ns; attr_name := nm;
                                attr_data := DataInt 4294967297 |} b
            = Ret (b ++ le32 (ind (deref h ns)) ++ le32 (ind (deref h nm))
                     ++ attrRaw ++ [16] ++ le32 (4294967297 mod 2 ^ 32)).
Proof.
  apply (int_attributes newPool "versionCode" "4294967297" 4294967297).
  - by left.
  - vm_compute. reflexivity.
Defined.
